(** * My-Dictionary: the review scheduler and the training session

    A shallow embedding of [src/types.ts], [src/srs.ts], [src/utils.ts],
    [src/db.ts] and of the session code of [src/App.tsx], with the
    properties of the scheduling engine, of the session builder and of the
    session runtime.

    Conventions of the embedding.
    - A JavaScript [number] that holds a count, a number of days or a number
      of milliseconds is a [Z]. [ease], the only fractional field, is a
      binary64 double, held as the rational it denotes: a decimal literal is
      the double nearest to it, and [+], [-] and [*] give the double nearest
      to the exact result ([Number.double]). [Math.round x] is
      [floor (x + 1/2)] and [Math.floor] and [Math.max] are exact.
    - A [Date] is its time value in milliseconds, and an ISO-8601 string
      written by [toISOString] is the instant it denotes, so that
      [new Date(s).getTime()] gives it back.
    - [Math.random()] is a stream of draws, each a double in [[0,1)] by
      construction; the clock readings of an event are part of its input.
    - [sessionAttempts] and [sessionSeen] are plain objects: a read finds an
      own property or, failing that, a property of [Object.prototype].
    - An event handler of the component runs as one transition of the
      component state: what it reads is the state of the render it was
      created in, and its functional updaters apply in program order. *)

From Stdlib Require Import ZArith QArith Qround Qminmax Qabs Qpower.
From Stdlib Require Import Qreduction Lia Lqa.
From stdpp Require Import gmap strings pretty list sorting fin_maps.

Local Open Scope Z_scope.

(** ** types.ts *)

Inductive WordStatus := status_new | in_progress | completed.

Inductive Rating := again | hard | good | easy.

Inductive TrainingMode := flashcards | fill_blank | spelling | sentence.

Inductive SessionModeCfg := mixed | fixed_mode (m : TrainingMode).

Inductive TopicFilter := all_topics | topic_is (topicId : string).

Inductive Origin := origin_due | origin_in_progress | origin_new.

#[global] Instance WordStatus_eq_dec : EqDecision WordStatus.
Proof. solve_decision. Defined.
#[global] Instance Rating_eq_dec : EqDecision Rating.
Proof. solve_decision. Defined.
#[global] Instance TrainingMode_eq_dec : EqDecision TrainingMode.
Proof. solve_decision. Defined.
#[global] Instance Origin_eq_dec : EqDecision Origin.
Proof. solve_decision. Defined.

Record Topic := {
  topicId : string;
  name : string;
  topic_createdAt : Z;
}.

Record WordEntry := {
  id : string;
  word_topicId : string;
  wordOrPhrase : string;
  transcription : string;
  meaningEn : string;
  exampleUsage : string;
  translationUk : string;
  tags : list string;
  status : WordStatus;
  createdAt : Z;
  updatedAt : Z;
  dueAt : option Z;
  intervalDays : Z;
  ease : Q;
  reps : Z;
  lapses : Z;
  rightCount : Z;
  wrongCount : Z;
  skipCount : Z;
  lastReviewedAt : option Z;
}.

Record AppData := {
  schemaVersion : Z;
  data_topics : list Topic;
  data_words : list WordEntry;
}.

Record SessionConfig := {
  size : Z;
  mode : SessionModeCfg;
  cfg_topicId : TopicFilter;
  cfg_tags : list string;
}.

Record SessionStats := {
  total : Z;
  answered : Z;
  correct : Z;
  dueDone : Z;
  newIntroduced : Z;
  movedCompleted : Z;
  stat_lapses : Z;
  startedAt : Z;
  finishedAt : option Z;
}.

(** Field assignments on a copy, [{ ...word, field: v }]. *)

Definition set_status (v : WordStatus) (w : WordEntry) : WordEntry :=
  let 'Build_WordEntry a b c d e f g h _ j k l m n o p q r s t := w in
  Build_WordEntry a b c d e f g h v j k l m n o p q r s t.
Definition set_updatedAt (v : Z) (w : WordEntry) : WordEntry :=
  let 'Build_WordEntry a b c d e f g h i j _ l m n o p q r s t := w in
  Build_WordEntry a b c d e f g h i j v l m n o p q r s t.
Definition set_dueAt (v : option Z) (w : WordEntry) : WordEntry :=
  let 'Build_WordEntry a b c d e f g h i j k _ m n o p q r s t := w in
  Build_WordEntry a b c d e f g h i j k v m n o p q r s t.
Definition set_intervalDays (v : Z) (w : WordEntry) : WordEntry :=
  let 'Build_WordEntry a b c d e f g h i j k l _ n o p q r s t := w in
  Build_WordEntry a b c d e f g h i j k l v n o p q r s t.
Definition set_ease (v : Q) (w : WordEntry) : WordEntry :=
  let 'Build_WordEntry a b c d e f g h i j k l m _ o p q r s t := w in
  Build_WordEntry a b c d e f g h i j k l m v o p q r s t.
Definition set_reps (v : Z) (w : WordEntry) : WordEntry :=
  let 'Build_WordEntry a b c d e f g h i j k l m n _ p q r s t := w in
  Build_WordEntry a b c d e f g h i j k l m n v p q r s t.
Definition set_lapses (v : Z) (w : WordEntry) : WordEntry :=
  let 'Build_WordEntry a b c d e f g h i j k l m n o _ q r s t := w in
  Build_WordEntry a b c d e f g h i j k l m n o v q r s t.
Definition set_rightCount (v : Z) (w : WordEntry) : WordEntry :=
  let 'Build_WordEntry a b c d e f g h i j k l m n o p _ r s t := w in
  Build_WordEntry a b c d e f g h i j k l m n o p v r s t.
Definition set_wrongCount (v : Z) (w : WordEntry) : WordEntry :=
  let 'Build_WordEntry a b c d e f g h i j k l m n o p q _ s t := w in
  Build_WordEntry a b c d e f g h i j k l m n o p q v s t.
Definition set_skipCount (v : Z) (w : WordEntry) : WordEntry :=
  let 'Build_WordEntry a b c d e f g h i j k l m n o p q r _ t := w in
  Build_WordEntry a b c d e f g h i j k l m n o p q r v t.
Definition set_lastReviewedAt (v : option Z) (w : WordEntry) : WordEntry :=
  let 'Build_WordEntry a b c d e f g h i j k l m n o p q r s _ := w in
  Build_WordEntry a b c d e f g h i j k l m n o p q r s v.

(** ** The numbers of JavaScript *)

Module Number.

(** A [number] with a fraction is a binary64 double, here the rational it
    denotes. [double x] is the double nearest to [x], a tie going to the
    even significand: 53 bits of significand, and a least exponent of -1074
    for the subnormal numbers. The result of [+], [-] or [*] on doubles is
    [double] of the exact result. No result is taken to overflow: beyond
    the largest double the source gets [Infinity], and a word with such an
    interval gets no [dueAt], since [toISOString] raises on it. *)
Definition pow2 (e : Z) : Q := Qpower 2 e.

(** [floor (log2 |x|)] for an [x] that is not 0. *)
Definition magnitude (x : Q) : Z :=
  let e0 := Z.log2 (Z.abs (Qnum x)) - Z.log2 (Zpos (Qden x)) in
  if Qle_bool (pow2 e0) (Qabs x) then e0 else e0 - 1.

(** The nearest integer, a tie going to the even one. *)
Definition round_even (x : Q) : Z :=
  let f := Qfloor x in
  match (x - inject_Z f ?= 1 # 2)%Q with
  | Lt => f
  | Gt => f + 1
  | Eq => if Z.even f then f else f + 1
  end.

(** The exponent of the unit in the last place of the doubles around [x]. *)
Definition quantum (x : Q) : Z := Z.max (magnitude x - 52) (-1074).

Definition double (x : Q) : Q :=
  if Qeq_bool x 0 then 0%Q
  else Qred (inject_Z (round_even (x / pow2 (quantum x))) * pow2 (quantum x)).

Definition add (a b : Q) : Q := double (a + b).
Definition sub (a b : Q) : Q := double (a - b).
Definition mul (a b : Q) : Q := double (a * b).

(** Half a unit in the last place, relative to the value and for the
    subnormal numbers. *)
Definition eps : Q := pow2 (-53).
Definition tiny : Q := pow2 (-1075).

End Number.

Arguments Number.double : simpl never.
Arguments Number.pow2 : simpl never.

(** ** srs.ts *)

Module Srs.

Import Number.

(** [1.3] and the other decimal literals are the doubles nearest to them. *)
Definition MIN_EASE : Q := double (13 # 10).

(** [Math.round]: the nearest integer, a tie going up. *)
Definition Math_round (x : Q) : Z := Qfloor (x + (1 # 2)).

Definition addDays (now : Z) (days : Z) : Z :=
  now + days * 24 * 60 * 60 * 1000.

Definition resolveStatus (word : WordEntry) (rating : Rating) : WordStatus :=
  if bool_decide (status word = completed) && bool_decide (rating = again)
  then in_progress
  else if (5 <=? reps word) && (21 <=? intervalDays word) then completed
  else if bool_decide (status word = status_new) then in_progress
  else status word.

Definition rate_again (now : Z) (updated : WordEntry) : WordEntry :=
  let updated := set_reps 0 updated in
  let updated := set_lapses (lapses updated + 1) updated in
  let updated :=
    set_ease (Qmax MIN_EASE (sub (ease updated) (double (2 # 10)))) updated in
  let updated := set_intervalDays 0 updated in
  set_dueAt (Some (now + 10 * 60 * 1000)) updated.

Definition rate_hard (now : Z) (updated : WordEntry) : WordEntry :=
  let updated :=
    set_ease (Qmax MIN_EASE (sub (ease updated) (double (5 # 100))))
      updated in
  let updated :=
    set_intervalDays
      (Z.max 1
         (Math_round (mul (inject_Z (intervalDays updated)) (double (12 # 10)))))
      updated in
  let updated := set_dueAt (Some (addDays now (intervalDays updated))) updated in
  set_reps (reps updated + 1) updated.

Definition rate_good (now : Z) (updated : WordEntry) : WordEntry :=
  let updated :=
    if reps updated =? 0 then set_intervalDays 1 updated
    else if reps updated =? 1 then set_intervalDays 3 updated
    else set_intervalDays
           (Math_round (mul (inject_Z (intervalDays updated)) (ease updated)))
           updated in
  let updated := set_dueAt (Some (addDays now (intervalDays updated))) updated in
  set_reps (reps updated + 1) updated.

Definition rate_easy (now : Z) (updated : WordEntry) : WordEntry :=
  let updated := set_ease (add (ease updated) (double (1 # 10))) updated in
  let updated :=
    set_intervalDays
      (Z.max 4 (Math_round
                  (mul (mul (inject_Z (intervalDays updated)) (ease updated))
                     (double (13 # 10)))))
      updated in
  let updated := set_dueAt (Some (addDays now (intervalDays updated))) updated in
  set_reps (reps updated + 1) updated.

Definition applyRating (word : WordEntry) (rating : Rating) (now : Z)
  : WordEntry :=
  let updated := word in
  let updated := set_lastReviewedAt (Some now) updated in
  let updated :=
    if bool_decide (rating = again) then rate_again now updated else updated in
  let updated :=
    if bool_decide (rating = hard) then rate_hard now updated else updated in
  let updated :=
    if bool_decide (rating = good) then rate_good now updated else updated in
  let updated :=
    if bool_decide (rating = easy) then rate_easy now updated else updated in
  let updated := set_updatedAt now updated in
  set_status (resolveStatus updated rating) updated.

Definition isDue (word : WordEntry) (now : Z) : bool :=
  match dueAt word with
  | None => true
  | Some due => due <=? now
  end.

End Srs.

(** ** utils.ts *)

Module Utils.

(** One result of [Math.random()]: a double in [[0,1)], that is
    [m / 2^(53 + k)] for a significand [m] below [2^53] and a scale [k] of
    1021 at most. The significand is read modulo [2^53] and a larger scale
    as 1021, so that every record is such a double. *)
Record Draw := { draw_significand : N; draw_scale : N }.

Definition draw_value (d : Draw) : Q :=
  Z.of_N (draw_significand d mod 2 ^ 53)
  # 2 ^ N.succ_pos (52 + N.min (draw_scale d) 1021).

(** The successive results of [Math.random()], and a computation that
    consumes them in order. *)
Definition RandomSource := nat -> Draw.

Definition Rand (A : Type) : Type := RandomSource -> nat -> A * nat.

#[global] Instance Rand_ret : MRet Rand := fun A a _ k => (a, k).

#[global] Instance Rand_bind : MBind Rand := fun A B f m src k =>
  let '(a, k') := m src k in f a src k'.

Definition Math_random : Rand Q := fun src k => (draw_value (src k), S k).

Definition run {A} (m : Rand A) (src : RandomSource) : A := fst (m src O).

(** [createWord], with the fresh identifier and the clock reading it takes. *)
Definition createWord (uid : string) (nowIso : Z) (topic : string) : WordEntry :=
  {| id := uid;
     word_topicId := topic;
     wordOrPhrase := "";
     transcription := "";
     meaningEn := "";
     exampleUsage := "";
     translationUk := "";
     tags := [];
     status := status_new;
     createdAt := nowIso;
     updatedAt := nowIso;
     dueAt := None;
     intervalDays := 0;
     ease := 25 # 10;
     reps := 0;
     lapses := 0;
     rightCount := 0;
     wrongCount := 0;
     skipCount := 0;
     lastReviewedAt := None |}.

(** [items[Math.floor(Math.random() * items.length)]]; [undefined] stands
    for the element of an index out of range, which a draw below 1 never
    gives on a list that is not empty. *)
Definition pickRandom {T} (undefined : T) (items : list T) : Rand T :=
  r ← Math_random;
  mret (nth (Z.to_nat
               (Qfloor (Number.mul r (inject_Z (Z.of_nat (length items))))))
          items undefined).

End Utils.

(** ** db.ts: the two object stores, keyed by [topicId] and by [id] *)

Module Db.

Record Store := {
  topics_store : gmap string Topic;
  words_store : gmap string WordEntry;
}.

Definition empty : Store := {| topics_store := ∅; words_store := ∅ |}.

Definition putTopic (topic : Topic) (d : Store) : Store :=
  {| topics_store := <[topicId topic := topic]> (topics_store d);
     words_store := words_store d |}.

Definition putWord (word : WordEntry) (d : Store) : Store :=
  {| topics_store := topics_store d;
     words_store := <[id word := word]> (words_store d) |}.

Definition deleteWord (wid : string) (d : Store) : Store :=
  {| topics_store := topics_store d;
     words_store := delete wid (words_store d) |}.

Definition deleteTopic (tid : string) (d : Store) : Store :=
  {| topics_store := delete tid (topics_store d);
     words_store :=
       filter (fun kv => word_topicId kv.2 <> tid) (words_store d) |}.

Definition clearAll (d : Store) : Store := empty.

End Db.

(** ** App.tsx: the session builder *)

Module App.

Import Srs Utils.

Definition DEFAULT_SESSION_SIZE : Z := 20.
Definition SCHEMA_VERSION : Z := 1.
Definition MODES : list TrainingMode :=
  [flashcards; fill_blank; spelling; sentence].

Definition emptyConfig : SessionConfig :=
  {| size := DEFAULT_SESSION_SIZE;
     mode := mixed;
     cfg_topicId := all_topics;
     cfg_tags := [] |}.

Definition emptyStats (dateNow : Z) : SessionStats :=
  {| total := 0;
     answered := 0;
     correct := 0;
     dueDone := 0;
     newIntroduced := 0;
     movedCompleted := 0;
     stat_lapses := 0;
     startedAt := dateNow;
     finishedAt := None |}.

Record SessionItem := {
  item_id : string;
  item_mode : TrainingMode;
  origin : Origin;
}.

(** [Array.prototype.slice(0, end)]: a negative [end] counts from the end of
    the array. *)
Definition slice0 {A} (l : list A) (e : Z) : list A :=
  if e <? 0 then take (Z.to_nat (Z.of_nat (length l) + e)) l
  else take (Z.to_nat e) l.

(** [Array.prototype.sort] with a comparator: a stable sort, here by
    insertion from the right. *)
Fixpoint sort_insert {A} (cmp : A -> A -> Z) (x : A) (l : list A) : list A :=
  match l with
  | [] => [x]
  | y :: l' => if cmp x y <=? 0 then x :: y :: l' else y :: sort_insert cmp x l'
  end.

Definition Array_sort {A} (cmp : A -> A -> Z) (l : list A) : list A :=
  foldr (sort_insert cmp) [] l.

(** [list.forEach(f)] for an [f] that updates an accumulator and draws
    random numbers. *)
Fixpoint forEach {A S} (f : A -> S -> Rand S) (l : list A) (s : S) : Rand S :=
  match l with
  | [] => mret s
  | x :: l' => s' ← f x s; forEach f l' s'
  end.

(** The predicate of [words.filter] at the head of [buildSession]. *)
Definition matchesFilters (config : SessionConfig) (word : WordEntry) : bool :=
  if match cfg_topicId config with
     | all_topics => false
     | topic_is t => bool_decide (word_topicId word <> t)
     end
  then false
  else if (0 <? Z.of_nat (length (cfg_tags config)))
          && negb (existsb (fun tag => bool_decide (tag ∈ tags word))
                     (cfg_tags config))
  then false
  else true.

Definition dueTime (w : WordEntry) : Z :=
  match dueAt w with Some t => t | None => 0 end.

Definition dueTargetOf (size : Z) : Z :=
  Z.min size (Math_round (inject_Z size * (6 # 10))).

Definition inProgressTargetOf (size : Z) : Z :=
  Z.min (size - dueTargetOf size) (Math_round (inject_Z size * (25 # 100))).

Definition newTargetOf (size : Z) : Z :=
  Z.max 0 (size - dueTargetOf size - inProgressTargetOf size).

Definition pushItem (config : SessionConfig) (word : WordEntry)
    (origin : Origin) (selection : list SessionItem)
  : Rand (list SessionItem) :=
  mode ← match mode config with
         | mixed => pickRandom flashcards MODES
         | fixed_mode m => mret m
         end;
  mret (selection ++ [{| item_id := id word; item_mode := mode;
                         origin := origin |}]).

(** [[copy[i], copy[j]] = [copy[j], copy[i]]] for indices inside the array. *)
Definition swap {T} (copy : list T) (i j : nat) : list T :=
  match copy !! i, copy !! j with
  | Some a, Some b => <[j := a]> (<[i := b]> copy)
  | _, _ => copy
  end.

(** The loop of [shuffle], for [i] from [n] down to 1. *)
Fixpoint shuffle_from {T} (n : nat) (copy : list T) : Rand (list T) :=
  match n with
  | O => mret copy
  | S n' =>
      r ← Math_random;
      let j :=
        Z.to_nat (Qfloor (Number.mul r (inject_Z (Z.of_nat n + 1)))) in
      shuffle_from n' (swap copy n j)
  end.

Definition shuffle {T} (l : list T) : Rand (list T) :=
  shuffle_from (length l - 1)%nat l.

Definition filteredOf (words : list WordEntry) (config : SessionConfig)
  : list WordEntry :=
  filter (fun word => matchesFilters config word = true) words.

Definition dueOf (filtered : list WordEntry) (now : Z) : list WordEntry :=
  filter (fun word => status word <> status_new /\ isDue word now = true)
    filtered.

Definition inProgressOf (filtered : list WordEntry) (now : Z)
  : list WordEntry :=
  filter (fun word => status word = in_progress /\ isDue word now = false)
    filtered.

Definition newWordsOf (filtered : list WordEntry) : list WordEntry :=
  filter (fun word => status word = status_new) filtered.

(** The selection before it is shuffled. *)
Definition selectionOf (words : list WordEntry) (config : SessionConfig)
    (now : Z) : Rand (list SessionItem) :=
  let filtered := filteredOf words config in
  let due := dueOf filtered now in
  let inProgress := inProgressOf filtered now in
  let newWords := newWordsOf filtered in
  let dueSorted := Array_sort (fun a b => dueTime a - dueTime b) due in
  let inProgressSorted :=
    Array_sort (fun a b => (lapses b + wrongCount b) - (lapses a + wrongCount a))
      inProgress in
  let size := size config in
  let dueTarget := dueTargetOf size in
  let inProgressTarget := inProgressTargetOf size in
  let newTarget := newTargetOf size in
  let selection := [] in
  selection ← forEach (fun word => pushItem config word origin_due)
                 (slice0 dueSorted dueTarget) selection;
  selection ← forEach (fun word => pushItem config word origin_in_progress)
                 (slice0 inProgressSorted inProgressTarget) selection;
  selection ← forEach (fun word => pushItem config word origin_new)
                 (slice0 newWords newTarget) selection;
  if Z.of_nat (length selection) <? size then
    let remaining :=
      filter (fun word =>
                existsb (fun s => bool_decide (item_id s = id word)) selection
                = false) filtered in
    forEach (fun word =>
               pushItem config word
                 (if bool_decide (status word = status_new)
                  then origin_new else origin_in_progress))
      (slice0 remaining (size - Z.of_nat (length selection))) selection
  else mret selection.

Definition buildSession (words : list WordEntry) (config : SessionConfig)
    (now : Z) : Rand (list SessionItem) :=
  selection ← selectionOf words config now;
  shuffle selection.

(** ** App.tsx: the component state and the session runtime *)

Inductive View := view_manage | view_train | view_stats.
Inductive ImportMode := import_merge | import_replace.
Inductive SpellingPrompt := prompt_meaning | prompt_translation.

(** The names that a plain object inherits from [Object.prototype]. *)
Definition Object_prototype : list string :=
  [ "constructor"; "hasOwnProperty"; "isPrototypeOf"; "propertyIsEnumerable";
    "toLocaleString"; "toString"; "valueOf"; "__proto__";
    "__defineGetter__"; "__defineSetter__"; "__lookupGetter__";
    "__lookupSetter__" ].

(** What [sessionAttempts] holds under a key: a count, or the string that
    [+ 1] makes of a value that is not a number, the text of the property
    that the key inherits followed by as many digits 1 as there were
    additions. *)
Inductive Attempts :=
| attempts_number (n : Z)
| attempts_text (key : string) (ones : nat).

#[global] Instance Attempts_eq_dec : EqDecision Attempts.
Proof. solve_decision. Defined.

(** [(sessionAttempts[key] ?? 0) + 1]: the read finds the own property, or
    the inherited one, or [undefined]. *)
Definition nextAttempts (sessionAttempts : gmap string Attempts)
    (key : string) : Attempts :=
  match sessionAttempts !! key with
  | Some (attempts_number n) => attempts_number (n + 1)
  | Some (attempts_text k ones) => attempts_text k (S ones)
  | None =>
      if bool_decide (key ∈ Object_prototype) then attempts_text key 1
      else attempts_number 1
  end.

(** [attempts >= 3]: such a string converts to [NaN], which is not [>= 3]. *)
Definition atLeast3 (attempts : Attempts) : bool :=
  match attempts with
  | attempts_number n => 3 <=? n
  | attempts_text _ _ => false
  end.

(** The truth value of [sessionSeen[key]]: an inherited property is a
    function or an object, which is truthy. *)
Definition seenBefore (sessionSeen : gmap string bool) (key : string)
  : bool :=
  match sessionSeen !! key with
  | Some seen => seen
  | None => bool_decide (key ∈ Object_prototype)
  end.

(** The state of the card on screen, the one [resetCardState] resets. *)
Record CardState := {
  sessionMode : TrainingMode;
  answer : string;
  showAnswer : bool;
  hintStep : Z;
  pendingRating : option Rating;
  spellingPrompt : SpellingPrompt;
  spellingMistakes : Z;
}.

(** The state of the component that the session and the import use (the
    fields of the word form and of the list filters are left out), with the
    database and the pending timeouts of the window it runs in. *)
Record AppState := {
  db : Db.Store;
  pendingTimeouts : gset positive;
  nextTimeoutId : positive;
  topics : list Topic;
  words : list WordEntry;
  view : View;
  sessionConfig : SessionConfig;
  sessionQueue : list SessionItem;
  sessionIndex : nat;
  sessionStats : SessionStats;
  sessionTimerRef : option positive;
  sessionAttempts : gmap string Attempts;
  sessionSeen : gmap string bool;
  card : CardState;
  importMode : ImportMode;
  message : string;
}.

Definition set_db (v : Db.Store) (s : AppState) : AppState :=
  let 'Build_AppState _ b c d e f g h i j k l m n o p := s in
  Build_AppState v b c d e f g h i j k l m n o p.
Definition set_pendingTimeouts (v : gset positive) (s : AppState) : AppState :=
  let 'Build_AppState a _ c d e f g h i j k l m n o p := s in
  Build_AppState a v c d e f g h i j k l m n o p.
Definition set_nextTimeoutId (v : positive) (s : AppState) : AppState :=
  let 'Build_AppState a b _ d e f g h i j k l m n o p := s in
  Build_AppState a b v d e f g h i j k l m n o p.
Definition setTopics (v : list Topic) (s : AppState) : AppState :=
  let 'Build_AppState a b c _ e f g h i j k l m n o p := s in
  Build_AppState a b c v e f g h i j k l m n o p.
Definition setWords (v : list WordEntry) (s : AppState) : AppState :=
  let 'Build_AppState a b c d _ f g h i j k l m n o p := s in
  Build_AppState a b c d v f g h i j k l m n o p.
Definition setView (v : View) (s : AppState) : AppState :=
  let 'Build_AppState a b c d e _ g h i j k l m n o p := s in
  Build_AppState a b c d e v g h i j k l m n o p.
Definition setSessionQueue (v : list SessionItem) (s : AppState) : AppState :=
  let 'Build_AppState a b c d e f g _ i j k l m n o p := s in
  Build_AppState a b c d e f g v i j k l m n o p.
Definition setSessionIndex (v : nat) (s : AppState) : AppState :=
  let 'Build_AppState a b c d e f g h _ j k l m n o p := s in
  Build_AppState a b c d e f g h v j k l m n o p.
Definition setSessionStats (v : SessionStats) (s : AppState) : AppState :=
  let 'Build_AppState a b c d e f g h i _ k l m n o p := s in
  Build_AppState a b c d e f g h i v k l m n o p.
Definition set_sessionTimerRef (v : option positive) (s : AppState)
  : AppState :=
  let 'Build_AppState a b c d e f g h i j _ l m n o p := s in
  Build_AppState a b c d e f g h i j v l m n o p.
Definition setSessionAttempts (v : gmap string Attempts) (s : AppState)
  : AppState :=
  let 'Build_AppState a b c d e f g h i j k _ m n o p := s in
  Build_AppState a b c d e f g h i j k v m n o p.
Definition setSessionSeen (v : gmap string bool) (s : AppState) : AppState :=
  let 'Build_AppState a b c d e f g h i j k l _ n o p := s in
  Build_AppState a b c d e f g h i j k l v n o p.
Definition set_card (v : CardState) (s : AppState) : AppState :=
  let 'Build_AppState a b c d e f g h i j k l m _ o p := s in
  Build_AppState a b c d e f g h i j k l m v o p.
Definition setMessage (v : string) (s : AppState) : AppState :=
  let 'Build_AppState a b c d e f g h i j k l m n o _ := s in
  Build_AppState a b c d e f g h i j k l m n o v.

Definition setImportMode (v : ImportMode) (s : AppState) : AppState :=
  let 'Build_AppState a b c d e f g h i j k l m n _ p := s in
  Build_AppState a b c d e f g h i j k l m n v p.
Definition setSessionConfig (v : SessionConfig) (s : AppState) : AppState :=
  let 'Build_AppState a b c d e f _ h i j k l m n o p := s in
  Build_AppState a b c d e f v h i j k l m n o p.

(** The object spreads [{ ...prev, field: v }] on the statistics. *)
Definition with_total (v : Z) (p : SessionStats) : SessionStats :=
  let 'Build_SessionStats _ b c d e f g h i := p in
  Build_SessionStats v b c d e f g h i.
Definition with_answered (v : Z) (p : SessionStats) : SessionStats :=
  let 'Build_SessionStats a _ c d e f g h i := p in
  Build_SessionStats a v c d e f g h i.
Definition with_correct (v : Z) (p : SessionStats) : SessionStats :=
  let 'Build_SessionStats a b _ d e f g h i := p in
  Build_SessionStats a b v d e f g h i.
Definition with_dueDone (v : Z) (p : SessionStats) : SessionStats :=
  let 'Build_SessionStats a b c _ e f g h i := p in
  Build_SessionStats a b c v e f g h i.
Definition with_newIntroduced (v : Z) (p : SessionStats) : SessionStats :=
  let 'Build_SessionStats a b c d _ f g h i := p in
  Build_SessionStats a b c d v f g h i.
Definition with_movedCompleted (v : Z) (p : SessionStats) : SessionStats :=
  let 'Build_SessionStats a b c d e _ g h i := p in
  Build_SessionStats a b c d e v g h i.
Definition with_lapses (v : Z) (p : SessionStats) : SessionStats :=
  let 'Build_SessionStats a b c d e f _ h i := p in
  Build_SessionStats a b c d e f v h i.
Definition with_startedAt (v : Z) (p : SessionStats) : SessionStats :=
  let 'Build_SessionStats a b c d e f g _ i := p in
  Build_SessionStats a b c d e f g v i.
Definition with_finishedAt (v : option Z) (p : SessionStats) : SessionStats :=
  let 'Build_SessionStats a b c d e f g h _ := p in
  Build_SessionStats a b c d e f g h v.

(** The component as [useState] and [useRef] start it and as the effect that
    loads the database fills it, over the database [d]. *)
Definition initialState (d : Db.Store) (loadedTopics : list Topic)
    (loadedWords : list WordEntry) (dateNow : Z) : AppState :=
  {| db := d;
     pendingTimeouts := ∅;
     nextTimeoutId := 1%positive;
     topics := loadedTopics;
     words := loadedWords;
     view := view_manage;
     sessionConfig := emptyConfig;
     sessionQueue := [];
     sessionIndex := 0;
     sessionStats := emptyStats dateNow;
     sessionTimerRef := None;
     sessionAttempts := ∅;
     sessionSeen := ∅;
     card := {| sessionMode := flashcards;
                answer := "";
                showAnswer := false;
                hintStep := 0;
                pendingRating := None;
                spellingPrompt := prompt_meaning;
                spellingMistakes := 0 |};
     importMode := import_merge;
     message := "" |}.

(** [notify]: the message is shown (the timeout that blanks it 2.2 s later
    is not part of the model). *)
Definition notify (text : string) (s : AppState) : AppState :=
  setMessage text s.

Definition clearTimeout (tid : positive) (s : AppState) : AppState :=
  set_pendingTimeouts (pendingTimeouts s ∖ {[tid]}) s.

Definition resetCardState (item : SessionItem) (s : AppState) : AppState :=
  set_card {| sessionMode := item_mode item;
              answer := "";
              showAnswer := false;
              hintStep := 0;
              pendingRating := None;
              spellingPrompt := prompt_meaning;
              spellingMistakes := 0 |} s.

Definition currentItem (s : AppState) : option SessionItem :=
  sessionQueue s !! sessionIndex s.

Definition currentWord (s : AppState) : option WordEntry :=
  match currentItem s with
  | None => None
  | Some item =>
      find (fun w => bool_decide (id w = item_id item)) (words s)
  end.

(** [prev.map((w) => (w.id === updated.id ? updated : w))] *)
Definition replaceWord (updated : WordEntry) (prev : list WordEntry)
  : list WordEntry :=
  map (fun w => if bool_decide (id w = id updated) then updated else w) prev.

(** The callback that [handleStartSession] hands to [window.setTimeout]; it
    runs only while its timeout is pending. *)
Definition sessionTimeout (tid : positive) (dateNow : Z) (s : AppState)
  : AppState :=
  if bool_decide (tid ∈ pendingTimeouts s) then
    let s := clearTimeout tid s in
    let s := setSessionStats
               (with_finishedAt (Some dateNow) (sessionStats s)) s in
    let s := notify "Session timed out after 10 minutes." s in
    setView view_stats s
  else s.

(** The clock readings and the random numbers of [handleStartSession]. *)
Record StartEnv := {
  start_newDate : Z;
  start_emptyStatsNow : Z;
  start_dateNow : Z;
  start_random : RandomSource;
}.

Definition handleStartSession (env : StartEnv) (render : AppState)
  : AppState :=
  let selection :=
    run (buildSession (words render) (sessionConfig render)
           (start_newDate env)) (start_random env) in
  match selection with
  | [] => notify "No words match the current filters." render
  | first :: _ =>
      let s := render in
      let s := match sessionTimerRef s with
               | Some tid => clearTimeout tid s
               | None => s
               end in
      let s := setSessionQueue selection s in
      let s := setSessionIndex 0 s in
      let s := setSessionStats
                 (with_startedAt (start_dateNow env)
                    (with_total (Z.of_nat (length selection))
                       (emptyStats (start_emptyStatsNow env)))) s in
      let s := setSessionAttempts ∅ s in
      let s := setSessionSeen ∅ s in
      let s := setView view_train s in
      let s := resetCardState first s in
      let tid := nextTimeoutId s in
      let s := set_nextTimeoutId (Pos.succ tid) s in
      let s := set_pendingTimeouts ({[tid]} ∪ pendingTimeouts s) s in
      set_sessionTimerRef (Some tid) s
  end.

(** [advanceSession] reads [sessionIndex] and [sessionQueue] of the render
    its caller belongs to, and updates the current state [s];
    [nextIndex >= sessionQueue.length] is the case where the queue has
    nothing at [nextIndex]. *)
Definition advanceSession (render : AppState) (dateNow : Z) (s : AppState)
  : AppState :=
  let nextIndex := (sessionIndex render + 1)%nat in
  match sessionQueue render !! nextIndex with
  | None =>
      let s := setSessionStats
                 (with_finishedAt (Some dateNow) (sessionStats s)) s in
      let s := match sessionTimerRef s with
               | Some tid => set_sessionTimerRef None (clearTimeout tid s)
               | None => s
               end in
      notify "Session complete." s
  | Some item =>
      let s := setSessionIndex nextIndex s in
      resetCardState item s
  end.

(** The clock readings and the random number of one [handleRating]. *)
Record RatingEnv := {
  rating_newDate : Z;
  rating_postponeNow : Z;
  rating_postponeIso : Z;
  rating_finishNow : Z;
  rating_random : Draw;
}.

Definition reinsertOffset (d : Draw) : Z :=
  5 + Qfloor (Number.mul (draw_value d) 3).

(** [next.splice(insertAt, 0, reinsertion)] on a copy of the queue. *)
Definition splice_in {T} (insertAt : nat) (x : T) (prev : list T) : list T :=
  take insertAt prev ++ x :: drop insertAt prev.

(** The word that [handleRating] stores: the result of [applyRating] with
    the counters of the answer, then the two status assignments. *)
Definition ratedWord (word : WordEntry) (rating : Rating)
    (manualAnswer : option string) (isNewIntro : bool) (now : Z)
  : WordEntry :=
  let updatedBase := applyRating word rating now in
  let updated :=
    set_skipCount
      (if bool_decide (rating = again)
          && bool_decide (manualAnswer = Some "skip")
       then skipCount word + 1 else skipCount word)
      (set_wrongCount
         (if bool_decide (rating = again)
          then wrongCount word + 1 else wrongCount word)
         (set_rightCount
            (if bool_decide (rating = again)
             then rightCount word else rightCount word + 1)
            updatedBase)) in
  let updated :=
    if bool_decide (rating = again) && bool_decide (status word = completed)
    then set_status in_progress updated else updated in
  if isNewIntro then set_status in_progress updated else updated.

(** The five [setSessionStats] updaters of [handleRating], in program
    order. *)
Definition ratedStats (rating : Rating) (item : SessionItem)
    (word updated : WordEntry) (isNewIntro : bool) (prev : SessionStats)
  : SessionStats :=
  let prev :=
    if bool_decide (rating = again)
    then with_lapses (stat_lapses prev + 1) prev else prev in
  let prev :=
    if bool_decide (status updated = completed)
       && bool_decide (status word <> completed)
    then with_movedCompleted (movedCompleted prev + 1) prev else prev in
  let prev :=
    if isNewIntro
    then with_newIntroduced (newIntroduced prev + 1) prev else prev in
  let prev :=
    if bool_decide (origin item = origin_due)
    then with_dueDone (dueDone prev + 1) prev else prev in
  let accuracyIncrement := if bool_decide (rating = again) then 0 else 1 in
  with_correct (correct prev + accuracyIncrement)
    (with_answered (answered prev + 1) prev).

Definition handleRating (rating : Rating) (manualAnswer : option string)
    (env : RatingEnv) (render : AppState) : AppState :=
  match currentItem render, currentWord render with
  | Some item, Some word =>
      let s := render in
      let now := rating_newDate env in
      let alreadySeen := seenBefore (sessionSeen render) (id word) in
      let isNewIntro :=
        bool_decide (status word = status_new) && negb alreadySeen in
      let updated := ratedWord word rating manualAnswer isNewIntro now in
      let s :=
        setSessionStats
          (ratedStats rating item word updated isNewIntro (sessionStats s))
          s in
      let s := set_db (Db.putWord updated (db s)) s in
      let s := setWords (replaceWord updated (words s)) s in
      let s := setSessionSeen (<[id word := true]> (sessionSeen s)) s in
      if bool_decide (rating = again) then
        let attempts := nextAttempts (sessionAttempts render) (id word) in
        let s :=
          setSessionAttempts (<[id word := attempts]> (sessionAttempts s)) s in
        if atLeast3 attempts then
          let postponed :=
            set_updatedAt (rating_postponeIso env)
              (set_dueAt
                 (Some (rating_postponeNow env + 24 * 60 * 60 * 1000))
                 updated) in
          let s := set_db (Db.putWord postponed (db s)) s in
          let s := setWords (replaceWord postponed (words s)) s in
          advanceSession render (rating_finishNow env) s
        else
          let offset := reinsertOffset (rating_random env) in
          let insertAt :=
            Z.to_nat
              (Z.min (Z.of_nat (length (sessionQueue render)))
                 (Z.of_nat (sessionIndex render) + offset)) in
          let reinsertion := item in
          let s :=
            setSessionQueue (splice_in insertAt reinsertion (sessionQueue s))
              s in
          advanceSession render (rating_finishNow env) s
      else advanceSession render (rating_finishNow env) s
  | _, _ => render
  end.

Definition handleSkip (env : RatingEnv) (render : AppState) : AppState :=
  handleRating again (Some "skip") env render.

(** ** App.tsx: import *)

(** What [JSON.parse] gave: [None] for a value that is not an object, and in
    an object each of [topics] and [words] is there only if it is an array. *)
Record Parsed := {
  parsed_schemaVersion : Z;
  parsed_topics : option (list Topic);
  parsed_words : option (list WordEntry);
}.

Definition putAllTopics (l : list Topic) (d : Db.Store) : Db.Store :=
  foldl (fun d topic => Db.putTopic topic d) d l.

Definition putAllWords (l : list WordEntry) (d : Db.Store) : Db.Store :=
  foldl (fun d word => Db.putWord word d) d l.

(** [Array.from(map.values())] of a [Map] built from [imported] and then
    [set] with every element of [existing]: a key keeps the place of its
    first insertion and takes the value of its last. *)
Fixpoint map_set {K V} `{EqDecision K} (k : K) (v : V) (m : list (K * V))
  : list (K * V) :=
  match m with
  | [] => [(k, v)]
  | (k', v') :: m' =>
      if decide (k' = k) then (k, v) :: m' else (k', v') :: map_set k v m'
  end.

Definition mergeById {K V} `{EqDecision K} (key : V -> K)
    (imported existing : list V) : list V :=
  (foldl (fun m v => map_set (key v) v m) [] (imported ++ existing)).*2.

(** The document that [handleExport] writes, and what [JSON.parse] reads
    back from it. *)
Definition exportData (s : AppState) : AppData :=
  {| schemaVersion := SCHEMA_VERSION;
     data_topics := topics s;
     data_words := words s |}.

Definition parseExport (data : AppData) : option Parsed :=
  Some {| parsed_schemaVersion := schemaVersion data;
          parsed_topics := Some (data_topics data);
          parsed_words := Some (data_words data) |}.

Definition handleImport (parsed : option Parsed) (render : AppState)
  : AppState :=
  match parsed with
  | None => notify "Invalid schema." render
  | Some p =>
      match parsed_topics p, parsed_words p with
      | Some ptopics, Some pwords =>
          if negb (parsed_schemaVersion p =? SCHEMA_VERSION) then
            notify "Schema version mismatch. Only v1 supported." render
          else
            let s := render in
            match importMode render with
            | import_replace =>
                let s := set_db (Db.clearAll (db s)) s in
                let s := set_db (putAllTopics ptopics (db s)) s in
                let s := set_db (putAllWords pwords (db s)) s in
                let s := setTopics ptopics s in
                let s := setWords pwords s in
                notify "Imported (replace)." s
            | import_merge =>
                let mergedTopics := mergeById topicId ptopics (topics render) in
                let mergedWords := mergeById id pwords (words render) in
                let s := set_db (putAllTopics mergedTopics (db s)) s in
                let s := set_db (putAllWords mergedWords (db s)) s in
                let s := setTopics mergedTopics s in
                let s := setWords mergedWords s in
                notify "Imported (merge)." s
            end
      | _, _ => notify "Invalid schema." render
      end
  end.

End App.

(** ** The rules of the specification, and the inputs of the examples *)

Module Spec.

(** The status rules as the specification words them: from the status
    before the rating, the rating, and the updated [reps] and
    [intervalDays]. *)
Definition statusRule (previous : WordStatus) (rating : Rating)
    (updatedReps updatedInterval : Z) : WordStatus :=
  if decide (previous = completed /\ rating = again) then in_progress
  else if decide (updatedReps >= 5 /\ updatedInterval >= 21) then completed
  else if decide (previous = status_new) then in_progress
  else previous.

(** How many items of a queue come from the bucket [o]. *)
Definition countOrigin (o : Origin) (queue : list App.SessionItem) : nat :=
  length (filter (fun item => App.origin item = o) queue).

(** What the selection keeps of a word: its identifier and its bucket. *)
Definition keyOf (item : App.SessionItem) : string * Origin :=
  (App.item_id item, App.origin item).

End Spec.

Module Examples.

Import Srs Utils App.

Definition fresh (wid : string) : WordEntry := createWord wid 0 "t1".

(** A word whose ease is below the floor, as an imported file can hold. *)
Definition low_ease_word : WordEntry := set_ease 1 (fresh "w1").

Definition third_review_word : WordEntry :=
  set_intervalDays 3 (set_ease 2 (set_reps 2 (fresh "w1"))).

Definition topic1 : Topic :=
  {| topicId := "t1"; name := "Travel"; topic_createdAt := 0 |}.

(** The component over a database that holds one topic and one new word. *)
Definition one_word_app : AppState :=
  initialState (Db.putWord (fresh "w1") (Db.putTopic topic1 Db.empty))
    [topic1] [fresh "w1"] 0.

Definition zero_draw : Draw :=
  {| draw_significand := 0; draw_scale := 0 |}.

Definition start_env : StartEnv :=
  {| start_newDate := 1000;
     start_emptyStatsNow := 1000;
     start_dateNow := 1000;
     start_random := fun _ => zero_draw |}.

Definition rating_env (t : Z) : RatingEnv :=
  {| rating_newDate := t;
     rating_postponeNow := t;
     rating_postponeIso := t;
     rating_finishNow := t;
     rating_random := zero_draw |}.

(** A session of one word, started and then rated "good": the queue is
    exhausted and [finishedAt] is set. *)
Definition started_session : AppState := handleStartSession start_env one_word_app.

Definition exhausted_session : AppState :=
  handleRating good None (rating_env 2000) started_session.

(** A word whose identifier is the name of a property that every plain
    object inherits, as an imported file can hold it, and the session of
    that one word. *)
Definition inherited_word : WordEntry := fresh "constructor".

Definition inherited_session : AppState :=
  handleStartSession start_env
    (initialState (Db.putWord inherited_word (Db.putTopic topic1 Db.empty))
       [topic1] [inherited_word] 0).

(** The same session ended by its timeout instead. *)
Definition timed_out_session : AppState :=
  sessionTimeout 1%positive 601000 started_session.

(** Two words that share an identifier, as the list of the component holds
    them after a file with a repeated identifier is imported with the
    replace policy: one in progress and due, one completed and not due. *)
Definition twin_pool : list WordEntry :=
  [ set_status in_progress (fresh "a");
    set_dueAt (Some 5000) (set_status completed (fresh "a")) ].

Definition config_of_size (n : Z) : SessionConfig :=
  {| size := n; mode := mixed; cfg_topicId := all_topics; cfg_tags := [] |}.

(** A pool of 6 due, 10 in-progress and 20 new words, at the instant 1000. *)
Definition due_word (n : nat) : WordEntry :=
  set_dueAt (Some (Z.of_nat n))
    (set_status in_progress (fresh ("due" +:+ pretty n))).

Definition in_progress_word (n : nat) : WordEntry :=
  set_dueAt (Some (5000 + Z.of_nat n))
    (set_wrongCount (Z.of_nat n)
       (set_status in_progress (fresh ("prog" +:+ pretty n)))).

Definition new_word (n : nat) : WordEntry := fresh ("new" +:+ pretty n).

Definition pool36 : list WordEntry :=
  (due_word <$> seq 0 6) ++ (in_progress_word <$> seq 0 10)
  ++ (new_word <$> seq 0 20).

Definition varied_draws : RandomSource :=
  fun k => {| draw_significand := N.of_nat k * 1125899906842597;
              draw_scale := 0 |}.

Definition snapshot1 : Parsed :=
  {| parsed_schemaVersion := 1;
     parsed_topics := Some [topic1];
     parsed_words := Some [fresh "w1"; third_review_word] |}.

End Examples.

(** ** App.tsx: the topic and word forms, and the events of the component *)

Module Manage.

Import Srs Utils App.

#[global] Instance TopicFilter_eq_dec : EqDecision TopicFilter.
Proof. solve_decision. Defined.

Definition set_tags (v : list string) (w : WordEntry) : WordEntry :=
  let 'Build_WordEntry a b c d e f g _ i j k l m n o p q r s t := w in
  Build_WordEntry a b c d e f g v i j k l m n o p q r s t.

(** The state of the component that [AppState] leaves out. *)
Record FormState := {
  topicName : string;
  selectedTopicId : TopicFilter;
  selectedTags : list string;
  searchQuery : string;
  wordDraft : option WordEntry;
  editingWordId : option string;
  lenient : bool;
}.

Record Component := {
  app : AppState;
  form : FormState;
}.

Definition on_app (f : AppState -> AppState) (c : Component) : Component :=
  {| app := f (app c); form := form c |}.

Definition on_form (f : FormState -> FormState) (c : Component) : Component :=
  {| app := app c; form := f (form c) |}.

Definition setTopicName (v : string) (f : FormState) : FormState :=
  let 'Build_FormState _ b c d e g h := f in Build_FormState v b c d e g h.
Definition setSelectedTopicId (v : TopicFilter) (f : FormState) : FormState :=
  let 'Build_FormState a _ c d e g h := f in Build_FormState a v c d e g h.
Definition setWordDraft (v : option WordEntry) (f : FormState) : FormState :=
  let 'Build_FormState a b c d _ g h := f in Build_FormState a b c d v g h.
Definition setEditingWordId (v : option string) (f : FormState) : FormState :=
  let 'Build_FormState a b c d e _ h := f in Build_FormState a b c d e v h.

Definition initialForm : FormState :=
  {| topicName := "";
     selectedTopicId := all_topics;
     selectedTags := [];
     searchQuery := "";
     wordDraft := None;
     editingWordId := None;
     lenient := true |}.

Section Handlers.

(** [String.prototype.trim] is a parameter: the handlers only test its
    result for emptiness and store it. *)
Variable trim : string -> string.

(** utils.ts: [createTopic], with the identifier and the clock reading it
    takes, and [addUnique]. *)
Definition createTopic (uid : string) (nowIso : Z) (topicName : string)
  : Topic :=
  {| topicId := uid; name := trim topicName; topic_createdAt := nowIso |}.

Definition addUnique (items : list string) (value : string) : list string :=
  let clean := trim value in
  if bool_decide (clean = "") then items
  else if bool_decide (clean ∈ items) then items
  else items ++ [clean].

(** The identifiers and clock readings of [handleAddTopic]: those of
    [createTopic] and those of [createWord]. *)
Record AddTopicEnv := {
  topic_uid : string;
  topic_nowIso : Z;
  draft_uid : string;
  draft_nowIso : Z;
}.

Definition handleAddTopic (env : AddTopicEnv) (render : Component)
  : Component :=
  if bool_decide (trim (topicName (form render)) = "") then render
  else
    let topic :=
      createTopic (topic_uid env) (topic_nowIso env)
        (topicName (form render)) in
    let c := render in
    let c := on_app (fun s => set_db (Db.putTopic topic (db s)) s) c in
    let c := on_app (fun s => setTopics (topics s ++ [topic]) s) c in
    let c := on_form (setTopicName "") c in
    match wordDraft (form render) with
    | None =>
        on_form (setWordDraft
                   (Some (createWord (draft_uid env) (draft_nowIso env)
                            (topicId topic)))) c
    | Some _ => c
    end.

Definition handleDeleteTopic (confirm : bool) (tid : string)
    (render : Component) : Component :=
  if negb confirm then render
  else
    let c := render in
    let c := on_app (fun s => set_db (Db.deleteTopic tid (db s)) s) c in
    let c :=
      on_app (fun s =>
                setTopics (filter (fun t => topicId t <> tid) (topics s)) s)
        c in
    let c :=
      on_app (fun s =>
                setWords (filter (fun w => word_topicId w <> tid) (words s)) s)
        c in
    if bool_decide (selectedTopicId (form render) = topic_is tid)
    then on_form (setSelectedTopicId all_topics) c
    else c.

(** The clock reading of [draft.updatedAt] and what [createWord] takes for
    the next draft. [createdAt] is an instant here, never the empty string,
    so the assignment that fills an empty [createdAt] has no case. *)
Record SaveWordEnv := {
  save_nowIso : Z;
  next_uid : string;
  next_nowIso : Z;
}.

Definition handleSaveWord (env : SaveWordEnv) (render : Component)
  : Component :=
  match wordDraft (form render) with
  | None => render
  | Some wordDraft =>
      if bool_decide (word_topicId wordDraft = "") then render
      else if bool_decide (trim (wordOrPhrase wordDraft) = "")
              || bool_decide (trim (meaningEn wordDraft) = "")
      then on_app (notify "Word and meaning are required.") render
      else
        let draft := wordDraft in
        let draft := set_updatedAt (save_nowIso env) draft in
        let c := render in
        let c := on_app (fun s => set_db (Db.putWord draft (db s)) s) c in
        let c :=
          on_app (fun s =>
                    let prev := words s in
                    let exists_ :=
                      existsb (fun w => bool_decide (id w = id draft)) prev in
                    setWords
                      (if exists_
                       then map (fun w => if bool_decide (id w = id draft)
                                          then draft else w) prev
                       else prev ++ [draft]) s) c in
        let c := on_form (setEditingWordId None) c in
        let c :=
          on_form (setWordDraft
                     (Some (createWord (next_uid env) (next_nowIso env)
                              (word_topicId draft)))) c in
        on_app (notify "Saved.") c
  end.

Definition handleEditWord (word : WordEntry) (render : Component)
  : Component :=
  let c := on_form (setEditingWordId (Some (id word))) render in
  on_form (setWordDraft (Some word)) c.

Definition handleDeleteWord (confirm : bool) (wid : string)
    (render : Component) : Component :=
  if negb confirm then render
  else
    let c := on_app (fun s => set_db (Db.deleteWord wid (db s)) s) render in
    on_app (fun s => setWords (filter (fun w => id w <> wid) (words s)) s) c.

Definition handleAddTag (value : string) (render : Component) : Component :=
  match wordDraft (form render) with
  | None => render
  | Some wordDraft =>
      let updated := set_tags (addUnique (tags wordDraft) value) wordDraft in
      on_form (setWordDraft (Some updated)) render
  end.

Definition handleRemoveTag (tag : string) (render : Component) : Component :=
  match wordDraft (form render) with
  | None => render
  | Some wordDraft =>
      let updated :=
        set_tags (filter (fun t => t <> tag) (tags wordDraft)) wordDraft in
      on_form (setWordDraft (Some updated)) render
  end.

(** What can happen to the component: its handlers, the timeout of a
    session, and the controls that set a piece of state directly (any
    change of the form state stands for the inputs of the forms). *)
Inductive Event :=
| StartSession (env : StartEnv)
| Rate (rating : Rating) (manualAnswer : option string) (env : RatingEnv)
| Timeout (tid : positive) (dateNow : Z)
| Import (parsed : option Parsed)
| AddTopic (env : AddTopicEnv)
| DeleteTopic (confirm : bool) (tid : string)
| SaveWord (env : SaveWordEnv)
| EditWord (word : WordEntry)
| DeleteWord (confirm : bool) (wid : string)
| AddTag (value : string)
| RemoveTag (tag : string)
| ChangeForm (f : FormState -> FormState)
| ChangeView (v : View)
| ChangeConfig (config : SessionConfig)
| ChangeImportMode (m : ImportMode).

Definition step (e : Event) (c : Component) : Component :=
  match e with
  | StartSession env => on_app (handleStartSession env) c
  | Rate rating manualAnswer env =>
      on_app (handleRating rating manualAnswer env) c
  | Timeout tid dateNow => on_app (sessionTimeout tid dateNow) c
  | Import parsed => on_app (handleImport parsed) c
  | AddTopic env => handleAddTopic env c
  | DeleteTopic confirm tid => handleDeleteTopic confirm tid c
  | SaveWord env => handleSaveWord env c
  | EditWord word => handleEditWord word c
  | DeleteWord confirm wid => handleDeleteWord confirm wid c
  | AddTag value => handleAddTag value c
  | RemoveTag tag => handleRemoveTag tag c
  | ChangeForm f => on_form f c
  | ChangeView v => on_app (setView v) c
  | ChangeConfig config => on_app (setSessionConfig config) c
  | ChangeImportMode m => on_app (setImportMode m) c
  end.

Definition steps (events : list Event) (c : Component) : Component :=
  foldl (fun c e => step e c) c events.

End Handlers.

(** The component when the database [d] has been loaded. *)
Definition initialComponent (d : Db.Store) (loadedTopics : list Topic)
    (loadedWords : list WordEntry) (dateNow : Z) : Component :=
  {| app := initialState d loadedTopics loadedWords dateNow;
     form := initialForm |}.

End Manage.

(** ** Invariants of the data and of the component *)

Module Inv.

Import Srs App.

(** What holds of a word that [createWord] made and [applyRating] rated:
    the ease is at least the floor, the counters are not negative, and a
    word with a repetition has an interval of at least a day. *)
Definition scheduled (w : WordEntry) : Prop :=
  (MIN_EASE <= ease w)%Q /\ 0 <= reps w /\ 0 <= lapses w /\
  0 <= intervalDays w /\ (1 <= reps w -> 1 <= intervalDays w).

(** The store that a list of words gives when each is put in turn, and the
    same for topics. *)
Definition storeBy {V} (key : V -> string) (l : list V) : gmap string V :=
  foldl (fun m v => <[key v := v]> m) ∅ l.

Definition storeOf (l : list WordEntry) : gmap string WordEntry :=
  storeBy id l.

Definition topicStoreOf (l : list Topic) : gmap string Topic :=
  storeBy topicId l.

(** The lists of the component and the database hold the same topics and
    words, and no two words of the list share an identifier. *)
Definition consistent (s : AppState) : Prop :=
  NoDup (id <$> words s) /\
  Db.words_store (db s) = storeOf (words s) /\
  Db.topics_store (db s) = topicStoreOf (topics s).

(** The counters of a session add up. *)
Definition accounted (st : SessionStats) : Prop :=
  answered st = correct st + stat_lapses st /\
  0 <= correct st /\ 0 <= stat_lapses st /\
  0 <= dueDone st <= answered st /\
  0 <= newIntroduced st <= answered st /\
  0 <= movedCompleted st <= answered st.

(** The only timeout that can be pending is the one [sessionTimerRef]
    holds, and the identifiers in use are below the next one. *)
Definition timersOwned (s : AppState) : Prop :=
  (forall tid, tid ∈ pendingTimeouts s -> sessionTimerRef s = Some tid) /\
  (forall tid, sessionTimerRef s = Some tid -> (tid < nextTimeoutId s)%positive).

(** Once a queue is there, the index points into it. *)
Definition indexInRange (s : AppState) : Prop :=
  sessionQueue s = [] \/ (sessionIndex s < length (sessionQueue s))%nat.

(** An association list as a [Map] keeps it: one entry for a key, under the
    key of its value; and the [set] of every element of a list in turn. *)
Definition keyed {V} (key : V -> string) (m : list (string * V)) : Prop :=
  NoDup m.*1 /\ Forall (fun kv => key kv.2 = kv.1) m.

Definition setAll {V} (key : V -> string) (l : list V)
    (m : list (string * V)) : list (string * V) :=
  foldl (fun m v => map_set (key v) v m) m l.

(** The part of the state that belongs to the session, and the part that
    holds the topics and words. *)
Definition sessionPart (s : AppState) :=
  (sessionQueue s, sessionIndex s, sessionStats s, sessionTimerRef s,
   pendingTimeouts s, nextTimeoutId s, sessionAttempts s, sessionSeen s).

Definition dataPart (s : AppState) := (db s, topics s, words s).

Definition sessionEvent (e : Manage.Event) : bool :=
  match e with
  | Manage.StartSession _ | Manage.Rate _ _ _ | Manage.Timeout _ _ => true
  | _ => false
  end.

Definition dataEvent (e : Manage.Event) : bool :=
  match e with
  | Manage.Rate _ _ _ | Manage.Import _ | Manage.AddTopic _
  | Manage.DeleteTopic _ _ | Manage.SaveWord _ | Manage.DeleteWord _ _ => true
  | _ => false
  end.

(** An import event whose snapshot, if the replace policy takes it, holds
    no two words of one identifier. *)
Definition distinctImport (s : AppState) (e : Manage.Event) : Prop :=
  match e with
  | Manage.Import (Some p) =>
      importMode s = import_replace ->
      match parsed_words p with
      | Some pwords => NoDup (id <$> pwords)
      | None => True
      end
  | _ => True
  end.

(** Every import of a sequence of events is one of distinct identifiers, at
    the state it comes in. *)
Fixpoint distinctImports (trim : string -> string)
    (events : list Manage.Event) (c : Manage.Component) : Prop :=
  match events with
  | [] => True
  | e :: rest =>
      distinctImport (Manage.app c) e
      /\ distinctImports trim rest (Manage.step trim e c)
  end.

End Inv.


(** ** App.tsx: the statistics of the whole list *)

Module Stats.

Import Srs App.

(** [byStatus], a record with one counter for each status. *)
Record StatusCounts := {
  count_new : Z;
  count_in_progress : Z;
  count_completed : Z;
}.

Record OverallStats := {
  byStatus : StatusCounts;
  dueToday : Z;
  dueWeek : Z;
  hardest : list WordEntry;
}.

(** The instants of [new Date(y, m, d + 1)] and [new Date(y, m, d + 7)] for
    the local date of the clock reading. *)
Record StatsEnv := {
  endOfToday : Z;
  endOfWeek : Z;
}.

(** [byStatus[word.status] += 1] *)
Definition bump (st : WordStatus) (c : StatusCounts) : StatusCounts :=
  match st with
  | status_new =>
      {| count_new := count_new c + 1;
         count_in_progress := count_in_progress c;
         count_completed := count_completed c |}
  | in_progress =>
      {| count_new := count_new c;
         count_in_progress := count_in_progress c + 1;
         count_completed := count_completed c |}
  | completed =>
      {| count_new := count_new c;
         count_in_progress := count_in_progress c;
         count_completed := count_completed c + 1 |}
  end.

(** The body of [words.forEach], on the three variables it updates. *)
Definition countWord (env : StatsEnv) (acc : StatusCounts * Z * Z)
    (word : WordEntry) : StatusCounts * Z * Z :=
  let '(byStatus, dueToday, dueWeek) := acc in
  let byStatus := bump (status word) byStatus in
  match dueAt word with
  | Some due =>
      let dueToday :=
        if due <=? endOfToday env then dueToday + 1 else dueToday in
      let dueWeek :=
        if due <=? endOfWeek env then dueWeek + 1 else dueWeek in
      (byStatus, dueToday, dueWeek)
  | None => (byStatus, dueToday, dueWeek)
  end.

Definition buildOverallStats (env : StatsEnv) (words : list WordEntry)
  : OverallStats :=
  let byStatus :=
    {| count_new := 0; count_in_progress := 0; count_completed := 0 |} in
  let '(byStatus, dueToday, dueWeek) :=
    foldl (countWord env) (byStatus, 0, 0) words in
  let hardest :=
    slice0
      (Array_sort
         (fun a b => (lapses b + wrongCount b) - (lapses a + wrongCount a))
         words) 8 in
  {| byStatus := byStatus; dueToday := dueToday; dueWeek := dueWeek;
     hardest := hardest |}.

End Stats.

(** * Properties of the numbers *)

Section DoubleArithmetic.

Import Number.

Local Open Scope Q_scope.

Lemma pow2_pos (e : Z) : 0 < pow2 e.
Proof. unfold pow2. apply Qpower_0_lt. reflexivity. Qed.

Lemma pow2_plus (a b : Z) : pow2 (a + b) == pow2 a * pow2 b.
Proof. unfold pow2. apply Qpower_plus. discriminate. Qed.

Lemma pow2_nat (a : Z) : (0 <= a)%Z -> pow2 a == inject_Z (2 ^ a).
Proof. intros Ha. unfold pow2. symmetry. apply (Zpower_Qpower 2 a Ha). Qed.

Lemma round_even_error (y : Q) :
  Qabs (inject_Z (round_even y) - y) <= 1 # 2.
Proof.
  unfold round_even.
  pose proof (Qfloor_le y) as Hlo. pose proof (Qlt_floor y) as Hhi.
  rewrite inject_Z_plus in Hhi. change (inject_Z 1) with 1 in Hhi.
  apply Qabs_Qle_condition.
  destruct (y - inject_Z (Qfloor y) ?= 1 # 2) eqn:Hc.
  - apply Qeq_alt in Hc.
    destruct (Z.even (Qfloor y)); rewrite ?inject_Z_plus;
      change (inject_Z 1) with 1; split; lra.
  - apply Qlt_alt in Hc. split; lra.
  - apply Qgt_alt in Hc. rewrite inject_Z_plus.
    change (inject_Z 1) with 1. split; lra.
Qed.

Lemma round_even_nonneg (y : Q) : 0 <= y -> (0 <= round_even y)%Z.
Proof.
  intros Hy. unfold round_even.
  assert (Hf : (0 <= Qfloor y)%Z).
  { change 0%Z with (Qfloor 0). by apply Qfloor_resp_le. }
  destruct (_ ?= _); [destruct (Z.even _) | |]; lia.
Qed.

Lemma magnitude_lower (x : Q) : ~ x == 0 -> pow2 (magnitude x) <= Qabs x.
Proof.
  intros Hx. unfold magnitude.
  destruct (Qle_bool _ _) eqn:Hb; [by apply Qle_bool_iff |].
  clear Hb. destruct x as [n d].
  assert (Hn : (0 < Z.abs n)%Z).
  { destruct (Z.eq_dec n 0%Z) as [-> | Hne]; [| lia].
    exfalso. apply Hx. reflexivity. }
  cbn [Qnum Qden].
  set (a := Z.log2 (Z.abs n)). set (b := Z.log2 (Z.pos d)).
  assert (Ha : (0 <= a)%Z) by apply Z.log2_nonneg.
  assert (Hb : (0 <= b)%Z) by apply Z.log2_nonneg.
  destruct (Z.log2_spec (Z.abs n) Hn) as [Hna _]. fold a in Hna.
  destruct (Z.log2_spec (Z.pos d) ltac:(lia)) as [_ Hdb]. fold b in Hdb.
  rewrite <- Zabs_Qabs.
  replace (a - b - 1)%Z with (a + - (b + 1))%Z by lia.
  rewrite pow2_plus. unfold pow2 at 2. rewrite Qpower_opp.
  fold (pow2 (b + 1)). rewrite !pow2_nat by lia.
  assert (Hd := pow2_pos (b + 1)). rewrite pow2_nat in Hd by lia.
  rewrite (Qmake_Qdiv (Z.abs n) d).
  apply Qle_shift_div_l; [reflexivity |].
  assert (H1 : inject_Z (2 ^ a) <= inject_Z (Z.abs n))
    by (by rewrite <- Zle_Qle).
  assert (H2 : inject_Z (Z.pos d) <= inject_Z (2 ^ (b + 1))).
  { rewrite <- Zle_Qle. unfold Z.succ in Hdb. lia. }
  assert (H0 : 0 <= inject_Z (2 ^ a)).
  { change 0 with (inject_Z 0). rewrite <- Zle_Qle. lia. }
  set (A := inject_Z (2 ^ a)) in *. set (P := inject_Z (2 ^ (b + 1))) in *.
  set (D := inject_Z (Z.pos d)) in *.
  apply Qle_trans with A; [| exact H1].
  apply Qle_trans with (A * / P * P).
  - rewrite !(Qmult_comm (A * / P)). apply Qmult_le_compat_r; [exact H2 |].
    apply Qmult_le_0_compat; [exact H0 |].
    apply Qlt_le_weak, Qinv_lt_0_compat, Hd.
  - assert (HP : ~ P == 0) by (intros HP; rewrite HP in Hd; inversion Hd).
    assert (E : A * / P * P == A) by (field; exact HP).
    rewrite E. apply Qle_refl.
Qed.

Lemma quantum_bound (x : Q) :
  ~ x == 0 -> pow2 (quantum x) * (1 # 2) <= Qabs x * eps + tiny.
Proof.
  intros Hx. unfold quantum.
  assert (Ht : 0 <= tiny) by apply Qlt_le_weak, pow2_pos.
  assert (He : 0 <= Qabs x * eps).
  { apply Qmult_le_0_compat; [apply Qabs_nonneg |].
    apply Qlt_le_weak, pow2_pos. }
  destruct (Z.max_spec (magnitude x - 52) (-1074)) as [[_ ->] | [_ ->]].
  - assert (E : pow2 (-1074) * (1 # 2) == tiny) by reflexivity.
    rewrite E. lra.
  - replace (magnitude x - 52)%Z with (magnitude x + -52)%Z by lia.
    rewrite pow2_plus.
    assert (E : pow2 (-52) * (1 # 2) == eps) by reflexivity.
    rewrite <- Qmult_assoc, E.
    apply Qle_trans with (Qabs x * eps); [| lra].
    apply Qmult_le_compat_r; [by apply magnitude_lower |].
    apply Qlt_le_weak, pow2_pos.
Qed.

(** A result differs from the exact value by half a unit in the last
    place at most. *)
Lemma double_error (x : Q) : Qabs (double x - x) <= Qabs x * eps + tiny.
Proof.
  unfold double. destruct (Qeq_bool x 0) eqn:Hz.
  - apply Qeq_bool_iff in Hz. rewrite Hz. by vm_compute.
  - assert (Hx : ~ x == 0) by (by apply Qeq_bool_neq).
    rewrite Qred_correct.
    set (u := pow2 (quantum x)).
    assert (Hu : 0 < u) by apply pow2_pos.
    assert (Hu0 : ~ u == 0) by (intros E; rewrite E in Hu; inversion Hu).
    assert (E : inject_Z (round_even (x / u)) * u - x
                == (inject_Z (round_even (x / u)) - x / u) * u)
      by (field; exact Hu0).
    rewrite E, Qabs_Qmult, (Qabs_pos u) by by apply Qlt_le_weak.
    apply Qle_trans with ((1 # 2) * u).
    + apply Qmult_le_compat_r; [apply round_even_error |].
      by apply Qlt_le_weak.
    + rewrite Qmult_comm. by apply quantum_bound.
Qed.

Lemma double_nonneg (x : Q) : 0 <= x -> 0 <= double x.
Proof.
  intros Hx. unfold double. destruct (Qeq_bool x 0); [apply Qle_refl |].
  rewrite Qred_correct.
  apply Qmult_le_0_compat; [| apply Qlt_le_weak, pow2_pos].
  change 0 with (inject_Z 0). rewrite <- Zle_Qle.
  apply round_even_nonneg. apply Qle_shift_div_l; [apply pow2_pos |].
  by rewrite Qmult_0_l.
Qed.

Lemma double_lower (x : Q) : 0 <= x -> x * (1 - eps) - tiny <= double x.
Proof.
  intros Hx. pose proof (double_error x) as H.
  rewrite (Qabs_pos x) in H by done.
  apply Qabs_diff_Qle_condition in H. lra.
Qed.

Lemma double_upper (x : Q) : 0 <= x -> double x <= x * (1 + eps) + tiny.
Proof.
  intros Hx. pose proof (double_error x) as H.
  rewrite (Qabs_pos x) in H by done.
  apply Qabs_diff_Qle_condition in H. lra.
Qed.

(** The two bounds in round numbers, for values that are not negative. *)
Lemma eps_tiny_small : eps <= 1 # 1000000000 /\ 0 <= tiny <= 1 # 1000000000.
Proof. repeat split; unfold Qle; by vm_compute. Qed.

Lemma double_lower_coarse (x : Q) :
  0 <= x -> x * (999999 # 1000000) - (1 # 1000000) <= double x.
Proof.
  intros Hx. pose proof (double_lower x Hx) as H.
  destruct eps_tiny_small as (He & Ht0 & Ht).
  assert (Hxe : x * eps <= x * (1 # 1000000000))
    by (rewrite !(Qmult_comm x); by apply Qmult_le_compat_r).
  lra.
Qed.

Lemma double_upper_coarse (x : Q) :
  0 <= x -> double x <= x * (1000001 # 1000000) + (1 # 1000000).
Proof.
  intros Hx. pose proof (double_upper x Hx) as H.
  destruct eps_tiny_small as (He & Ht0 & Ht).
  assert (Hxe : x * eps <= x * (1 # 1000000000))
    by (rewrite !(Qmult_comm x); by apply Qmult_le_compat_r).
  lra.
Qed.

(** A product with a factor of [1 - eps] at most stays below the other
    factor when that is 1 or more: the reason why
    [Math.floor(Math.random() * n)] is an index below [n]. *)
Lemma double_below (y n : Q) :
  1 <= n -> 0 <= y <= n * (1 - eps) -> double y < n.
Proof.
  intros Hn [Hy0 Hy].
  pose proof (double_upper y Hy0) as H.
  assert (He : 0 <= eps) by apply Qlt_le_weak, pow2_pos.
  assert (He1 : 0 <= 1 + eps) by lra.
  assert (Hsq : tiny < eps * eps) by (unfold Qlt; by vm_compute).
  assert (Hy' : y * (1 + eps) <= n * (1 - eps) * (1 + eps))
    by (by apply Qmult_le_compat_r).
  assert (Hn' : 1 * (eps * eps) <= n * (eps * eps)).
  { apply Qmult_le_compat_r; [exact Hn |]. by apply Qmult_le_0_compat. }
  assert (E : n * (1 - eps) * (1 + eps) == n - n * (eps * eps)) by ring.
  rewrite E in Hy'. lra.
Qed.

Lemma pow2_le (a b : Z) : (a <= b)%Z -> pow2 a <= pow2 b.
Proof. intros H. unfold pow2. by apply Qpower_le_compat_l. Qed.

Lemma pow2_lt_inv (a b : Z) : pow2 a < pow2 b -> (a < b)%Z.
Proof. intros H. by apply (Qpower_lt_compat_l_inv 2). Qed.

Lemma magnitude_upper (x : Q) : ~ x == 0 -> Qabs x < pow2 (magnitude x + 1).
Proof.
  intros Hx. unfold magnitude.
  destruct (Qle_bool _ _) eqn:Hb.
  2:{ replace (_ - 1 + 1)%Z
        with (Z.log2 (Z.abs (Qnum x)) - Z.log2 (Z.pos (Qden x)))%Z by lia.
      apply Qnot_le_lt. intros H. apply Qle_bool_iff in H. congruence. }
  clear Hb. destruct x as [n d].
  assert (Hn : (0 < Z.abs n)%Z).
  { destruct (Z.eq_dec n 0%Z) as [-> | Hne]; [| lia].
    exfalso. apply Hx. reflexivity. }
  cbn [Qnum Qden].
  set (a := Z.log2 (Z.abs n)). set (b := Z.log2 (Z.pos d)).
  assert (Ha : (0 <= a)%Z) by apply Z.log2_nonneg.
  assert (Hb : (0 <= b)%Z) by apply Z.log2_nonneg.
  destruct (Z.log2_spec (Z.abs n) Hn) as [_ Hna]. fold a in Hna.
  destruct (Z.log2_spec (Z.pos d) ltac:(lia)) as [Hdb _]. fold b in Hdb.
  rewrite <- Zabs_Qabs.
  replace (a - b + 1)%Z with ((a + 1) + - b)%Z by lia.
  rewrite pow2_plus. unfold pow2 at 2. rewrite Qpower_opp.
  fold (pow2 b). rewrite !pow2_nat by lia.
  assert (Hd := pow2_pos b). rewrite pow2_nat in Hd by lia.
  rewrite (Qmake_Qdiv (Z.abs n) d).
  apply Qlt_shift_div_r; [reflexivity |].
  assert (H1 : inject_Z (Z.abs n) < inject_Z (2 ^ (a + 1)))
    by (rewrite <- Zlt_Qlt; unfold Z.succ in Hna; lia).
  assert (H2 : inject_Z (2 ^ b) <= inject_Z (Z.pos d))
    by (by rewrite <- Zle_Qle).
  set (A := inject_Z (2 ^ (a + 1))) in *. set (P := inject_Z (2 ^ b)) in *.
  set (D := inject_Z (Z.pos d)) in *.
  assert (HA : 0 < A) by (eapply Qle_lt_trans; [| exact H1];
                          change 0 with (inject_Z 0); rewrite <- Zle_Qle; lia).
  apply Qlt_le_trans with A; [exact H1 |].
  apply Qle_trans with (A * / P * P).
  - assert (HP : ~ P == 0) by (intros HP; rewrite HP in Hd; inversion Hd).
    assert (E : A * / P * P == A) by (field; exact HP).
    rewrite E. apply Qle_refl.
  - rewrite !(Qmult_comm (A * / P)). apply Qmult_le_compat_r; [exact H2 |].
    apply Qmult_le_0_compat; [by apply Qlt_le_weak |].
    apply Qlt_le_weak, Qinv_lt_0_compat, Hd.
Qed.

Lemma round_even_ge_int (x : Q) (k : Z) :
  inject_Z k <= x -> (k <= round_even x)%Z.
Proof.
  intros H. unfold round_even.
  assert (Hf : (k <= Qfloor x)%Z)
    by (rewrite <- (Qfloor_Z k); by apply Qfloor_resp_le).
  destruct (_ ?= _); [destruct (Z.even _) | |]; lia.
Qed.

Lemma double_unfold (x : Q) :
  ~ x == 0 ->
  double x == inject_Z (round_even (x / pow2 (quantum x))) * pow2 (quantum x).
Proof.
  intros Hx. unfold double.
  destruct (Qeq_bool x 0) eqn:Hz; [by apply Qeq_bool_iff in Hz |].
  apply Qred_correct.
Qed.

(** Rounding does not go below a double that the exact value reaches. *)
Lemma double_above_exact (d y : Q) :
  0 <= d -> double d == d -> d <= y -> d <= double y.
Proof.
  intros Hd0 Hd Hy.
  destruct (Qeq_dec d 0) as [Hz | Hz].
  { rewrite Hz. apply double_nonneg. lra. }
  assert (Hdpos : 0 < d).
  { destruct (Qlt_le_dec 0 d) as [H | H]; [exact H |].
    exfalso. apply Hz. lra. }
  assert (Hypos : 0 < y) by lra.
  assert (Hyz : ~ y == 0) by (intros E; rewrite E in Hypos; inversion Hypos).
  pose proof (magnitude_lower d Hz) as Hdl.
  pose proof (magnitude_upper d Hz) as Hdu.
  pose proof (magnitude_lower y Hyz) as Hyl.
  pose proof (magnitude_upper y Hyz) as Hyu.
  rewrite (Qabs_pos d) in Hdl, Hdu by lra.
  rewrite (Qabs_pos y) in Hyl, Hyu by lra.
  assert (Hmag : (magnitude d <= magnitude y)%Z).
  { assert (H : pow2 (magnitude d) < pow2 (magnitude y + 1)) by lra.
    apply pow2_lt_inv in H. lia. }
  rewrite (double_unfold y Hyz).
  rewrite (double_unfold d Hz) in Hd.
  set (ud := pow2 (quantum d)) in *. set (uy := pow2 (quantum y)) in *.
  assert (Hud : 0 < ud) by apply pow2_pos.
  assert (Huy : 0 < uy) by apply pow2_pos.
  destruct (Z.eq_dec (quantum d) (quantum y)) as [Heq | Hne].
  - unfold uy. rewrite <- Heq. fold ud.
    apply Qle_trans
      with (inject_Z (round_even (d / ud)) * ud); [rewrite Hd; apply Qle_refl |].
    apply Qmult_le_compat_r; [| by apply Qlt_le_weak].
    rewrite <- Zle_Qle. apply round_even_ge_int.
    apply Qle_shift_div_l; [exact Hud |]. rewrite Hd. lra.
  - assert (Hq : (quantum y = magnitude y - 52)%Z
                 /\ (magnitude d + 1 <= magnitude y)%Z)
      by (unfold quantum in *; lia).
    destruct Hq as [Hq Hm].
    assert (Hstep : pow2 (magnitude d + 1) <= pow2 (magnitude y))
      by (by apply pow2_le).
    apply Qle_trans with (pow2 (magnitude y)); [lra |].
    assert (E : pow2 (magnitude y) == inject_Z (2 ^ 52) * uy).
    { subst uy. rewrite Hq, <- (pow2_nat 52) by lia.
      rewrite <- pow2_plus. by replace (52 + (magnitude y - 52))%Z
                                with (magnitude y) by lia. }
    rewrite E.
    apply Qmult_le_compat_r; [| by apply Qlt_le_weak].
    rewrite <- Zle_Qle. apply round_even_ge_int.
    apply Qle_shift_div_l; [exact Huy |]. rewrite <- E. exact Hyl.
Qed.

(** An integer that a double holds stays as it is or grows when it is
    multiplied by a factor of 1 or more. *)
Lemma double_mul_ge (a e : Q) :
  0 <= a -> double a == a -> 1 <= e -> a <= double (a * e).
Proof.
  intros Ha Hd He. apply double_above_exact; [exact Ha | exact Hd |].
  assert (H : 0 <= a * (e - 1)) by (apply Qmult_le_0_compat; lra).
  lra.
Qed.

(** A product with a factor above 1 by a thousandth or more is not below
    the other factor, rounded or not, when that is 1 or more. *)
Lemma double_mul_grows (a c : Q) :
  1 <= a -> 1001 # 1000 <= c -> a <= double (a * c).
Proof.
  intros Ha Hc.
  assert (Hac : a * (1001 # 1000) <= a * c).
  { rewrite !(Qmult_comm a). apply Qmult_le_compat_r; lra. }
  assert (H0 : 0 <= a * c) by lra.
  pose proof (double_lower_coarse (a * c) H0). lra.
Qed.

End DoubleArithmetic.

(** * Properties of the rating engine *)

Section RatingEngine.

Import Number Srs.

Lemma ease_rate_again now w :
  ease (rate_again now w) = Qmax MIN_EASE (sub (ease w) (double (2 # 10))).
Proof. by destruct w. Qed.

Lemma ease_rate_hard now w :
  ease (rate_hard now w) = Qmax MIN_EASE (sub (ease w) (double (5 # 100))).
Proof. by destruct w. Qed.

Lemma ease_rate_good now w : ease (rate_good now w) = ease w.
Proof.
  unfold rate_good. destruct w as [? ? ? ? ? ? ? ? ? ? ? ? iv e r ? ? ? ? ?].
  cbn [reps]. by destruct (r =? 0), (r =? 1).
Qed.

Lemma ease_rate_easy now w :
  ease (rate_easy now w) = add (ease w) (double (1 # 10)).
Proof. by destruct w. Qed.

Lemma ease_applyRating w r t :
  ease (applyRating w r t) =
  match r with
  | again => Qmax MIN_EASE (sub (ease w) (double (2 # 10)))
  | hard => Qmax MIN_EASE (sub (ease w) (double (5 # 100)))
  | good => ease w
  | easy => add (ease w) (double (1 # 10))
  end.
Proof.
  unfold applyRating.
  destruct r; cbn [bool_decide decide_rel]; simpl bool_decide.
  all: match goal with
       | |- ease (set_status ?a (set_updatedAt ?b ?x)) = _ =>
           transitivity (ease x); [by destruct x |]
       end.
  - rewrite ease_rate_again. by destruct w.
  - rewrite ease_rate_hard. by destruct w.
  - rewrite ease_rate_good. by destruct w.
  - rewrite ease_rate_easy. by destruct w.
Qed.

Lemma fields_rate_again now w :
  reps (rate_again now w) = 0 /\ intervalDays (rate_again now w) = 0 /\
  lapses (rate_again now w) = lapses w + 1 /\
  dueAt (rate_again now w) = Some (now + 10 * 60 * 1000) /\
  lastReviewedAt (rate_again now w) = lastReviewedAt w /\
  status (rate_again now w) = status w.
Proof. by destruct w. Qed.

Lemma fields_rate_good now w :
  intervalDays (rate_good now w) =
    (if reps w =? 0 then 1
     else if reps w =? 1 then 3
     else Math_round (mul (inject_Z (intervalDays w)) (ease w))) /\
  dueAt (rate_good now w) = Some (addDays now (intervalDays (rate_good now w))) /\
  reps (rate_good now w) = reps w + 1 /\
  lastReviewedAt (rate_good now w) = lastReviewedAt w /\
  status (rate_good now w) = status w.
Proof.
  unfold rate_good. destruct w as [? ? ? ? ? ? ? ? ? ? ? ? iv e r ? ? ? ? ?].
  cbn [reps]. by destruct (r =? 0), (r =? 1).
Qed.

Lemma dueAt_rate_hard now w :
  dueAt (rate_hard now w) = Some (addDays now (intervalDays (rate_hard now w)))
  /\ status (rate_hard now w) = status w.
Proof. by destruct w. Qed.

Lemma dueAt_rate_easy now w :
  dueAt (rate_easy now w) = Some (addDays now (intervalDays (rate_easy now w)))
  /\ status (rate_easy now w) = status w.
Proof. by destruct w. Qed.

(** The last two assignments of [applyRating] touch [updatedAt] and
    [status] only. *)
Lemma finish_fields rating now x :
  let w' := set_status (resolveStatus (set_updatedAt now x) rating)
              (set_updatedAt now x) in
  reps w' = reps x /\ intervalDays w' = intervalDays x /\
  lapses w' = lapses x /\ ease w' = ease x /\ dueAt w' = dueAt x /\
  lastReviewedAt w' = lastReviewedAt x /\ updatedAt w' = now /\
  status w' =
    (if bool_decide (status x = completed) && bool_decide (rating = again)
     then in_progress
     else if (5 <=? reps x) && (21 <=? intervalDays x) then completed
     else if bool_decide (status x = status_new) then in_progress
     else status x).
Proof. by destruct x. Qed.

(** [applyRating] as one case distinction on the rating. *)
Lemma applyRating_unfold w r t :
  applyRating w r t =
  let x := match r with
           | again => rate_again t (set_lastReviewedAt (Some t) w)
           | hard => rate_hard t (set_lastReviewedAt (Some t) w)
           | good => rate_good t (set_lastReviewedAt (Some t) w)
           | easy => rate_easy t (set_lastReviewedAt (Some t) w)
           end in
  set_status (resolveStatus (set_updatedAt t x) r) (set_updatedAt t x).
Proof. by destruct r. Qed.

(** The literals of srs.ts between round bounds. *)
Lemma MIN_EASE_bounds : (13 # 10 <= MIN_EASE <= 1300001 # 1000000)%Q.
Proof. split; unfold Qle; by vm_compute. Qed.

Lemma literal_bounds :
  (999 # 10000 <= double (1 # 10))%Q /\
  (1199 # 1000 <= double (12 # 10))%Q /\
  (1299 # 1000 <= double (13 # 10))%Q.
Proof. repeat split; unfold Qle; by vm_compute. Qed.

(** "easy" on an ease at the floor or above stays there: the sum is
    rounded, by less than the 0.1 that is added. *)
Lemma ease_easy_floor (e : Q) :
  (MIN_EASE <= e)%Q -> (MIN_EASE <= add e (double (1 # 10)))%Q.
Proof.
  intros H. unfold add.
  destruct MIN_EASE_bounds as [Hlo Hhi].
  destruct literal_bounds as (Hc & _).
  set (c := double (1 # 10)) in *.
  assert (H0 : (0 <= e + c)%Q) by lra.
  pose proof (double_lower_coarse (e + c) H0). lra.
Qed.

Lemma ease_floor_preserved w r t :
  (MIN_EASE <= ease w)%Q -> (MIN_EASE <= ease (applyRating w r t))%Q.
Proof.
  intros H. rewrite ease_applyRating.
  destruct r;
    [apply Q.le_max_l | apply Q.le_max_l | exact H | by apply ease_easy_floor].
Qed.

(** C1, as the code has it: the floor of 1.3 on the ease is kept by every
    rating of a word whose ease is at least 1.3, and "again" and "hard"
    establish it whatever the ease was; "good" leaves the ease as it is and
    "easy" adds 0.1 to it without a floor. *)
Theorem applyRating_ease_floor (w : WordEntry) (r : Rating) (t : Z) :
  (MIN_EASE <= ease w)%Q \/ r = again \/ r = hard ->
  (MIN_EASE <= ease (applyRating w r t))%Q.
Proof.
  intros H. rewrite ease_applyRating.
  destruct r; [apply Q.le_max_l | apply Q.le_max_l | |].
  - destruct H as [H | [H | H]]; [exact H | discriminate H | discriminate H].
  - destruct H as [H | [H | H]]; [| discriminate H | discriminate H].
    by apply ease_easy_floor.
Qed.

Lemma applyRating_ease_floor_witness :
  (MIN_EASE <= ease (applyRating (Examples.fresh "w1") easy 1000))%Q.
Proof.
  apply (applyRating_ease_floor (Examples.fresh "w1") easy 1000).
  left. vm_compute. discriminate.
Defined.

(** C1 as the specification words it fails: "good" on a word whose ease is 1
    returns a word whose ease is still 1. *)
Lemma applyRating_ease_floor_counterexample :
  ~ (MIN_EASE <= ease (applyRating Examples.low_ease_word good 1000))%Q.
Proof. vm_compute. intros H. apply H. reflexivity. Qed.

(** C2: "again" resets [reps] and [intervalDays] to 0, counts one more lapse,
    lowers the ease by 0.2 down to the floor, schedules the word 10 minutes
    after [t], and stamps [lastReviewedAt] and [updatedAt] with [t], whatever
    the word was. The ease is [max(1.3, ease - 0.2)] as the doubles compute
    it: 1.3 and 0.2 are the doubles nearest to them and the difference is
    rounded to the nearest double. *)
Theorem applyRating_again (w : WordEntry) (t : Z) :
  let w' := applyRating w again t in
  reps w' = 0 /\ intervalDays w' = 0 /\ lapses w' = lapses w + 1 /\
  ease w' = Qmax (double (13 # 10)) (double (ease w - double (2 # 10))) /\
  dueAt w' = Some (t + 600000) /\
  lastReviewedAt w' = Some t /\ updatedAt w' = t.
Proof. by destruct w. Qed.

(** C3: the status after a rating follows the four rules of the
    specification, read on the status before the rating and on the updated
    [reps] and [intervalDays]. *)
Theorem applyRating_status (w : WordEntry) (r : Rating) (t : Z) :
  let w' := applyRating w r t in
  status w' = Spec.statusRule (status w) r (reps w') (intervalDays w').
Proof.
  cbn zeta. rewrite applyRating_unfold. cbn zeta.
  set (x := match r with again => _ | hard => _ | good => _ | easy => _ end).
  destruct (finish_fields r t x) as (-> & -> & _ & _ & _ & _ & _ & ->).
  assert (Hx : status x = status w).
  { subst x. destruct r.
    - destruct (fields_rate_again t (set_lastReviewedAt (Some t) w))
        as (_ & _ & _ & _ & _ & ->). by destruct w.
    - destruct (dueAt_rate_hard t (set_lastReviewedAt (Some t) w)) as [_ ->].
      by destruct w.
    - destruct (fields_rate_good t (set_lastReviewedAt (Some t) w))
        as (_ & _ & _ & _ & ->). by destruct w.
    - destruct (dueAt_rate_easy t (set_lastReviewedAt (Some t) w)) as [_ ->].
      by destruct w. }
  rewrite Hx. unfold Spec.statusRule.
  repeat case_bool_decide; repeat case_decide; simpl;
    repeat match goal with
      | |- context [?a <=? ?b] => destruct (Z.leb_spec a b); simpl
      end;
    try reflexivity; try (exfalso; intuition (congruence || lia)).
Qed.

(** C4: "good" gives the interval 1 at [reps = 0], 3 at [reps = 1] and
    [round (intervalDays * ease)] from [reps = 2] on, the product being the
    double nearest to the exact one, schedules the word that many days after
    [t], and counts one more repetition. *)
Theorem applyRating_good (w : WordEntry) (t : Z) :
  let w' := applyRating w good t in
  (reps w = 0 -> intervalDays w' = 1) /\
  (reps w = 1 -> intervalDays w' = 3) /\
  (reps w >= 2 ->
   intervalDays w' = Math_round (double (inject_Z (intervalDays w) * ease w))) /\
  dueAt w' = Some (t + intervalDays w' * 86400000) /\
  reps w' = reps w + 1.
Proof.
  cbn zeta. rewrite applyRating_unfold. cbn zeta.
  set (x := rate_good t (set_lastReviewedAt (Some t) w)).
  destruct (finish_fields good t x) as (-> & -> & _ & _ & -> & _).
  destruct (fields_rate_good t (set_lastReviewedAt (Some t) w))
    as (Hiv & Hdue & Hreps & _).
  fold x in Hiv, Hdue, Hreps. rewrite Hdue, Hreps, Hiv.
  replace (reps (set_lastReviewedAt (Some t) w)) with (reps w)
    by (by destruct w).
  replace (intervalDays (set_lastReviewedAt (Some t) w))
    with (intervalDays w) by (by destruct w).
  replace (ease (set_lastReviewedAt (Some t) w)) with (ease w)
    by (by destruct w).
  repeat split.
  - by intros ->.
  - by intros ->.
  - intros H. destruct (Z.eqb_spec (reps w) 0); [lia |].
    destruct (Z.eqb_spec (reps w) 1); [lia | reflexivity].
  - unfold addDays. f_equal. lia.
Qed.

Lemma applyRating_good_witness :
  reps Examples.third_review_word >= 2 /\
  intervalDays (applyRating Examples.third_review_word good 1000) = 6.
Proof.
  split; [vm_compute; discriminate |].
  destruct (applyRating_good Examples.third_review_word 1000)
    as (_ & _ & H & _).
  rewrite H; [reflexivity | vm_compute; discriminate].
Defined.

(** C10: every rating leaves the word with a scheduled instant, so after a
    rating [isDue] no longer answers by the absence of [dueAt]: it compares
    that instant with the current time. *)
Theorem applyRating_dueAt (w : WordEntry) (r : Rating) (t : Z) :
  exists due : Z,
    dueAt (applyRating w r t) = Some due /\
    forall now : Z, isDue (applyRating w r t) now = (due <=? now).
Proof.
  assert (H : exists due, dueAt (applyRating w r t) = Some due).
  { rewrite applyRating_unfold. cbn zeta.
    set (x := match r with again => _ | hard => _ | good => _ | easy => _ end).
    destruct (finish_fields r t x) as (_ & _ & _ & _ & -> & _).
    subst x. destruct r.
    - destruct (fields_rate_again t (set_lastReviewedAt (Some t) w))
        as (_ & _ & _ & -> & _). eauto.
    - destruct (dueAt_rate_hard t (set_lastReviewedAt (Some t) w)) as [-> _].
      eauto.
    - destruct (fields_rate_good t (set_lastReviewedAt (Some t) w))
        as (_ & -> & _). eauto.
    - destruct (dueAt_rate_easy t (set_lastReviewedAt (Some t) w)) as [-> _].
      eauto. }
  destruct H as [due H]. exists due. split; [exact H |].
  intros now. unfold isDue. by rewrite H.
Qed.

(** The arithmetic is the one of doubles: from an ease of 2.3 "again" gives
    2.0999999999999996, two "hard" from 2.5 give 2.4000000000000004, and
    four "easy" from 2.5 give 2.9000000000000004. *)
Example ease_in_doubles :
  ease (applyRating (set_ease (double (23 # 10)) (Examples.fresh "w1"))
          again 1000)
  = 1182194902184755 # 562949953421312 /\
  ease (applyRating (applyRating (Examples.fresh "w1") hard 1000) hard 2000)
  = 1351079888211149 # 562949953421312 /\
  ease (foldl (fun w t => applyRating w easy t) (Examples.fresh "w1")
          [1000; 2000; 3000; 4000])
  = 1632554864921805 # 562949953421312.
Proof. by vm_compute. Qed.

(** The product of "good" is rounded before [Math.round]: 25 days at an
    ease of 1.38 give 35 days, where the exact product of 25 and the double
    1.38 is below 34.5, and 50 days at 2.01 give 100. *)
Example good_in_doubles :
  let w days e :=
    set_intervalDays days
      (set_ease (double e) (set_reps 2 (Examples.fresh "w1"))) in
  intervalDays (applyRating (w 25 (138 # 100)) good 1000) = 35 /\
  Math_round (25 * double (138 # 100)) = 34 /\
  intervalDays (applyRating (w 50 (201 # 100)) good 1000) = 100.
Proof. by vm_compute. Qed.

(** The interval of the examples of the specification: a third "good" on an
    interval of 3 days at ease 2 gives 6 days. *)
Example good_third_review :
  intervalDays (applyRating Examples.third_review_word good 1000) = 6.
Proof. reflexivity. Qed.

(** The due classifier on the two cases of the specification. *)
Lemma isDue_absent (w : WordEntry) (now : Z) :
  dueAt w = None -> isDue w now = true.
Proof. unfold isDue. by intros ->. Qed.

Lemma isDue_scheduled (w : WordEntry) (due now : Z) :
  dueAt w = Some due -> (isDue w now = true <-> due <= now).
Proof. unfold isDue. intros ->. apply Z.leb_le. Qed.

Example isDue_one_second_ahead :
  isDue (set_dueAt (Some (1000 + 1000)) (Examples.fresh "w1")) 1000 = false.
Proof. reflexivity. Qed.

(** A word made by [createWord] and then only rated keeps its ease at or
    above the floor. *)
Lemma ease_floor_reachable (uid topic : string) (created : Z)
    (history : list (Rating * Z)) :
  (MIN_EASE <=
   ease (foldl (fun w rt => applyRating w rt.1 rt.2)
           (Utils.createWord uid created topic) history))%Q.
Proof.
  assert (H0 : (MIN_EASE <= ease (Utils.createWord uid created topic))%Q)
    by (vm_compute; discriminate).
  revert H0. generalize (Utils.createWord uid created topic).
  induction history as [| [r t] history IH]; intros w Hw; [exact Hw |].
  cbn [foldl]. apply IH. by apply ease_floor_preserved.
Qed.

End RatingEngine.

(** * Properties of the import *)

Section Importing.

Import App.

(** C9: with the replace policy, importing a valid snapshot a second time
    gives the state the first import gave: the database holds the topics and
    words of the snapshot and nothing else, and the lists of the component
    are those of the snapshot. *)
Theorem handleImport_replace_idempotent (s : AppState) (p : Parsed)
    (ptopics : list Topic) (pwords : list WordEntry) :
  parsed_schemaVersion p = 1 ->
  parsed_topics p = Some ptopics ->
  parsed_words p = Some pwords ->
  importMode s = import_replace ->
  let s1 := handleImport (Some p) s in
  let s2 := handleImport (Some p) s1 in
  s2 = s1 /\
  db s1 = putAllWords pwords (putAllTopics ptopics Db.empty) /\
  topics s1 = ptopics /\ words s1 = pwords.
Proof.
  intros Hv Ht Hw Hmode. cbn zeta. unfold handleImport.
  rewrite Ht, Hw, Hv. cbn [SCHEMA_VERSION Z.eqb Pos.eqb negb].
  rewrite Hmode. destruct s. cbn in Hmode. subst. by cbn.
Qed.

Lemma handleImport_replace_idempotent_witness :
  let s := setImportMode import_replace Examples.one_word_app in
  handleImport (Some Examples.snapshot1)
    (handleImport (Some Examples.snapshot1) s)
  = handleImport (Some Examples.snapshot1) s.
Proof.
  intros s.
  apply (handleImport_replace_idempotent s Examples.snapshot1
           [Examples.topic1]
           [Examples.fresh "w1"; Examples.third_review_word]);
    reflexivity.
Defined.

(** An export read back with the replace policy leaves the lists of the
    component as they are. *)
Lemma import_of_export (s : AppState) :
  importMode s = import_replace ->
  let s' := handleImport (parseExport (exportData s)) s in
  topics s' = topics s /\ words s' = words s.
Proof.
  intros Hmode. cbn zeta. unfold handleImport, parseExport, exportData.
  cbn [parsed_topics parsed_words parsed_schemaVersion schemaVersion
       data_topics data_words SCHEMA_VERSION Z.eqb Pos.eqb negb].
  rewrite Hmode. by destruct s.
Qed.

End Importing.

(** * Properties of the session runtime *)

Section SessionRuntime.

Import Srs Utils App.

(** A draw is 0 at least and the largest double below 1 at most. *)
Lemma draw_value_range (d : Draw) :
  (0 <= draw_value d <= 1 - Number.eps)%Q.
Proof.
  unfold draw_value.
  set (m := Z.of_N (draw_significand d mod 2 ^ 53)).
  set (p := N.succ_pos (52 + N.min (draw_scale d) 1021)).
  assert (Hm : 0 <= m < 2 ^ 53).
  { subst m. split; [apply N2Z.is_nonneg |].
    change (2 ^ 53) with (Z.of_N (2 ^ 53)). apply N2Z.inj_lt.
    by apply N.mod_lt. }
  assert (Hp : 2 ^ 53 <= Z.pos (2 ^ p)).
  { rewrite Pos2Z.inj_pow. apply Z.pow_le_mono_r; [lia |].
    assert (H := N.succ_pos_spec (52 + N.min (draw_scale d) 1021)).
    fold p in H. lia. }
  assert (E : (1 - Number.eps == (2 ^ 53 - 1) # 2 ^ 53)%Q)
    by (unfold Qeq; by vm_compute).
  rewrite E. unfold Qle. cbn [Qnum Qden].
  change (Z.pos (2 ^ 53)) with (2 ^ 53). split; nia.
Qed.

Lemma Qfloor_bounds (x : Q) (k : Z) :
  Qfloor x = k <-> (inject_Z k <= x < inject_Z k + 1)%Q.
Proof.
  split.
  - intros <-. split; [apply Qfloor_le |].
    pose proof (Qlt_floor x) as H. rewrite inject_Z_plus in H. exact H.
  - intros [Hlo Hhi].
    pose proof (Qfloor_le x) as H1. pose proof (Qlt_floor x) as H2.
    rewrite inject_Z_plus in H2.
    assert (Ha : (inject_Z k < inject_Z (Qfloor x) + inject_Z 1)%Q)
      by (eapply Qle_lt_trans; [exact Hlo | exact H2]).
    assert (Hb : (inject_Z (Qfloor x) < inject_Z k + inject_Z 1)%Q)
      by (eapply Qle_lt_trans; [exact H1 | exact Hhi]).
    rewrite <- inject_Z_plus in Ha, Hb.
    rewrite <- Zlt_Qlt in Ha, Hb. lia.
Qed.

(** [Math.floor(Math.random() * n)] is an index below [n]: the product is
    rounded, and stays below [n]. *)
Lemma floor_draw_range (d : Draw) (n : Z) :
  0 < n -> 0 <= Qfloor (Number.mul (draw_value d) (inject_Z n)) < n.
Proof.
  intros Hn. pose proof (draw_value_range d) as [H0 H1].
  assert (Hq : (1 <= inject_Z n)%Q)
    by (change 1%Q with (inject_Z 1); rewrite <- Zle_Qle; lia).
  unfold Number.mul.
  set (y := (draw_value d * inject_Z n)%Q).
  assert (Hy0 : (0 <= y)%Q) by (apply Qmult_le_0_compat; lra).
  assert (Hy1 : (y <= inject_Z n * (1 - Number.eps))%Q).
  { subst y. rewrite (Qmult_comm (inject_Z n)).
    apply Qmult_le_compat_r; lra. }
  pose proof (double_below y (inject_Z n) Hq (conj Hy0 Hy1)) as Hlt.
  pose proof (double_nonneg y Hy0) as Hge.
  split.
  - change 0 with (Qfloor 0). by apply Qfloor_resp_le.
  - rewrite Zlt_Qlt. eapply Qle_lt_trans; [apply Qfloor_le | exact Hlt].
Qed.

Lemma reinsertOffset_range (d : Draw) : 5 <= reinsertOffset d <= 7.
Proof.
  unfold reinsertOffset.
  pose proof (floor_draw_range d 3 ltac:(lia)) as H.
  change (inject_Z 3) with 3%Q in H. lia.
Qed.

(** The offset is 5 plus the whole part of the rounded product. *)
Lemma reinsertOffset_floor (d : Draw) (k : Z) :
  reinsertOffset d = 5 + k <->
  (inject_Z k <= Number.mul (draw_value d) 3 < inject_Z k + 1)%Q.
Proof.
  unfold reinsertOffset. rewrite <- Qfloor_bounds. lia.
Qed.

(** The product is rounded before [Math.floor]: at the draw
    0.6666666666666666 it is 2 and the offset is 7, where the exact product
    is below 2. *)
Example offset_in_doubles :
  let u := {| draw_significand := 6004799503160661; draw_scale := 0 |} in
  draw_value u = 6004799503160661 # 9007199254740992 /\
  reinsertOffset u = 7 /\ 5 + Qfloor (draw_value u * 3) = 6.
Proof. by vm_compute. Qed.

Lemma advanceSession_keeps render t s :
  sessionQueue (advanceSession render t s) = sessionQueue s /\
  words (advanceSession render t s) = words s /\
  db (advanceSession render t s) = db s /\
  sessionAttempts (advanceSession render t s) = sessionAttempts s /\
  answered (sessionStats (advanceSession render t s))
  = answered (sessionStats s).
Proof.
  unfold advanceSession.
  destruct (sessionQueue render !! _), s as [? ? ? ? ? ? ? ? ? st tm ? ? ? ? ?];
    cbn; [done |].
  destruct tm, st; by cbn.
Qed.

Lemma id_applyRating w r t : id (applyRating w r t) = id w.
Proof.
  rewrite applyRating_unfold. cbn zeta.
  set (x := match r with again => _ | hard => _ | good => _ | easy => _ end).
  transitivity (id x); [by destruct x |]. subst x.
  destruct r; try by destruct w.
  unfold rate_good. destruct w as [? ? ? ? ? ? ? ? ? ? ? ? iv e r ? ? ? ? ?].
  cbn [reps set_lastReviewedAt]. by destruct (r =? 0), (r =? 1).
Qed.

Lemma id_ratedWord w r m b t : id (ratedWord w r m b t) = id w.
Proof.
  unfold ratedWord. cbn zeta.
  assert (H : forall v x, id (set_status v x) = id x) by (by intros ? []).
  repeat match goal with
    | |- context [if ?c then _ else _] => destruct c
    end;
    rewrite ?H;
    (etransitivity; [| apply (id_applyRating w r t)]);
    by destruct (applyRating w r t).
Qed.

Lemma find_replaceWord (k : string) (updated found : WordEntry)
    (prev : list WordEntry) :
  id updated = k ->
  find (fun w => bool_decide (id w = k)) prev = Some found ->
  find (fun w => bool_decide (id w = k)) (replaceWord updated prev)
  = Some updated.
Proof.
  intros Hk. unfold replaceWord. rewrite Hk.
  induction prev as [| w prev IH]; [done |].
  cbn [find map]. case_bool_decide as Hw.
  - intros _. rewrite Hk. by rewrite bool_decide_true.
  - intros H. rewrite bool_decide_false by done. by apply IH.
Qed.

Lemma currentWord_id s item word :
  currentItem s = Some item -> currentWord s = Some word ->
  id word = item_id item.
Proof.
  unfold currentWord. intros ->. intros H.
  apply find_some in H as [_ H]. by apply bool_decide_eq_true in H.
Qed.

Lemma splice_in_lookup {T} (n : nat) (x : T) (l : list T) :
  (n <= length l)%nat ->
  splice_in n x l !! n = Some x /\
  length (splice_in n x l) = S (length l).
Proof.
  intros Hn. unfold splice_in. split.
  - rewrite lookup_app_r by (rewrite length_take; lia).
    rewrite length_take. by replace (n - n `min` length l)%nat with O by lia.
  - rewrite length_app. cbn [length]. rewrite length_take, length_drop. lia.
Qed.

Lemma answered_ratedStats rating item word updated isNewIntro prev :
  answered (ratedStats rating item word updated isNewIntro prev)
  = answered prev + 1.
Proof.
  unfold ratedStats. cbn zeta.
  repeat match goal with
    | |- context [if ?c then _ else _] => destruct c
    end; by destruct prev.
Qed.

(** The draws keep [pickRandom] and the swaps of [shuffle] inside the
    array. *)
Lemma pickRandom_index {T} (items : list T) (d : Draw) :
  items <> [] ->
  (Z.to_nat
     (Qfloor (Number.mul (draw_value d) (inject_Z (Z.of_nat (length items)))))
   < length items)%nat.
Proof.
  intros Hne.
  assert (Hlen : 0 < Z.of_nat (length items))
    by (destruct items; [done | cbn [length]; lia]).
  pose proof (floor_draw_range d _ Hlen). lia.
Qed.

Lemma shuffle_index (i : nat) (d : Draw) :
  (Z.to_nat (Qfloor (Number.mul (draw_value d) (inject_Z (Z.of_nat i + 1))))
   <= i)%nat.
Proof.
  pose proof (floor_draw_range d (Z.of_nat i + 1) ltac:(lia)). lia.
Qed.

(** The state that [handleRating] reaches on "again", field by field. *)
Lemma handleRating_again_fields manualAnswer env s item word :
  currentItem s = Some item -> currentWord s = Some word ->
  let attempts := nextAttempts (sessionAttempts s) (id word) in
  let isNewIntro :=
    bool_decide (status word = status_new)
    && negb (seenBefore (sessionSeen s) (id word)) in
  let updated :=
    ratedWord word again manualAnswer isNewIntro (rating_newDate env) in
  let postponed :=
    set_updatedAt (rating_postponeIso env)
      (set_dueAt (Some (rating_postponeNow env + 24 * 60 * 60 * 1000))
         updated) in
  let s' := handleRating again manualAnswer env s in
  sessionAttempts s' = <[id word := attempts]> (sessionAttempts s) /\
  sessionQueue s' =
    (if atLeast3 attempts then sessionQueue s
     else splice_in
            (Z.to_nat
               (Z.min (Z.of_nat (length (sessionQueue s)))
                  (Z.of_nat (sessionIndex s)
                   + reinsertOffset (rating_random env))))
            item (sessionQueue s)) /\
  words s' =
    (if atLeast3 attempts
     then replaceWord postponed (replaceWord updated (words s))
     else replaceWord updated (words s)) /\
  db s' =
    (if atLeast3 attempts
     then Db.putWord postponed (Db.putWord updated (db s))
     else Db.putWord updated (db s)).
Proof.
  intros Hi Hw. cbn zeta. unfold handleRating. rewrite Hi, Hw. cbn zeta.
  rewrite (bool_decide_true (again = again)) by done.
  destruct (atLeast3 (nextAttempts (sessionAttempts s) (id word))) eqn:E.
  all: match goal with
       | |- context [advanceSession ?r ?t ?x] =>
           destruct (advanceSession_keeps r t x) as (-> & -> & -> & -> & _)
       end.
  all: by destruct s.
Qed.

(** What "again" does to the queue and to the word, by the value of
    [attempts]. *)
Lemma handleRating_again_cases manualAnswer env s item word :
  currentItem s = Some item -> currentWord s = Some word ->
  let attempts := nextAttempts (sessionAttempts s) (id word) in
  let insertAt :=
    Z.to_nat (Z.min (Z.of_nat (length (sessionQueue s)))
                (Z.of_nat (sessionIndex s)
                 + reinsertOffset (rating_random env))) in
  let s' := handleRating again manualAnswer env s in
  (atLeast3 attempts = false ->
   sessionQueue s' = splice_in insertAt item (sessionQueue s) /\
   sessionQueue s' !! insertAt = Some item /\
   length (sessionQueue s') = S (length (sessionQueue s))) /\
  (atLeast3 attempts = true ->
   sessionQueue s' = sessionQueue s /\
   exists postponed : WordEntry,
     dueAt postponed = Some (rating_postponeNow env + 86400000) /\
     find (fun w => bool_decide (id w = id word)) (words s') = Some postponed /\
     Db.words_store (db s') !! id word = Some postponed).
Proof.
  intros Hi Hw. cbn zeta.
  destruct (handleRating_again_fields manualAnswer env s item word Hi Hw)
    as (Hatt & Hq & Hwords & Hdb).
  cbn zeta in Hatt, Hq, Hwords, Hdb.
  set (attempts := nextAttempts (sessionAttempts s) (id word)) in *.
  split.
  - intros H3. rewrite H3 in Hq. rewrite Hq.
    split; [done |]. apply splice_in_lookup. lia.
  - intros H3. rewrite H3 in Hq, Hwords, Hdb. split; [exact Hq |].
    eexists. split; [| split].
    2:{ rewrite Hwords.
        assert (Hfound : find (fun w => bool_decide (id w = id word)) (words s)
                         = Some word).
        { unfold currentWord in Hw. rewrite Hi in Hw.
          by rewrite (currentWord_id s item word Hi ltac:(unfold currentWord; by rewrite Hi)). }
        eapply find_replaceWord;
          [| eapply find_replaceWord; [| exact Hfound]].
        - match goal with
          | |- id (set_updatedAt ?a (set_dueAt ?b ?x)) = _ =>
              transitivity (id x); [by destruct x | apply id_ratedWord]
          end.
        - apply id_ratedWord. }
    + match goal with
      | |- dueAt (set_updatedAt ?a (set_dueAt ?b ?x)) = _ => by destruct x
      end.
    + rewrite Hdb. cbn [Db.putWord Db.words_store].
      match goal with
      | |- <[id ?p := _]> _ !! _ = _ =>
          replace (id p) with (id word); [by rewrite lookup_insert_eq |]
      end.
      match goal with
      | |- _ = id (set_updatedAt ?a (set_dueAt ?b ?x)) =>
          transitivity (id x); [symmetry; apply id_ratedWord | by destruct x]
      end.
Qed.

(** C5, as the code has it. On "again" the code takes
    [attempts = (sessionAttempts[word.id] ?? 0) + 1] and stores it, and the
    offset is [5 + floor (3 u)] for the draw [u], the product rounded to a
    double: one of 5, 6 and 7. When [attempts] is a count, the claim holds:
    below 3 a copy of the current item goes into the queue at
    [min (queue.length, index + offset)], and from 3 on the queue is left
    as it is and the word, in the list and in the database, is due 24 hours
    after the clock reading. When the identifier of the word is the name of
    a property that a plain object inherits and has no entry yet,
    [attempts] is a string, then and at every later "again": the test
    [attempts >= 3] never holds and a copy is inserted every time. *)
Theorem handleRating_again_reinsertion (manualAnswer : option string)
    (env : RatingEnv) (s : AppState) (item : SessionItem)
    (word : WordEntry) :
  currentItem s = Some item -> currentWord s = Some word ->
  let attempts := nextAttempts (sessionAttempts s) (id word) in
  let offset := reinsertOffset (rating_random env) in
  let insertAt :=
    Z.to_nat (Z.min (Z.of_nat (length (sessionQueue s)))
                (Z.of_nat (sessionIndex s) + offset)) in
  let s' := handleRating again manualAnswer env s in
  let reinserted :=
    sessionQueue s' = splice_in insertAt item (sessionQueue s) /\
    sessionQueue s' !! insertAt = Some item /\
    length (sessionQueue s') = S (length (sessionQueue s)) in
  let postponed :=
    sessionQueue s' = sessionQueue s /\
    exists postponed : WordEntry,
      dueAt postponed = Some (rating_postponeNow env + 86400000) /\
      find (fun w => bool_decide (id w = id word)) (words s')
      = Some postponed /\
      Db.words_store (db s') !! id word = Some postponed in
  sessionAttempts s' !! id word = Some attempts /\
  (5 <= offset <= 7 /\
   forall k : Z,
     offset = 5 + k <->
     (inject_Z k <= Number.double (draw_value (rating_random env) * 3)
      < inject_Z k + 1)%Q) /\
  (forall n : Z,
     attempts = attempts_number n ->
     (n < 3 -> reinserted) /\ (3 <= n -> postponed)) /\
  (forall (key : string) (ones : nat),
     attempts = attempts_text key ones -> reinserted) /\
  (sessionAttempts s !! id word = None ->
   attempts = if bool_decide (id word ∈ Object_prototype)
              then attempts_text (id word) 1 else attempts_number 1) /\
  (forall n : Z,
     sessionAttempts s !! id word = Some (attempts_number n) ->
     attempts = attempts_number (n + 1)) /\
  (forall (key : string) (ones : nat),
     sessionAttempts s !! id word = Some (attempts_text key ones) ->
     attempts = attempts_text key (S ones)).
Proof.
  intros Hi Hw. cbn zeta.
  destruct (handleRating_again_fields manualAnswer env s item word Hi Hw)
    as (Hatt & _).
  destruct (handleRating_again_cases manualAnswer env s item word Hi Hw)
    as (Hlow & Hhigh).
  cbn zeta in Hatt, Hlow, Hhigh.
  set (attempts := nextAttempts (sessionAttempts s) (id word)) in *.
  split; [by rewrite Hatt, lookup_insert_eq |].
  split; [split; [apply reinsertOffset_range | apply reinsertOffset_floor] |].
  split.
  { intros n Hn. rewrite Hn in Hlow, Hhigh. cbn [atLeast3] in Hlow, Hhigh.
    split; intros H3; [apply Hlow | apply Hhigh]; lia. }
  split.
  { intros key ones Hn. rewrite Hn in Hlow. by apply Hlow. }
  subst attempts. unfold nextAttempts.
  split; [by intros -> |]. split; [by intros n -> | by intros k o ->].
Qed.

(** The third "again" on a word whose identifier is "constructor": the
    item is inserted once more. *)
Lemma handleRating_again_reinsertion_witness :
  let s1 := handleRating again None (Examples.rating_env 3000)
              Examples.inherited_session in
  let s2 := handleRating again None (Examples.rating_env 4000) s1 in
  let s3 := handleRating again None (Examples.rating_env 5000) s2 in
  length (sessionQueue s3) = S (length (sessionQueue s2)).
Proof.
  intros s1 s2 s3.
  destruct (handleRating_again_reinsertion None (Examples.rating_env 5000) s2
              {| item_id := "constructor"; item_mode := flashcards;
                 origin := origin_new |}
              (default Examples.inherited_word (currentWord s2)))
    as (_ & _ & _ & H & _); [by vm_compute | by vm_compute |].
  apply (H "constructor" 3%nat). by vm_compute.
Defined.

(** The first "again" on a word with an ordinary identifier inserts a copy
    of the item, and the third one in the same session inserts nothing and
    makes the word due a day later. *)
Example first_again_reinserts :
  let item := {| item_id := "w1"; item_mode := flashcards;
                 origin := origin_new |} in
  sessionQueue (handleRating again None (Examples.rating_env 3000)
                  Examples.started_session)
  = [item; item].
Proof. by vm_compute. Qed.

Example third_again_postpones :
  let s1 := handleRating again None (Examples.rating_env 3000)
              Examples.started_session in
  let s2 := handleRating again None (Examples.rating_env 4000) s1 in
  let s3 := handleRating again None (Examples.rating_env 5000) s2 in
  length (sessionQueue s2) = 3%nat /\
  length (sessionQueue s3) = 3%nat /\
  sessionAttempts s3 !! "w1" = Some (attempts_number 3) /\
  dueAt <$> words s3 = [Some (5000 + 86400000)].
Proof. vm_compute. done. Qed.

(** The same three ratings on a word whose identifier is "constructor":
    the count is a string, the queue grows at each rating, and the word is
    due 10 minutes after the third one, not a day. *)
Example third_again_on_inherited_id :
  let s1 := handleRating again None (Examples.rating_env 3000)
              Examples.inherited_session in
  let s2 := handleRating again None (Examples.rating_env 4000) s1 in
  let s3 := handleRating again None (Examples.rating_env 5000) s2 in
  length (sessionQueue s2) = 3%nat /\
  length (sessionQueue s3) = 4%nat /\
  sessionAttempts s3 !! "constructor"
  = Some (attempts_text "constructor" 3) /\
  dueAt <$> words s3 = [Some (5000 + 600000)].
Proof. vm_compute. done. Qed.

(** The session of the specification's end-to-end example: one new word,
    rated "good". *)
Example one_word_session :
  sessionStats Examples.exhausted_session
  = {| total := 1; answered := 1; correct := 1; dueDone := 0;
       newIntroduced := 1; movedCompleted := 0; stat_lapses := 0;
       startedAt := 1000; finishedAt := Some 2000 |} /\
  (fun w => (status w, intervalDays w)) <$> words Examples.exhausted_session
  = [(in_progress, 1)].
Proof. by vm_compute. Qed.

(** C6, as the code has it: [handleRating] returns without a change exactly
    when the queue has no item at the current index or the word of that item
    is not in the list; [finishedAt] is not read, and with an item and its
    word at hand the rating is applied and counted whether the session has
    finished or not. *)
Theorem handleRating_guard (rating : Rating) (manualAnswer : option string)
    (env : RatingEnv) (s : AppState) :
  (currentItem s = None \/ currentWord s = None ->
   handleRating rating manualAnswer env s = s) /\
  (forall (item : SessionItem) (word : WordEntry),
     currentItem s = Some item -> currentWord s = Some word ->
     answered (sessionStats (handleRating rating manualAnswer env s))
     = answered (sessionStats s) + 1).
Proof.
  split.
  - unfold handleRating. intros [-> | ->]; [done |].
    by destruct (currentItem s).
  - intros item word Hi Hw. unfold handleRating. rewrite Hi, Hw. cbn zeta.
    repeat match goal with
      | |- context [if ?c then _ else _] => destruct c
      end.
    all: match goal with
         | |- context [advanceSession ?r ?t ?x] =>
             destruct (advanceSession_keeps r t x) as (_ & _ & _ & _ & ->)
         end.
    all: match goal with
         | |- context [ratedStats ?a ?b ?c ?d ?e ?f] =>
             pose proof (answered_ratedStats a b c d e f) as H
         end.
    all: destruct s; cbn in H |- *; exact H.
Qed.

Lemma handleRating_guard_witness :
  answered (sessionStats (handleRating good None (Examples.rating_env 3000)
                            Examples.exhausted_session))
  = answered (sessionStats Examples.exhausted_session) + 1.
Proof.
  apply (proj2 (handleRating_guard good None (Examples.rating_env 3000)
                  Examples.exhausted_session)
           {| item_id := "w1"; item_mode := flashcards; origin := origin_new |}
           (ratedWord (Examples.fresh "w1") good None true 2000));
    reflexivity.
Defined.

(** C6 as the specification words it fails on both ways a session ends.
    After the one word of a session is rated, [finishedAt] is set and the
    index stays on that word: a further rating is counted and reschedules
    the word. After the timeout, the same. *)
Lemma handleRating_after_finish_counterexample :
  let after_end := handleRating good None (Examples.rating_env 3000)
                     Examples.exhausted_session in
  let after_timeout := handleRating good None (Examples.rating_env 603000)
                         Examples.timed_out_session in
  (finishedAt (sessionStats Examples.exhausted_session) = Some 2000 /\
   after_end <> Examples.exhausted_session /\
   answered (sessionStats Examples.exhausted_session) = 1 /\
   answered (sessionStats after_end) = 2 /\
   reps <$> words Examples.exhausted_session = [1] /\
   reps <$> words after_end = [2]) /\
  (finishedAt (sessionStats Examples.timed_out_session) = Some 601000 /\
   after_timeout <> Examples.timed_out_session /\
   answered (sessionStats Examples.timed_out_session) = 0 /\
   answered (sessionStats after_timeout) = 1).
Proof.
  cbn zeta.
  assert (Hne : forall a b : AppState,
             answered (sessionStats a) <> answered (sessionStats b) -> a <> b)
    by (intros a b H ->; by apply H).
  split.
  - split; [reflexivity |]. split; [by apply Hne |].
    by vm_compute.
  - split; [reflexivity |]. split; [by apply Hne |].
    by vm_compute.
Qed.

End SessionRuntime.

(** * Properties of the session builder *)

Section SessionBuilder.

Import Srs Utils App Spec.

Lemma pushItem_run config word o selection src k :
  exists m k',
    pushItem config word o selection src k
    = (selection ++ [{| item_id := id word; item_mode := m; origin := o |}],
       k').
Proof.
  unfold pushItem. destruct (mode config); cbn; eauto.
Qed.

Lemma forEach_pushItem config (o : WordEntry -> Origin) ws :
  forall selection src k,
    keyOf <$> (forEach (fun w => pushItem config w (o w)) ws selection src k).1
    = (keyOf <$> selection) ++ ((fun w => (id w, o w)) <$> ws).
Proof.
  induction ws as [| w ws IH]; intros selection src k.
  - cbn. by rewrite app_nil_r.
  - cbn [forEach]. unfold mbind, Rand_bind.
    destruct (pushItem_run config w (o w) selection src k) as (m & k' & ->).
    rewrite IH, fmap_app. cbn. by rewrite <- app_assoc.
Qed.

Lemma swap_Permutation {T} (copy : list T) (i j : nat) : swap copy i j ≡ₚ copy.
Proof.
  unfold swap. destruct (copy !! i) eqn:Hi; [| done].
  destruct (copy !! j) eqn:Hj; [| done].
  by apply Permutation_insert_swap.
Qed.

Lemma shuffle_from_Permutation {T} (n : nat) :
  forall (copy : list T) src k, (shuffle_from n copy src k).1 ≡ₚ copy.
Proof.
  induction n as [| n IH]; intros copy src k; [done |].
  cbn [shuffle_from]. unfold mbind, Rand_bind, Math_random.
  rewrite IH. apply swap_Permutation.
Qed.

Lemma shuffle_Permutation {T} (l : list T) src k : (shuffle l src k).1 ≡ₚ l.
Proof. apply shuffle_from_Permutation. Qed.

Lemma sort_insert_Permutation {A} (cmp : A -> A -> Z) x l :
  sort_insert cmp x l ≡ₚ x :: l.
Proof.
  induction l as [| y l IH]; [done |]. cbn [sort_insert].
  destruct (cmp x y <=? 0); [done |]. by rewrite IH, Permutation_swap.
Qed.

Lemma Array_sort_Permutation {A} (cmp : A -> A -> Z) l : Array_sort cmp l ≡ₚ l.
Proof.
  induction l as [| x l IH]; [done |]. unfold Array_sort. cbn [foldr].
  rewrite sort_insert_Permutation. by f_equiv.
Qed.

Lemma length_Array_sort {A} (cmp : A -> A -> Z) l :
  length (Array_sort cmp l) = length l.
Proof. apply Permutation_length, Array_sort_Permutation. Qed.

Lemma length_slice0 {A} (l : list A) (e : Z) :
  0 <= e -> length (slice0 l e) = (Z.to_nat e `min` length l)%nat.
Proof.
  intros He. unfold slice0.
  destruct (Z.ltb_spec e 0); [lia |]. apply length_take.
Qed.

Lemma slice0_submseteq {A} (l : list A) (e : Z) : slice0 l e ⊆+ l.
Proof. unfold slice0. destruct (e <? 0); apply submseteq_take. Qed.

Lemma Math_round_nonneg (x : Q) : (0 <= x)%Q -> 0 <= Math_round x.
Proof.
  intros Hx. unfold Math_round.
  destruct (Qfloor_bounds (x + (1 # 2)) (Qfloor (x + (1 # 2)))) as [H _].
  destruct (H eq_refl) as [_ Hhi].
  assert (Ha : (inject_Z 0 < inject_Z (Qfloor (x + (1 # 2)) + 1))%Q).
  { rewrite inject_Z_plus. change (inject_Z 0) with 0%Q.
    change (inject_Z 1) with 1%Q. lra. }
  rewrite <- Zlt_Qlt in Ha. lia.
Qed.

Lemma targets_sum (size : Z) :
  0 <= size ->
  0 <= dueTargetOf size /\ 0 <= inProgressTargetOf size /\
  0 <= newTargetOf size /\
  dueTargetOf size + inProgressTargetOf size + newTargetOf size = size.
Proof.
  intros Hs. unfold newTargetOf, inProgressTargetOf, dueTargetOf.
  assert (Hq : (0 <= inject_Z size)%Q)
    by (change 0%Q with (inject_Z 0); by rewrite <- Zle_Qle).
  assert (H6 : 0 <= Math_round (inject_Z size * (6 # 10)))
    by (apply Math_round_nonneg, Qmult_le_0_compat; [exact Hq | done]).
  assert (H25 : 0 <= Math_round (inject_Z size * (25 # 100)))
    by (apply Math_round_nonneg, Qmult_le_0_compat; [exact Hq | done]).
  lia.
Qed.

Lemma existsb_selected (selection : list SessionItem) (word : WordEntry) :
  existsb (fun s => bool_decide (item_id s = id word)) selection = false
  <-> id word ∉ (keyOf <$> selection).*1.
Proof.
  induction selection as [| s selection IH]; cbn.
  - split; [intros _; apply not_elem_of_nil | done].
  - rewrite not_elem_of_cons, <- IH, orb_false_iff, bool_decide_eq_false.
    split; intros [H1 H2]; (split; [congruence | exact H2]).
Qed.

(** The words that the three buckets give, before any backfill. *)
Lemma selectionOf_keys words config now src k :
  let filtered := filteredOf words config in
  let D := slice0 (Array_sort (fun a b => dueTime a - dueTime b)
                     (dueOf filtered now))
             (dueTargetOf (size config)) in
  let I := slice0 (Array_sort
                     (fun a b =>
                        (lapses b + wrongCount b) - (lapses a + wrongCount a))
                     (inProgressOf filtered now))
             (inProgressTargetOf (size config)) in
  let N := slice0 (newWordsOf filtered) (newTargetOf (size config)) in
  let base :=
    ((fun w => (id w, origin_due)) <$> D)
    ++ ((fun w => (id w, origin_in_progress)) <$> I)
    ++ ((fun w => (id w, origin_new)) <$> N) in
  keyOf <$> (selectionOf words config now src k).1 =
    if Z.of_nat (length base) <? size config then
      base
      ++ ((fun w => (id w, if bool_decide (status w = status_new)
                           then origin_new else origin_in_progress))
          <$> slice0 (filter (fun w => id w ∉ base.*1) filtered)
                (size config - Z.of_nat (length base)))
    else base.
Proof.
  cbn zeta. unfold selectionOf. cbn zeta. unfold mbind, Rand_bind.
  match goal with
  | |- context [forEach ?f ?ws [] src k] =>
      pose proof (forEach_pushItem config (fun _ => origin_due) ws [] src k)
        as H1;
      destruct (forEach f ws [] src k) as [sel1 k1] eqn:E1
  end.
  cbn beta in H1. rewrite ?E1 in H1. cbn [fst fmap list_fmap app] in H1.
  match goal with
  | |- context [forEach ?f ?ws sel1 src k1] =>
      pose proof (forEach_pushItem config (fun _ => origin_in_progress) ws
                    sel1 src k1) as H2;
      destruct (forEach f ws sel1 src k1) as [sel2 k2] eqn:E2
  end.
  cbn beta in H2. rewrite ?E2 in H2. cbn [fst] in H2.
  match goal with
  | |- context [forEach ?f ?ws sel2 src k2] =>
      pose proof (forEach_pushItem config (fun _ => origin_new) ws
                    sel2 src k2) as H3;
      destruct (forEach f ws sel2 src k2) as [sel3 k3] eqn:E3
  end.
  cbn beta in H3. rewrite ?E3 in H3. cbn [fst] in H3.
  rewrite H2, H1 in H3. rewrite <- app_assoc in H3.
  assert (Hlen : length sel3 = length (keyOf <$> sel3))
    by (by rewrite length_fmap).
  rewrite Hlen, H3.
  match goal with |- context [?a <? ?b] => destruct (a <? b) end;
    [| by cbn].
  match goal with
  | |- context [forEach ?f ?ws sel3 src k3] =>
      pose proof (forEach_pushItem config
                    (fun w => if bool_decide (status w = status_new)
                              then origin_new else origin_in_progress)
                    ws sel3 src k3) as H4
  end.
  cbn beta in H4. rewrite H4, H3. f_equal. f_equal. f_equal.
  apply list_filter_iff. intros w. rewrite existsb_selected. by rewrite H3.
Qed.

Lemma buildSession_keys words config now src :
  keyOf <$> run (buildSession words config now) src
  ≡ₚ keyOf <$> (selectionOf words config now src O).1.
Proof.
  unfold run, buildSession, mbind, Rand_bind.
  destruct (selectionOf words config now src O) as [selection k'].
  cbn [fst]. f_equiv. apply shuffle_Permutation.
Qed.

Lemma countOrigin_keys o (queue : list SessionItem) :
  countOrigin o queue
  = length (filter (fun kv : string * Origin => kv.2 = o) (keyOf <$> queue)).
Proof.
  unfold countOrigin.
  induction queue as [| item queue IH]; [done |].
  rewrite fmap_cons, !filter_cons. cbn [keyOf snd].
  destruct (decide (origin item = o)); cbn [length]; by rewrite IH.
Qed.

Lemma count_tagged o o' (l : list WordEntry) :
  length (filter (fun kv : string * Origin => kv.2 = o)
            ((fun w => (id w, o')) <$> l))
  = if decide (o' = o) then length l else O.
Proof.
  induction l as [| w l IH]; [by destruct (decide (o' = o)) |].
  rewrite fmap_cons, filter_cons. cbn [snd].
  destruct (decide (o' = o)); cbn [length]; by rewrite IH.
Qed.

Lemma countOrigin_buildSession o words config now src :
  countOrigin o (run (buildSession words config now) src)
  = length (filter (fun kv : string * Origin => kv.2 = o)
              (keyOf <$> (selectionOf words config now src O).1)).
Proof.
  rewrite countOrigin_keys. by rewrite buildSession_keys.
Qed.

Lemma length_buildSession words config now src :
  length (run (buildSession words config now) src)
  = length (keyOf <$> (selectionOf words config now src O).1).
Proof.
  rewrite <- (length_fmap keyOf (run _ _)). by rewrite buildSession_keys.
Qed.

(** C8: for a size that is not negative, when each bucket holds at least its
    target, the queue has exactly [dueTarget] items of origin due,
    [inProgressTarget] of origin in_progress and [newTarget] of origin new;
    with 6 due, 10 in-progress and 20 new words and a size of 10 that is 6,
    3 and 1, 10 in all. *)
Theorem buildSession_bucket_counts (words : list WordEntry)
    (config : SessionConfig) (now : Z) (src : RandomSource) :
  let filtered := filteredOf words config in
  let queue := run (buildSession words config now) src in
  0 <= size config ->
  (dueTargetOf (size config) <= Z.of_nat (length (dueOf filtered now)) ->
   inProgressTargetOf (size config)
   <= Z.of_nat (length (inProgressOf filtered now)) ->
   newTargetOf (size config) <= Z.of_nat (length (newWordsOf filtered)) ->
   Z.of_nat (countOrigin origin_due queue) = dueTargetOf (size config) /\
   Z.of_nat (countOrigin origin_in_progress queue)
   = inProgressTargetOf (size config) /\
   Z.of_nat (countOrigin origin_new queue) = newTargetOf (size config)) /\
  (size config = 10 ->
   length (dueOf filtered now) = 6%nat ->
   length (inProgressOf filtered now) = 10%nat ->
   length (newWordsOf filtered) = 20%nat ->
   countOrigin origin_due queue = 6%nat /\
   countOrigin origin_in_progress queue = 3%nat /\
   countOrigin origin_new queue = 1%nat /\
   length queue = 10%nat).
Proof.
  cbn zeta. intros Hsize.
  assert (Hgen :
    dueTargetOf (size config)
    <= Z.of_nat (length (dueOf (filteredOf words config) now)) ->
    inProgressTargetOf (size config)
    <= Z.of_nat (length (inProgressOf (filteredOf words config) now)) ->
    newTargetOf (size config)
    <= Z.of_nat (length (newWordsOf (filteredOf words config))) ->
    forall o,
      Z.of_nat (countOrigin o (run (buildSession words config now) src))
      = match o with
        | origin_due => dueTargetOf (size config)
        | origin_in_progress => inProgressTargetOf (size config)
        | origin_new => newTargetOf (size config)
        end).
  { intros Hd Hi Hn o.
    destruct (targets_sum (size config) Hsize) as (Hd0 & Hi0 & Hn0 & Hsum).
    rewrite countOrigin_buildSession, selectionOf_keys. cbn zeta.
    rewrite !length_app, !length_fmap, !length_slice0 by assumption.
    rewrite ?length_Array_sort.
    match goal with
    | |- context [?a <? ?b] => destruct (Z.ltb_spec a b) as [Hlt | _]; [lia |]
    end.
    rewrite !filter_app, !length_app, !count_tagged.
    rewrite !length_slice0 by assumption.
    rewrite ?length_Array_sort.
    destruct o; repeat case_decide; try congruence; lia. }
  split.
  - intros Hd Hi Hn.
    by rewrite (Hgen Hd Hi Hn origin_due),
      (Hgen Hd Hi Hn origin_in_progress), (Hgen Hd Hi Hn origin_new).
  - intros H10 H6 H10' H20.
    assert (Hd : dueTargetOf (size config) = 6) by (by rewrite H10).
    assert (Hi : inProgressTargetOf (size config) = 3) by (by rewrite H10).
    assert (Hn : newTargetOf (size config) = 1) by (by rewrite H10).
    assert (Hall := Hgen ltac:(lia) ltac:(lia) ltac:(lia)).
    pose proof (Hall origin_due) as Ha.
    pose proof (Hall origin_in_progress) as Hb.
    pose proof (Hall origin_new) as Hc. cbn iota in Ha, Hb, Hc.
    repeat split; try lia.
    rewrite length_buildSession, selectionOf_keys. cbn zeta.
    rewrite !length_app, !length_fmap, !length_slice0 by lia.
    rewrite ?length_Array_sort.
    match goal with
    | |- context [?a <? ?b] => destruct (Z.ltb_spec a b) as [Hlt | _]; [lia |]
    end.
    rewrite !length_app, !length_fmap, !length_slice0 by lia.
    rewrite ?length_Array_sort.
    lia.
Qed.

Lemma filter_none {A} (P : A -> Prop) `{!forall x, Decision (P x)} l :
  Forall (fun x => ~ P x) l -> filter P l = [].
Proof.
  induction 1 as [| x l Hx _ IH]; [done |].
  by rewrite filter_cons_False.
Qed.

Lemma filter_every {A} (P : A -> Prop) `{!forall x, Decision (P x)} l :
  Forall P l -> filter P l = l.
Proof.
  induction 1 as [| x l Hx _ IH]; [done |].
  rewrite filter_cons_True by done. by rewrite IH.
Qed.

(** The three buckets are disjoint parts of the filtered words. *)
Lemma buckets_submseteq (filtered : list WordEntry) (now : Z) :
  dueOf filtered now ++ inProgressOf filtered now ++ newWordsOf filtered
  ⊆+ filtered.
Proof.
  unfold dueOf, inProgressOf, newWordsOf.
  induction filtered as [| w l IH]; [done |].
  rewrite !filter_cons.
  destruct (decide (status w <> status_new /\ isDue w now = true))
    as [[Hs Hd] | H1].
  - rewrite decide_False by (intros [_ H]; congruence).
    rewrite decide_False by done. cbn [app]. by apply submseteq_skip.
  - destruct (decide (status w = in_progress /\ isDue w now = false))
      as [[Hs Hd] | H2].
    + rewrite decide_False by congruence.
      rewrite <- app_comm_cons, <- Permutation_middle.
      by apply submseteq_skip.
    + destruct (decide (status w = status_new)) as [Hs | H3].
      * rewrite app_assoc, <- Permutation_middle, <- app_assoc.
        by apply submseteq_skip.
      * by apply submseteq_cons.
Qed.

Lemma fst_tagged (o : Origin) (l : list WordEntry) :
  ((fun w => (id w, o)) <$> l).*1 = id <$> l.
Proof. induction l as [| w l IH]; [done |]. cbn. by f_equal. Qed.

(** The words of no selected identifier, when identifiers are distinct. *)
Lemma length_remaining (selected rest filtered : list WordEntry) :
  filtered ≡ₚ selected ++ rest ->
  NoDup (id <$> filtered) ->
  length (filter (fun w => id w ∉ id <$> selected) filtered) = length rest.
Proof.
  intros Hperm Hnodup. rewrite Hperm in Hnodup |- *.
  rewrite fmap_app in Hnodup. apply NoDup_app in Hnodup as (_ & Hdisj & _).
  rewrite filter_app, filter_none, filter_every; [done | |].
  - apply Forall_forall. intros w Hw Hin. apply (Hdisj (id w) Hin).
    by apply list_elem_of_fmap_2.
  - apply Forall_forall. intros w Hw Hnot. apply Hnot.
    by apply list_elem_of_fmap_2.
Qed.

(** C7, as the code has it: for a positive size and filtered words of
    pairwise distinct identifiers, the queue has
    [min (size, number of filtered words)] items: never more than [size],
    fewer only when the filtered words are fewer, and none exactly when no
    word passes the filters. *)
Theorem buildSession_length (words : list WordEntry) (config : SessionConfig)
    (now : Z) (src : RandomSource) :
  let filtered := filteredOf words config in
  let queue := run (buildSession words config now) src in
  0 < size config ->
  NoDup (id <$> filtered) ->
  Z.of_nat (length queue)
  = Z.min (size config) (Z.of_nat (length filtered)) /\
  Z.of_nat (length queue) <= size config /\
  (Z.of_nat (length queue) < size config ->
   Z.of_nat (length filtered) < size config) /\
  (queue = [] <-> filtered = []).
Proof.
  cbn zeta. intros Hsize Hnodup.
  set (filtered := filteredOf words config) in *.
  set (queue := run (buildSession words config now) src).
  assert (Hlen : Z.of_nat (length queue)
                 = Z.min (size config) (Z.of_nat (length filtered))).
  { subst queue. rewrite length_buildSession, selectionOf_keys. cbn zeta.
    fold filtered.
    set (D := slice0 (Array_sort _ (dueOf filtered now)) _).
    set (I := slice0 (Array_sort _ (inProgressOf filtered now)) _).
    set (N := slice0 (newWordsOf filtered) _).
    assert (Hsub : D ++ I ++ N ⊆+ filtered).
    { etransitivity; [| apply (buckets_submseteq filtered now)].
      repeat apply submseteq_app; subst D I N.
      - etransitivity; [apply slice0_submseteq |].
        by rewrite Array_sort_Permutation.
      - etransitivity; [apply slice0_submseteq |].
        by rewrite Array_sort_Permutation.
      - apply slice0_submseteq. }
    destruct (submseteq_Permutation _ _ Hsub) as [rest Hrest].
    pose proof (Permutation_length Hrest) as Hl.
    rewrite !length_app in Hl.
    destruct (targets_sum (size config) ltac:(lia))
      as (Hd0 & Hi0 & Hn0 & Hsum).
    assert (HD : (length D <= Z.to_nat (dueTargetOf (size config)))%nat)
      by (subst D; rewrite length_slice0 by done; lia).
    assert (HI : (length I <= Z.to_nat (inProgressTargetOf (size config)))%nat)
      by (subst I; rewrite length_slice0 by done; lia).
    assert (HN : (length N <= Z.to_nat (newTargetOf (size config)))%nat)
      by (subst N; rewrite length_slice0 by done; lia).
    rewrite !fmap_app, !fst_tagged, <- !fmap_app.
    rewrite !length_app, !length_fmap.
    match goal with
    | |- context [?a <? ?b] => destruct (Z.ltb_spec a b) as [Hlt | Hge]
    end; [| rewrite !length_app, !length_fmap; lia].
    rewrite !length_app, !length_fmap, length_slice0 by lia.
    rewrite (length_remaining (D ++ I ++ N) rest filtered Hrest Hnodup).
    lia. }
  split; [exact Hlen |]. split; [lia |]. split; [lia |].
  split.
  - intros Hq. rewrite Hq in Hlen. cbn in Hlen.
    apply nil_length_inv. lia.
  - intros Hf. rewrite Hf in Hlen. cbn in Hlen.
    apply nil_length_inv. lia.
Qed.

Lemma buildSession_bucket_counts_witness :
  let queue := run (buildSession Examples.pool36 (Examples.config_of_size 10)
                      1000) Examples.varied_draws in
  countOrigin origin_due queue = 6%nat /\
  countOrigin origin_in_progress queue = 3%nat /\
  countOrigin origin_new queue = 1%nat /\
  length queue = 10%nat.
Proof.
  intros queue.
  apply (proj2 (buildSession_bucket_counts Examples.pool36
                  (Examples.config_of_size 10) 1000 Examples.varied_draws
                  ltac:(vm_compute; discriminate)));
    reflexivity.
Defined.

Lemma buildSession_length_witness :
  let queue := run (buildSession Examples.pool36 (Examples.config_of_size 40)
                      1000) Examples.varied_draws in
  Z.of_nat (length queue) = 36.
Proof.
  intros queue.
  assert (Hnodup : NoDup (id <$> filteredOf Examples.pool36
                                   (Examples.config_of_size 40))).
  { apply (bool_decide_unpack _). vm_compute. exact I. }
  destruct (buildSession_length Examples.pool36 (Examples.config_of_size 40)
              1000 Examples.varied_draws ltac:(reflexivity) Hnodup)
    as [H _].
  exact H.
Defined.

(** C7 as the specification words it fails on a pool in which two words
    share an identifier: with a size of 2 the first word is selected as due,
    the backfill skips every word of a selected identifier, and the queue has
    one item although two words pass the filters. *)
Lemma buildSession_length_counterexample :
  let queue := run (buildSession Examples.twin_pool
                      (Examples.config_of_size 2) 1000)
                 Examples.varied_draws in
  0 < size (Examples.config_of_size 2) /\
  length (filteredOf Examples.twin_pool (Examples.config_of_size 2)) = 2%nat /\
  length queue = 1%nat /\
  Z.of_nat (length queue)
  <> Z.min (size (Examples.config_of_size 2))
       (Z.of_nat (length (filteredOf Examples.twin_pool
                            (Examples.config_of_size 2)))).
Proof. cbn zeta. repeat split; by vm_compute. Qed.

(** The queue of the pool of 36 at size 10, under one sequence of draws. *)
Example buildSession_pool36_ids :
  item_id <$> run (buildSession Examples.pool36 (Examples.config_of_size 10)
                     1000) Examples.varied_draws
  = ["due1"; "new0"; "due0"; "prog8"; "due5"; "prog9"; "due4";
     "prog7"; "due3"; "due2"].
Proof. by vm_compute. Qed.

End SessionBuilder.

(** * More on the rating engine *)

Section RatingEngineMore.

Import Number Srs Inv.

(** The fields that [applyRating] computes, rating by rating. *)
Lemma applyRating_numbers (w : WordEntry) (r : Rating) (t : Z) :
  let w' := applyRating w r t in
  intervalDays w' =
    match r with
    | again => 0
    | hard => Z.max 1 (Math_round
                         (mul (inject_Z (intervalDays w)) (double (12 # 10))))
    | good => if reps w =? 0 then 1
              else if reps w =? 1 then 3
              else Math_round (mul (inject_Z (intervalDays w)) (ease w))
    | easy => Z.max 4 (Math_round
                         (mul (mul (inject_Z (intervalDays w))
                                 (add (ease w) (double (1 # 10))))
                            (double (13 # 10))))
    end /\
  reps w' = match r with again => 0 | _ => reps w + 1 end /\
  lapses w' = match r with again => lapses w + 1 | _ => lapses w end /\
  dueAt w' = Some (match r with
                   | again => t + 10 * 60 * 1000
                   | _ => addDays t (intervalDays w')
                   end).
Proof.
  cbn zeta. destruct r; try (by destruct w).
  rewrite applyRating_unfold. cbn zeta.
  set (x := rate_good t (set_lastReviewedAt (Some t) w)).
  destruct (finish_fields good t x) as (-> & -> & -> & _ & -> & _).
  destruct (fields_rate_good t (set_lastReviewedAt (Some t) w))
    as (Hiv & Hdue & Hreps & _).
  fold x in Hiv, Hdue, Hreps. rewrite Hdue, Hreps, Hiv.
  repeat split; try (by destruct w).
  subst x. unfold rate_good.
  destruct w as [? ? ? ? ? ? ? ? ? ? ? ? iv e rp ? ? ? ? ?].
  cbn [reps set_lastReviewedAt]. by destruct (rp =? 0), (rp =? 1).
Qed.

(** The status that [applyRating] resolves, on the status before the rating
    and the updated numbers. *)
Lemma applyRating_status_cases (w : WordEntry) (r : Rating) (t : Z) :
  let w' := applyRating w r t in
  status w' =
    if bool_decide (status w = completed) && bool_decide (r = again)
    then in_progress
    else if (5 <=? reps w') && (21 <=? intervalDays w') then completed
    else if bool_decide (status w = status_new) then in_progress
    else status w.
Proof.
  cbn zeta. rewrite applyRating_unfold. cbn zeta.
  set (x := match r with again => _ | hard => _ | good => _ | easy => _ end).
  destruct (finish_fields r t x) as (-> & -> & _ & _ & _ & _ & _ & ->).
  replace (status x) with (status w); [done |].
  subst x. destruct r.
  - destruct (fields_rate_again t (set_lastReviewedAt (Some t) w))
      as (_ & _ & _ & _ & _ & ->). by destruct w.
  - destruct (dueAt_rate_hard t (set_lastReviewedAt (Some t) w)) as [_ ->].
    by destruct w.
  - destruct (fields_rate_good t (set_lastReviewedAt (Some t) w))
      as (_ & _ & _ & _ & ->). by destruct w.
  - destruct (dueAt_rate_easy t (set_lastReviewedAt (Some t) w)) as [_ ->].
    by destruct w.
Qed.

(** X1: a rated word is never new again, and "again" always leaves the word
    in progress, whatever its status and numbers were. *)
Theorem applyRating_leaves_new (w : WordEntry) (r : Rating) (t : Z) :
  status (applyRating w r t) <> status_new /\
  status (applyRating w again t) = in_progress.
Proof.
  split.
  - rewrite applyRating_status_cases.
    repeat case_bool_decide; simpl; try done;
      destruct (_ && _); try done; by destruct (status w).
  - rewrite applyRating_status_cases.
    destruct (applyRating_numbers w again t) as (_ & -> & _).
    repeat case_bool_decide; simpl; try done. by destruct (status w).
Qed.

(** X2: the result is completed exactly when the rating is not "again" and
    either the updated word has 5 repetitions and an interval of 21 days or
    more, or the word was completed already. *)
Theorem applyRating_completed_iff (w : WordEntry) (r : Rating) (t : Z) :
  let w' := applyRating w r t in
  status w' = completed <->
  r <> again /\
  (5 <= reps w' /\ 21 <= intervalDays w' \/ status w = completed).
Proof.
  cbn zeta. rewrite applyRating_status_cases.
  destruct (applyRating_numbers w r t) as (_ & Hreps & _).
  cbn zeta in Hreps.
  destruct (decide (r = again)) as [-> | Hr].
  - rewrite Hreps.
    repeat case_bool_decide; simpl; try done;
      split; try done; try (by intros [? _]);
      destruct (status w); naive_solver.
  - rewrite (bool_decide_false (r = again)) by done.
    rewrite andb_false_r.
    destruct (Z.leb_spec 5 (reps (applyRating w r t)));
      destruct (Z.leb_spec 21 (intervalDays (applyRating w r t))); simpl;
      try (split; [intros _; split; [done | left; lia] | done]).
    all: case_bool_decide as Hn; [rewrite Hn |];
      (split; [try done | intros [_ [[? ?] | Hc]]; [lia | try congruence]]).
    all: try (intros Hc; split; [done | by right]).
    all: try (destruct (status w); done).
Qed.

Lemma Math_round_lower (x : Q) (k : Z) :
  (inject_Z k <= x)%Q -> k <= Math_round x.
Proof.
  intros H. unfold Math_round.
  rewrite <- (Qfloor_Z k). apply Qfloor_resp_le. lra.
Qed.

Lemma Qmult_grows (a e : Q) : (0 <= a)%Q -> (1 <= e)%Q -> (a <= a * e)%Q.
Proof.
  intros Ha He.
  assert (H : (0 <= a * (e - 1))%Q) by (apply Qmult_le_0_compat; lra).
  lra.
Qed.

Lemma inject_Z_ge_1 (n : Z) : 1 <= n -> (1 <= inject_Z n)%Q.
Proof. intros H. change 1%Q with (inject_Z 1). by rewrite <- Zle_Qle. Qed.

(** The product of "easy", rounded twice, is not below the interval. *)
Lemma easy_product_lower (n : Z) (e : Q) :
  1 <= n -> (MIN_EASE <= e)%Q ->
  (inject_Z n
   <= mul (mul (inject_Z n) (add e (double (1 # 10)))) (double (13 # 10)))%Q.
Proof.
  intros Hn He. apply inject_Z_ge_1 in Hn.
  pose proof (ease_easy_floor e He) as He'.
  destruct MIN_EASE_bounds as [Hlo _].
  destruct literal_bounds as (_ & _ & Hc).
  set (e' := add e (double (1 # 10))) in *.
  set (c := double (13 # 10)) in *.
  unfold mul.
  assert (H1 : (inject_Z n <= double (inject_Z n * e'))%Q)
    by (apply double_mul_grows; lra).
  apply Qle_trans with (double (inject_Z n * e')); [exact H1 |].
  apply double_mul_grows; lra.
Qed.

(** One rating adds at most one repetition, and completes a word only at 5
    repetitions or more. *)
Lemma rating_count_step (w : WordEntry) (r : Rating) (t n : Z) :
  0 <= n ->
  reps w <= n /\ (status w = completed -> 5 <= n) ->
  reps (applyRating w r t) <= n + 1 /\
  (status (applyRating w r t) = completed -> 5 <= n + 1).
Proof.
  intros Hn [Hreps Hdone].
  destruct (applyRating_numbers w r t) as (_ & Hr & _). cbn zeta in Hr.
  split; [rewrite Hr; destruct r; lia |].
  rewrite applyRating_status_cases.
  repeat case_bool_decide; simpl; try done.
  all: destruct (Z.leb_spec 5 (reps (applyRating w r t))); simpl;
    [destruct (_ <=? _); simpl |]; intros Hc;
    try (rewrite Hr in *; destruct r; lia);
    try (specialize (Hdone Hc); lia); try done.
Qed.

(** X3: a word made by [createWord] is not completed by fewer than 5
    ratings, whatever they are. *)
Theorem completion_needs_five_ratings (uid topic : string) (created : Z)
    (history : list (Rating * Z)) :
  (length history < 5)%nat ->
  status (foldl (fun w rt => applyRating w rt.1 rt.2)
            (Utils.createWord uid created topic) history)
  <> completed.
Proof.
  intros Hlen Hc.
  assert (H : forall (l : list (Rating * Z)) w n,
             0 <= n ->
             reps w <= n /\ (status w = completed -> 5 <= n) ->
             let w' := foldl (fun w rt => applyRating w rt.1 rt.2) w l in
             reps w' <= n + Z.of_nat (length l) /\
             (status w' = completed -> 5 <= n + Z.of_nat (length l))).
  { induction l as [| [r t] l IH]; intros w n Hn Hw; cbn zeta.
    - cbn [foldl length]. destruct Hw as [H1 H2]. split; [lia |].
      intros Hd. specialize (H2 Hd). lia.
    - cbn [foldl length fst snd].
      destruct (IH (applyRating w r t) (n + 1) ltac:(lia)
                  (rating_count_step w r t n Hn Hw)) as [H1 H2].
      cbn zeta in H1, H2. split; [lia |]. intros Hd. specialize (H2 Hd). lia. }
  destruct (H history (Utils.createWord uid created topic) 0) as [_ H5];
    [lia | split; [by cbn | by cbn] |].
  specialize (H5 Hc). lia.
Qed.

Lemma completion_needs_five_ratings_witness :
  status (foldl (fun w rt => applyRating w rt.1 rt.2)
            (Utils.createWord "w1" 0 "t1")
            [(easy, 1000); (easy, 2000); (easy, 3000); (easy, 4000)])
  <> completed.
Proof.
  apply (completion_needs_five_ratings "w1" "t1" 0
           [(easy, 1000); (easy, 2000); (easy, 3000); (easy, 4000)]).
  cbn. lia.
Defined.

(** X4: "hard" never shortens the interval and gives a day at least; "easy"
    gives 4 days at least and, at an ease of 1.3 or more, never shortens the
    interval; "good" from the third repetition on never shortens an interval
    that is not negative at an ease of 1 or more. The products are rounded
    to doubles; for "good", whose factor can be 1, the interval is read as
    the number of the source that it is, a double (every integer up to
    [2^53] is one). *)
Theorem interval_not_shortened (w : WordEntry) (t : Z) :
  (intervalDays w <= intervalDays (applyRating w hard t) /\
   1 <= intervalDays (applyRating w hard t)) /\
  (4 <= intervalDays (applyRating w easy t) /\
   ((MIN_EASE <= ease w)%Q ->
    intervalDays w <= intervalDays (applyRating w easy t))) /\
  (2 <= reps w -> 0 <= intervalDays w -> (1 <= ease w)%Q ->
   (double (inject_Z (intervalDays w)) == inject_Z (intervalDays w))%Q ->
   intervalDays w <= intervalDays (applyRating w good t)).
Proof.
  split; [| split].
  - destruct (applyRating_numbers w hard t) as (-> & _). split; [| lia].
    destruct (Z.le_gt_cases (intervalDays w) 0) as [Hneg | Hpos]; [lia |].
    apply Z.max_le_iff. right. apply Math_round_lower.
    destruct literal_bounds as (_ & Hc & _).
    apply double_mul_grows; [apply inject_Z_ge_1; lia | lra].
  - destruct (applyRating_numbers w easy t) as (-> & _). split; [lia |].
    intros He.
    destruct (Z.le_gt_cases (intervalDays w) 0) as [Hneg | Hpos]; [lia |].
    apply Z.max_le_iff. right. apply Math_round_lower.
    apply easy_product_lower; [lia | exact He].
  - intros Hreps Hiv He Hd.
    destruct (applyRating_numbers w good t) as (-> & _).
    destruct (Z.eqb_spec (reps w) 0); [lia |].
    destruct (Z.eqb_spec (reps w) 1); [lia |].
    apply Math_round_lower. apply double_mul_ge; [| exact Hd | exact He].
    change 0%Q with (inject_Z 0). rewrite <- Zle_Qle. lia.
Qed.

Lemma interval_not_shortened_witness :
  intervalDays Examples.third_review_word
  <= intervalDays (applyRating Examples.third_review_word good 1000).
Proof.
  apply (proj2 (proj2 (interval_not_shortened Examples.third_review_word
                         1000)));
    by vm_compute.
Defined.

(** "good" on the second repetition gives 3 days even after an "easy" gave
    4. *)
Example good_after_easy_shortens :
  let w1 := applyRating (Examples.fresh "w1") easy 1000 in
  intervalDays w1 = 4 /\ intervalDays (applyRating w1 good 2000) = 3.
Proof. by vm_compute. Qed.

(** X5: [applyRating] leaves the identity and the content of the word and
    the three answer counters as they are. *)
Theorem applyRating_keeps_content (w : WordEntry) (r : Rating) (t : Z) :
  let w' := applyRating w r t in
  id w' = id w /\ word_topicId w' = word_topicId w /\
  wordOrPhrase w' = wordOrPhrase w /\ transcription w' = transcription w /\
  meaningEn w' = meaningEn w /\ exampleUsage w' = exampleUsage w /\
  translationUk w' = translationUk w /\ tags w' = tags w /\
  createdAt w' = createdAt w /\ rightCount w' = rightCount w /\
  wrongCount w' = wrongCount w /\ skipCount w' = skipCount w.
Proof.
  cbn zeta. destruct r; try (by destruct w).
  rewrite applyRating_unfold. cbn zeta.
  set (x := rate_good t (set_lastReviewedAt (Some t) w)).
  assert (Hx : id x = id w /\ word_topicId x = word_topicId w /\
               wordOrPhrase x = wordOrPhrase w /\
               transcription x = transcription w /\
               meaningEn x = meaningEn w /\ exampleUsage x = exampleUsage w /\
               translationUk x = translationUk w /\ tags x = tags w /\
               createdAt x = createdAt w /\ rightCount x = rightCount w /\
               wrongCount x = wrongCount w /\ skipCount x = skipCount w).
  { subst x. unfold rate_good.
    destruct w as [? ? ? ? ? ? ? ? ? ? ? ? iv e rp ? ? ? ? ?].
    cbn [reps set_lastReviewedAt]. by destruct (rp =? 0), (rp =? 1). }
  clearbody x. by destruct x.
Qed.

Lemma scheduled_applyRating (w : WordEntry) (r : Rating) (t : Z) :
  scheduled w -> scheduled (applyRating w r t).
Proof.
  intros (He & Hr & Hl & Hi & Hri).
  destruct (applyRating_numbers w r t) as (Hiv & Hreps & Hlap & _).
  cbn zeta in Hiv, Hreps, Hlap.
  assert (Hq : (0 <= inject_Z (intervalDays w))%Q)
    by (change 0%Q with (inject_Z 0); rewrite <- Zle_Qle; lia).
  unfold scheduled. rewrite Hiv, Hreps, Hlap.
  split; [by apply ease_floor_preserved |].
  destruct MIN_EASE_bounds as [Hlo _].
  destruct r.
  - repeat split; lia.
  - repeat split; lia.
  - destruct (Z.eqb_spec (reps w) 0); [repeat split; lia |].
    destruct (Z.eqb_spec (reps w) 1); [repeat split; lia |].
    assert (H1 : 1 <= Math_round (mul (inject_Z (intervalDays w)) (ease w))).
    { apply Math_round_lower.
      assert (Hone : (1 <= inject_Z (intervalDays w))%Q)
        by (apply inject_Z_ge_1; lia).
      apply Qle_trans with (inject_Z (intervalDays w)); [exact Hone |].
      apply double_mul_grows; lra. }
    repeat split; lia.
  - repeat split; lia.
Qed.

Lemma scheduled_createWord (uid topic : string) (created : Z) :
  scheduled (Utils.createWord uid created topic).
Proof.
  unfold scheduled. cbn. repeat split; try lia. by vm_compute.
Qed.

(** X6: a word from [createWord] has an ease of 1.3 or more, counters and an
    interval that are not negative, and an interval of a day or more once it
    has a repetition; every rating keeps all of this. *)
Theorem scheduled_invariant (uid topic : string) (created : Z) :
  scheduled (Utils.createWord uid created topic) /\
  (forall (w : WordEntry) (r : Rating) (t : Z),
     scheduled w -> scheduled (applyRating w r t)).
Proof.
  split; [apply scheduled_createWord | exact scheduled_applyRating].
Qed.

Lemma scheduled_invariant_witness :
  scheduled (applyRating (Utils.createWord "w1" 0 "t1") good 1000).
Proof.
  destruct (scheduled_invariant "w1" "t1" 0) as [H0 Hstep].
  apply Hstep. exact H0.
Defined.

(** X7: a word that satisfies the invariant and is rated at [t] is not due
    before [t] plus 10 minutes, and after a rating other than "again" not
    before [t] plus a day. *)
Theorem rated_word_not_due (w : WordEntry) (r : Rating) (t t' : Z) :
  scheduled w ->
  isDue (applyRating w r t) t' = true ->
  t + 600000 <= t' /\ (r <> again -> t + 86400000 <= t').
Proof.
  intros Hw. pose proof (scheduled_applyRating w r t Hw) as (_ & _ & _ & _ & H1).
  destruct (applyRating_numbers w r t) as (_ & Hreps & _ & Hdue).
  cbn zeta in Hreps, Hdue.
  destruct Hw as (_ & Hr & _).
  unfold isDue. rewrite Hdue. intros Hle%Z.leb_le.
  unfold addDays in Hle.
  destruct r; [split; [lia | done] | | |];
    (assert (1 <= intervalDays (applyRating w _ t)) by (apply H1; lia));
    split; lia.
Qed.

Lemma rated_word_not_due_witness :
  1000 + 600000 <= 86401000 /\ (good <> again -> 1000 + 86400000 <= 86401000).
Proof.
  apply (rated_word_not_due (Utils.createWord "w1" 0 "t1") good 1000
           86401000).
  - apply scheduled_createWord.
  - by vm_compute.
Defined.

(** X8: the lapses grow by one on "again" and stay otherwise, and on a word
    whose repetitions are not negative the repetitions are reset to 0 by
    "again" and by no other rating. *)
Theorem applyRating_counters (w : WordEntry) (r : Rating) (t : Z) :
  lapses (applyRating w r t)
  = lapses w + (if bool_decide (r = again) then 1 else 0) /\
  (0 <= reps w -> (reps (applyRating w r t) = 0 <-> r = again)).
Proof.
  destruct (applyRating_numbers w r t) as (_ & -> & -> & _).
  split; [destruct r; case_bool_decide; try done; lia |].
  intros Hr. destruct r; split; try done; lia.
Qed.

Lemma applyRating_counters_witness :
  reps (applyRating (Utils.createWord "w1" 0 "t1") again 1000) = 0.
Proof.
  destruct (applyRating_counters (Utils.createWord "w1" 0 "t1") again 1000)
    as [_ H].
  apply H; [by vm_compute | done].
Defined.

End RatingEngineMore.

(** * More on the session builder *)

Section SessionBuilderMore.

Import Srs Utils App Spec.

Lemma NoDup_of_submseteq {A} (l k : list A) : NoDup k -> l ⊆+ k -> NoDup l.
Proof.
  intros Hk Hsub. destruct (submseteq_Permutation _ _ Hsub) as [rest Hrest].
  rewrite Hrest in Hk. by apply NoDup_app in Hk as (? & _ & _).
Qed.

(** The words of the three slices are part of the filtered words. *)
Lemma slices_submseteq (filtered : list WordEntry) (now : Z)
    (cmpD cmpI : WordEntry -> WordEntry -> Z) (d i n : Z) :
  slice0 (Array_sort cmpD (dueOf filtered now)) d
  ++ slice0 (Array_sort cmpI (inProgressOf filtered now)) i
  ++ slice0 (newWordsOf filtered) n
  ⊆+ filtered.
Proof.
  etransitivity; [| apply (buckets_submseteq filtered now)].
  repeat apply submseteq_app.
  - etransitivity; [apply slice0_submseteq |].
    by rewrite Array_sort_Permutation.
  - etransitivity; [apply slice0_submseteq |].
    by rewrite Array_sort_Permutation.
  - apply slice0_submseteq.
Qed.

Lemma fst_tagged_by (o : WordEntry -> Origin) (l : list WordEntry) :
  ((fun w => (id w, o w)) <$> l).*1 = id <$> l.
Proof. induction l as [| w l IH]; [done |]. cbn. by f_equal. Qed.

Lemma item_ids_keys (queue : list SessionItem) :
  item_id <$> queue = (keyOf <$> queue).*1.
Proof. induction queue as [| it queue IH]; [done |]. cbn. by f_equal. Qed.

Lemma elem_of_slice0 {A} (x : A) (l : list A) (e : Z) :
  x ∈ slice0 l e -> x ∈ l.
Proof. intros H. eapply elem_of_submseteq; [exact H | apply slice0_submseteq]. Qed.

(** X9: when the words that pass the filters have pairwise distinct
    identifiers, no identifier comes twice in the queue. *)
Theorem buildSession_distinct_ids (words : list WordEntry)
    (config : SessionConfig) (now : Z) (src : RandomSource) :
  NoDup (id <$> filteredOf words config) ->
  NoDup (item_id <$> run (buildSession words config now) src).
Proof.
  intros Hnodup. rewrite item_ids_keys, buildSession_keys, selectionOf_keys.
  cbn zeta. set (filtered := filteredOf words config) in *.
  set (D := slice0 (Array_sort _ (dueOf filtered now)) _).
  set (I := slice0 (Array_sort _ (inProgressOf filtered now)) _).
  set (N := slice0 (newWordsOf filtered) _).
  assert (Hbase : (((fun w => (id w, origin_due)) <$> D)
                   ++ ((fun w => (id w, origin_in_progress)) <$> I)
                   ++ ((fun w => (id w, origin_new)) <$> N)).*1
                  = id <$> (D ++ I ++ N))
    by (by rewrite !fmap_app, !fst_tagged).
  assert (Hnd : NoDup (id <$> (D ++ I ++ N))).
  { eapply NoDup_of_submseteq; [exact Hnodup |].
    apply fmap_submseteq. subst D I N. apply slices_submseteq. }
  destruct (_ <? _); [| by rewrite Hbase].
  rewrite fmap_app, Hbase, fst_tagged_by. apply NoDup_app.
  split; [exact Hnd |]. split.
  - intros i Hi Hin. apply list_elem_of_fmap in Hin as (w & -> & Hw).
    apply elem_of_slice0 in Hw.
    apply list_elem_of_filter in Hw as [Hnot _]. by apply Hnot.
  - eapply NoDup_of_submseteq; [exact Hnodup |].
    apply fmap_submseteq. etransitivity; [apply slice0_submseteq |].
    apply sublist_submseteq, sublist_filter.
Qed.

Lemma buildSession_distinct_ids_witness :
  NoDup (item_id <$> run (buildSession Examples.pool36
                            (Examples.config_of_size 40) 1000)
                       Examples.varied_draws).
Proof.
  apply buildSession_distinct_ids.
  apply (bool_decide_unpack _). vm_compute. exact I.
Defined.

(** X10: every item of the queue is a word that passes the filters, and its
    origin tells the truth: a due item is a word that is not new and is due,
    a new item a new word, an in_progress item a word that is not new. *)
Theorem buildSession_items_truthful (words : list WordEntry)
    (config : SessionConfig) (now : Z) (src : RandomSource)
    (item : SessionItem) :
  item ∈ run (buildSession words config now) src ->
  exists w : WordEntry,
    w ∈ words /\ matchesFilters config w = true /\ id w = item_id item /\
    match origin item with
    | origin_due => status w <> status_new /\ isDue w now = true
    | origin_in_progress => status w <> status_new
    | origin_new => status w = status_new
    end.
Proof.
  intros Hin.
  assert (Hkey : keyOf item ∈ keyOf <$> run (buildSession words config now) src)
    by (by apply list_elem_of_fmap_2).
  rewrite buildSession_keys, selectionOf_keys in Hkey. cbn zeta in Hkey.
  assert (Hf : forall w, w ∈ filteredOf words config ->
                         w ∈ words /\ matchesFilters config w = true).
  { intros w Hw. unfold filteredOf in Hw.
    apply list_elem_of_filter in Hw. tauto. }
  assert (Hcases :
    (exists w, keyOf item = (id w, origin_due)
               /\ w ∈ dueOf (filteredOf words config) now) \/
    (exists w, keyOf item = (id w, origin_in_progress)
               /\ w ∈ inProgressOf (filteredOf words config) now) \/
    (exists w, keyOf item = (id w, origin_new)
               /\ w ∈ newWordsOf (filteredOf words config)) \/
    (exists w, keyOf item
               = (id w, if bool_decide (status w = status_new)
                        then origin_new else origin_in_progress)
               /\ w ∈ filteredOf words config)).
  { destruct (_ <? _) in Hkey;
      rewrite ?elem_of_app in Hkey;
      repeat match type of Hkey with
        | _ \/ _ => destruct Hkey as [Hkey | Hkey]
        end;
      apply list_elem_of_fmap in Hkey as (w & Hk & Hw);
      apply elem_of_slice0 in Hw;
      rewrite ?Array_sort_Permutation in Hw;
      try (apply list_elem_of_filter in Hw as [_ Hw]; by eauto 6);
      by eauto 7. }
  unfold keyOf in Hcases.
  destruct Hcases as [(w & Hk & Hw) | [(w & Hk & Hw) | [(w & Hk & Hw)
                     | (w & Hk & Hw)]]];
    injection Hk as Hid Ho; exists w; rewrite Ho.
  - apply list_elem_of_filter in Hw as [[Hs Hd] Hw].
    destruct (Hf w Hw). by repeat split.
  - apply list_elem_of_filter in Hw as [[Hs Hd] Hw].
    destruct (Hf w Hw). repeat split; try done. by rewrite Hs.
  - apply list_elem_of_filter in Hw as [Hs Hw].
    destruct (Hf w Hw). by repeat split.
  - destruct (Hf w Hw). repeat split; try done. by case_bool_decide.
Qed.

Lemma buildSession_items_truthful_witness :
  exists w : WordEntry,
    w ∈ Examples.twin_pool /\
    matchesFilters (Examples.config_of_size 2) w = true /\ id w = "a" /\
    status w <> status_new /\ isDue w 1000 = true.
Proof.
  apply (buildSession_items_truthful Examples.twin_pool
           (Examples.config_of_size 2) 1000 Examples.varied_draws
           {| item_id := "a"; item_mode := flashcards;
              origin := origin_due |}).
  vm_compute. apply list_elem_of_here.
Defined.

(** [Array_sort] with a comparator that orders by a key gives a list in the
    order of the key. *)
Lemma sort_insert_sorted {A} (cmp : A -> A -> Z) (key : A -> Z) x l :
  (forall a b, cmp a b <= 0 <-> key a <= key b) ->
  StronglySorted (fun a b => key a <= key b) l ->
  StronglySorted (fun a b => key a <= key b) (sort_insert cmp x l).
Proof.
  intros Hcmp. induction l as [| y l IH]; intros Hl; cbn [sort_insert].
  - repeat constructor.
  - apply StronglySorted_cons in Hl as [Hy Hl].
    destruct (Z.leb_spec (cmp x y) 0) as [Hle | Hgt].
    + apply Hcmp in Hle. apply StronglySorted_cons. split.
      * constructor; [exact Hle |].
        eapply Forall_impl; [exact Hy |]. cbn. intros. lia.
      * by apply StronglySorted_cons.
    + assert (Hyx : key y <= key x).
      { destruct (Z.le_gt_cases (key x) (key y)) as [H | H]; [| lia].
        apply Hcmp in H. lia. }
      apply StronglySorted_cons. split; [| by apply IH].
      rewrite sort_insert_Permutation. by constructor.
Qed.

Lemma Array_sort_sorted {A} (cmp : A -> A -> Z) (key : A -> Z) l :
  (forall a b, cmp a b <= 0 <-> key a <= key b) ->
  StronglySorted (fun a b => key a <= key b) (Array_sort cmp l).
Proof.
  intros Hcmp. induction l as [| x l IH]; [constructor |].
  unfold Array_sort. cbn [foldr]. by apply sort_insert_sorted.
Qed.

(** The first [e] elements of a sorted bucket against the others. *)
Lemma sorted_slice_split {A} (cmp : A -> A -> Z) (key : A -> Z)
    (bucket : list A) (e : Z) :
  (forall a b, cmp a b <= 0 <-> key a <= key b) ->
  0 <= e ->
  exists chosen rest : list A,
    slice0 (Array_sort cmp bucket) e = chosen /\
    chosen ++ rest ≡ₚ bucket /\
    length chosen = (Z.to_nat e `min` length bucket)%nat /\
    forall a b, a ∈ chosen -> b ∈ rest -> key a <= key b.
Proof.
  intros Hcmp He.
  exists (take (Z.to_nat e) (Array_sort cmp bucket)),
         (drop (Z.to_nat e) (Array_sort cmp bucket)).
  split; [unfold slice0; by destruct (Z.ltb_spec e 0); [lia |] |].
  split; [by rewrite take_drop, Array_sort_Permutation |].
  split; [by rewrite length_take, length_Array_sort |].
  intros a b Ha Hb.
  pose proof (Array_sort_sorted cmp key bucket Hcmp) as Hs.
  rewrite <- (take_drop (Z.to_nat e) (Array_sort cmp bucket)) in Hs.
  by apply (StronglySorted_app_1_elem_of _ _ _ _ _ Hs).
Qed.

Lemma filter_keys_tagged (o : Origin) (tag : WordEntry -> Origin)
    (l : list WordEntry) :
  filter (fun kv : string * Origin => kv.2 = o) ((fun w => (id w, tag w)) <$> l)
  = (fun w => (id w, tag w)) <$> filter (fun w => tag w = o) l.
Proof.
  induction l as [| w l IH]; [done |].
  rewrite fmap_cons, !filter_cons. cbn [snd].
  destruct (decide (tag w = o)); by rewrite IH.
Qed.

Lemma item_ids_of_origin (o : Origin) (queue : list SessionItem) :
  item_id <$> filter (fun item => origin item = o) queue
  = (filter (fun kv : string * Origin => kv.2 = o) (keyOf <$> queue)).*1.
Proof.
  induction queue as [| it queue IH]; [done |].
  rewrite fmap_cons, !filter_cons. cbn [keyOf snd].
  destruct (decide (origin it = o)); cbn; by rewrite IH.
Qed.

(** X11: the due-origin items of the queue are the earliest-due words of
    the due bucket, as many as [dueTarget] allows: no word of the bucket
    that is left out is due before one that is taken ([dueAt] absent counts
    as the instant 0). *)
Theorem buildSession_earliest_due (words : list WordEntry)
    (config : SessionConfig) (now : Z) (src : RandomSource) :
  0 <= size config ->
  let due := dueOf (filteredOf words config) now in
  let queue := run (buildSession words config now) src in
  exists chosen rest : list WordEntry,
    chosen ++ rest ≡ₚ due /\
    length chosen
    = (Z.to_nat (dueTargetOf (size config)) `min` length due)%nat /\
    item_id <$> filter (fun item => origin item = origin_due) queue
    ≡ₚ id <$> chosen /\
    forall a b, a ∈ chosen -> b ∈ rest -> dueTime a <= dueTime b.
Proof.
  intros Hsize. cbn zeta.
  destruct (targets_sum (size config) Hsize) as (Hd0 & _).
  destruct (sorted_slice_split (fun a b => dueTime a - dueTime b) dueTime
              (dueOf (filteredOf words config) now)
              (dueTargetOf (size config)) ltac:(intros; lia) Hd0)
    as (chosen & rest & Hslice & Hperm & Hlen & Hord).
  exists chosen, rest. repeat split; try done.
  rewrite item_ids_of_origin, buildSession_keys, selectionOf_keys. cbn zeta.
  rewrite Hslice.
  assert (Hbase : forall I N : list WordEntry,
    (filter (fun kv : string * Origin => kv.2 = origin_due)
       (((fun w => (id w, origin_due)) <$> chosen)
        ++ ((fun w => (id w, origin_in_progress)) <$> I)
        ++ ((fun w => (id w, origin_new)) <$> N))).*1
    = id <$> chosen).
  { intros I N.
    rewrite !filter_app,
      (filter_keys_tagged origin_due (fun _ => origin_due)),
      (filter_keys_tagged origin_due (fun _ => origin_in_progress)),
      (filter_keys_tagged origin_due (fun _ => origin_new)).
    rewrite filter_every by (by apply Forall_forall).
    rewrite !filter_none by (by apply Forall_forall).
    cbn. by rewrite !app_nil_r, fst_tagged. }
  destruct (_ <? _); [| by rewrite Hbase].
  rewrite filter_app, fmap_app, Hbase.
  rewrite (filter_keys_tagged origin_due
             (fun w => if bool_decide (status w = status_new)
                       then origin_new else origin_in_progress)).
  rewrite filter_none; [by rewrite app_nil_r |].
  apply Forall_forall. intros w _. by case_bool_decide.
Qed.

Lemma buildSession_earliest_due_witness :
  exists chosen rest : list WordEntry,
    chosen ++ rest ≡ₚ dueOf (filteredOf Examples.pool36
                                (Examples.config_of_size 5)) 1000 /\
    length chosen = 3%nat /\
    item_id <$> filter (fun item => origin item = origin_due)
                  (run (buildSession Examples.pool36
                          (Examples.config_of_size 5) 1000)
                     Examples.varied_draws)
    ≡ₚ id <$> chosen /\
    forall a b, a ∈ chosen -> b ∈ rest -> dueTime a <= dueTime b.
Proof.
  apply (buildSession_earliest_due Examples.pool36
           (Examples.config_of_size 5) 1000 Examples.varied_draws).
  by vm_compute.
Defined.

(** X12: the in-progress bucket gives its hardest words first: the words
    taken from it, as many as [inProgressTarget] allows, are in the queue
    with the origin in_progress, and no word of the bucket that is left out
    has more lapses and wrong answers than one that is taken. *)
Theorem buildSession_hardest_first (words : list WordEntry)
    (config : SessionConfig) (now : Z) (src : RandomSource) :
  0 <= size config ->
  let bucket := inProgressOf (filteredOf words config) now in
  let queue := run (buildSession words config now) src in
  exists chosen rest : list WordEntry,
    chosen ++ rest ≡ₚ bucket /\
    length chosen
    = (Z.to_nat (inProgressTargetOf (size config)) `min` length bucket)%nat /\
    (forall w, w ∈ chosen ->
       exists item, item ∈ queue /\ item_id item = id w
                    /\ origin item = origin_in_progress) /\
    forall a b, a ∈ chosen -> b ∈ rest ->
                lapses b + wrongCount b <= lapses a + wrongCount a.
Proof.
  intros Hsize. cbn zeta.
  destruct (targets_sum (size config) Hsize) as (_ & Hi0 & _).
  destruct (sorted_slice_split
              (fun a b => (lapses b + wrongCount b) - (lapses a + wrongCount a))
              (fun a => - (lapses a + wrongCount a))
              (inProgressOf (filteredOf words config) now)
              (inProgressTargetOf (size config)) ltac:(intros; lia) Hi0)
    as (chosen & rest & Hslice & Hperm & Hlen & Hord).
  exists chosen, rest. repeat split; try done.
  - intros w Hw.
    assert (Hkey : (id w, origin_in_progress)
                   ∈ keyOf <$> run (buildSession words config now) src).
    { rewrite buildSession_keys, selectionOf_keys. cbn zeta. rewrite Hslice.
      assert (Hin : (id w, origin_in_progress)
                    ∈ (fun w => (id w, origin_in_progress)) <$> chosen)
        by (by apply (list_elem_of_fmap_2
                        (fun w => (id w, origin_in_progress)))).
      destruct (_ <? _); rewrite !elem_of_app; tauto. }
    apply list_elem_of_fmap in Hkey as (item & Hk & Hitem).
    injection Hk as Hid Ho. by exists item.
  - intros a b Ha Hb. specialize (Hord a b Ha Hb). cbn beta in Hord. lia.
Qed.

Lemma buildSession_hardest_first_witness :
  exists chosen rest : list WordEntry,
    chosen ++ rest ≡ₚ inProgressOf (filteredOf Examples.pool36
                                       (Examples.config_of_size 10)) 1000 /\
    length chosen = 3%nat /\
    (forall w, w ∈ chosen ->
       exists item,
         item ∈ run (buildSession Examples.pool36
                       (Examples.config_of_size 10) 1000)
                  Examples.varied_draws
         /\ item_id item = id w /\ origin item = origin_in_progress) /\
    forall a b, a ∈ chosen -> b ∈ rest ->
                lapses b + wrongCount b <= lapses a + wrongCount a.
Proof.
  apply (buildSession_hardest_first Examples.pool36
           (Examples.config_of_size 10) 1000 Examples.varied_draws).
  by vm_compute.
Defined.

Lemma forEach_pushItem_fixed config m (o : WordEntry -> Origin) ws :
  mode config = fixed_mode m ->
  forall selection src k,
    Forall (fun item => item_mode item = m) selection ->
    Forall (fun item => item_mode item = m)
      (forEach (fun w => pushItem config w (o w)) ws selection src k).1.
Proof.
  intros Hm. induction ws as [| w ws IH]; intros selection src k Hsel.
  - exact Hsel.
  - cbn [forEach]. unfold mbind, Rand_bind.
    unfold pushItem at 1. rewrite Hm. cbn. apply IH.
    apply Forall_app. split; [exact Hsel |]. by repeat constructor.
Qed.

(** X13: with a training mode chosen in the configuration, every item of
    the queue has that mode. *)
Theorem buildSession_fixed_mode (words : list WordEntry)
    (config : SessionConfig) (now : Z) (src : RandomSource)
    (m : TrainingMode) :
  mode config = fixed_mode m ->
  Forall (fun item => item_mode item = m)
    (run (buildSession words config now) src).
Proof.
  intros Hm. unfold run, buildSession, mbind, Rand_bind.
  destruct (selectionOf words config now src O) as [selection k'] eqn:Hsel.
  cbn [fst]. rewrite shuffle_Permutation.
  replace selection with (selectionOf words config now src O).1
    by (by rewrite Hsel).
  clear Hsel. unfold selectionOf. cbn zeta. unfold mbind, Rand_bind.
  repeat match goal with
    | |- context [forEach ?f ?ws ?sel ?s ?k] =>
        lazymatch goal with
        | H : Forall _ (forEach f ws sel s k).1 |- _ => fail
        | _ => idtac
        end;
        let H := fresh "H" in
        let sel' := fresh "sel" in
        let k' := fresh "k" in
        let E := fresh "E" in
        assert (H : Forall (fun item => item_mode item = m)
                      (forEach f ws sel s k).1);
        [ apply (forEach_pushItem_fixed config m _ ws Hm sel s k); try done
        | destruct (forEach f ws sel s k) as [sel' k'] eqn:E;
          cbn [fst] in H ]
    end.
  destruct (_ <? _); [| done].
  match goal with
  | |- context [forEach ?f ?ws ?sel ?s ?k] =>
      apply (forEach_pushItem_fixed config m
               (fun w => if bool_decide (status w = status_new)
                         then origin_new else origin_in_progress)
               ws Hm sel s k); done
  end.
Qed.

Lemma buildSession_fixed_mode_witness :
  Forall (fun item => item_mode item = spelling)
    (run (buildSession Examples.pool36
            {| size := 10; mode := fixed_mode spelling;
               cfg_topicId := all_topics; cfg_tags := [] |} 1000)
       Examples.varied_draws).
Proof.
  by apply (buildSession_fixed_mode Examples.pool36
              {| size := 10; mode := fixed_mode spelling;
                 cfg_topicId := all_topics; cfg_tags := [] |} 1000
              Examples.varied_draws spelling).
Defined.

End SessionBuilderMore.

(** * The component as a transition system *)

Section ComponentEvents.

Import Srs Utils App Manage Inv.

Variable trim : string -> string.

Lemma handleImport_sessionPart parsed s :
  sessionPart (handleImport parsed s) = sessionPart s.
Proof.
  unfold handleImport.
  destruct parsed as [p |]; [| by destruct s].
  destruct (parsed_topics p), (parsed_words p); try by destruct s.
  destruct (negb _); [by destruct s |].
  destruct (importMode s); by destruct s.
Qed.

Lemma step_parts (e : Event) (c : Component) :
  (sessionEvent e = false ->
   sessionPart (app (step trim e c)) = sessionPart (app c)) /\
  (dataEvent e = false ->
   dataPart (app (step trim e c)) = dataPart (app c)).
Proof.
  destruct c as [s f]. split; intros He; destruct e; try discriminate He;
    cbn [step on_app on_form app form].
  - apply handleImport_sessionPart.
  - unfold handleAddTopic. cbn [form app].
    destruct (bool_decide _); [done |].
    destruct (wordDraft f); by destruct s.
  - unfold handleDeleteTopic. cbn [form app].
    destruct confirm; [| done]. cbn [negb].
    destruct (bool_decide _); by destruct s.
  - unfold handleSaveWord. cbn [form app].
    destruct (wordDraft f) as [d |]; [| done].
    destruct (bool_decide _); [done |].
    destruct (_ || _); by destruct s.
  - done.
  - unfold handleDeleteWord. destruct confirm; [| done]. by destruct s.
  - unfold handleAddTag. cbn [form]. by destruct (wordDraft f).
  - unfold handleRemoveTag. cbn [form]. by destruct (wordDraft f).
  - done.
  - by destruct s.
  - by destruct s.
  - by destruct s.
  - unfold handleStartSession.
    destruct (run _ _); [by destruct s |].
    destruct s as [? ? ? ? ? ? ? ? ? ? tm ? ? ? ? ?]. by destruct tm.
  - unfold sessionTimeout. destruct (bool_decide _); by destruct s.
  - done.
  - unfold handleAddTag. cbn [form]. by destruct (wordDraft f).
  - unfold handleRemoveTag. cbn [form]. by destruct (wordDraft f).
  - done.
  - by destruct s.
  - by destruct s.
  - by destruct s.
Qed.

(** X14: the events that manage topics and words, the import and the plain
    controls leave the queue, the index, the statistics, the timer, the
    attempt counts and the seen marks of the session as they are; the start
    of a session, the timeout and the plain controls leave the database and
    the lists of topics and words as they are. *)
Theorem events_keep_their_part (e : Event) (c : Component) :
  (sessionEvent e = false ->
   sessionPart (app (step trim e c)) = sessionPart (app c)) /\
  (dataEvent e = false ->
   dataPart (app (step trim e c)) = dataPart (app c)).
Proof. exact (step_parts e c). Qed.

(** The session part of the state after [handleRating], when there is a
    current item and its word. *)
Lemma handleRating_session rating manualAnswer env s item word :
  currentItem s = Some item -> currentWord s = Some word ->
  let s' := handleRating rating manualAnswer env s in
  let attempts := nextAttempts (sessionAttempts s) (id word) in
  let isNewIntro :=
    bool_decide (status word = status_new)
    && negb (seenBefore (sessionSeen s) (id word)) in
  let updated :=
    ratedWord word rating manualAnswer isNewIntro (rating_newDate env) in
  let rated :=
    ratedStats rating item word updated isNewIntro (sessionStats s) in
  let finished :=
    bool_decide (sessionQueue s !! (sessionIndex s + 1)%nat = None) in
  sessionQueue s' =
    (if bool_decide (rating = again) && negb (atLeast3 attempts)
     then splice_in
            (Z.to_nat
               (Z.min (Z.of_nat (length (sessionQueue s)))
                  (Z.of_nat (sessionIndex s)
                   + reinsertOffset (rating_random env))))
            item (sessionQueue s)
     else sessionQueue s) /\
  sessionIndex s' =
    (if finished then sessionIndex s else (sessionIndex s + 1)%nat) /\
  sessionStats s' =
    (if finished
     then with_finishedAt (Some (rating_finishNow env)) rated else rated) /\
  sessionTimerRef s' = (if finished then None else sessionTimerRef s) /\
  pendingTimeouts s' =
    (if finished
     then match sessionTimerRef s with
          | Some tid => pendingTimeouts s ∖ {[tid]}
          | None => pendingTimeouts s
          end
     else pendingTimeouts s) /\
  nextTimeoutId s' = nextTimeoutId s /\
  sessionAttempts s' =
    (if bool_decide (rating = again)
     then <[id word := attempts]> (sessionAttempts s)
     else sessionAttempts s) /\
  sessionSeen s' = <[id word := true]> (sessionSeen s).
Proof.
  intros Hi Hw. cbn zeta. unfold handleRating. rewrite Hi, Hw. cbn zeta.
  unfold advanceSession.
  destruct (bool_decide (rating = again)); cbn [andb];
    destruct (atLeast3 (nextAttempts (sessionAttempts s) (id word)));
    destruct (sessionQueue s !! (sessionIndex s + 1)%nat) eqn:Hnext;
    rewrite ?(bool_decide_true (_ = None)) by done;
    rewrite ?(bool_decide_false (_ = None)) by done;
    destruct s as [? ? ? ? ? ? ? ? ? ? tm ? ? ? ? ?];
    cbn -[nextAttempts seenBefore]; try done; by destruct tm.
Qed.

(** The topics and words after [handleRating]. *)
Lemma handleRating_data rating manualAnswer env s item word :
  currentItem s = Some item -> currentWord s = Some word ->
  let s' := handleRating rating manualAnswer env s in
  let attempts := nextAttempts (sessionAttempts s) (id word) in
  let isNewIntro :=
    bool_decide (status word = status_new)
    && negb (seenBefore (sessionSeen s) (id word)) in
  let updated :=
    ratedWord word rating manualAnswer isNewIntro (rating_newDate env) in
  let postponed :=
    set_updatedAt (rating_postponeIso env)
      (set_dueAt (Some (rating_postponeNow env + 24 * 60 * 60 * 1000))
         updated) in
  let stored :=
    if bool_decide (rating = again) && atLeast3 attempts
    then postponed else updated in
  topics s' = topics s /\
  words s' = replaceWord stored (words s) /\
  db s' = Db.putWord stored (db s) /\
  id stored = id word.
Proof.
  intros Hi Hw. cbn zeta.
  assert (Hid : forall a b x,
             id (set_updatedAt a (set_dueAt b x)) = id x) by (by intros ? ? []).
  assert (Hrep : forall u v prev,
             id u = id v ->
             replaceWord u (replaceWord v prev) = replaceWord u prev).
  { intros u v prev Huv. unfold replaceWord. rewrite map_map.
    apply map_ext. intros w. rewrite <- Huv.
    destruct (decide (id w = id u)) as [Hwu | Hwu].
    - rewrite !(bool_decide_true (id w = id u)) by done.
      by rewrite bool_decide_true.
    - by rewrite !(bool_decide_false (id w = id u)) by done. }
  assert (Hput : forall u v d,
             id u = id v -> Db.putWord u (Db.putWord v d) = Db.putWord u d).
  { intros u v d Huv. unfold Db.putWord. cbn. f_equal.
    rewrite <- Huv. apply insert_insert_eq. }
  unfold handleRating. rewrite Hi, Hw. cbn zeta.
  unfold advanceSession.
  destruct (bool_decide (rating = again)); cbn [andb];
    destruct (atLeast3 (nextAttempts (sessionAttempts s) (id word)));
    destruct (sessionQueue s !! (sessionIndex s + 1)%nat) eqn:Hnext;
    destruct s as [d ? ? ? ? ? ? ? ? ? tm ? ? ? ? ?];
    cbn -[replaceWord Db.putWord nextAttempts seenBefore];
    destruct tm; cbn -[replaceWord Db.putWord nextAttempts seenBefore];
    rewrite ?Hrep, ?Hput by (by rewrite Hid);
    rewrite ?Hid, ?id_ratedWord; done.
Qed.

Lemma sessionPart_fields s s' :
  sessionPart s' = sessionPart s ->
  sessionQueue s' = sessionQueue s /\ sessionIndex s' = sessionIndex s /\
  sessionStats s' = sessionStats s /\
  sessionTimerRef s' = sessionTimerRef s /\
  pendingTimeouts s' = pendingTimeouts s /\
  nextTimeoutId s' = nextTimeoutId s.
Proof. unfold sessionPart. intros H. by simplify_eq. Qed.

Lemma accounted_ratedStats rating item word updated isNewIntro prev :
  accounted prev ->
  accounted (ratedStats rating item word updated isNewIntro prev).
Proof.
  unfold accounted, ratedStats. cbn zeta. destruct prev. cbn.
  intros H.
  repeat match goal with
    | |- context [if ?c then _ else _] => destruct c
    end; cbn; lia.
Qed.

Lemma accounted_finishedAt v st :
  accounted (with_finishedAt v st) <-> accounted st.
Proof. by destruct st. Qed.

Lemma accounted_step (e : Event) (c : Component) :
  accounted (sessionStats (app c)) ->
  accounted (sessionStats (app (step trim e c))).
Proof.
  intros H. destruct (sessionEvent e) eqn:He.
  - destruct c as [s f]. destruct e; try discriminate He;
      cbn [step on_app app] in *.
    + unfold handleStartSession. destruct (run _ _); [by destruct s |].
      destruct s as [? ? ? ? ? ? ? ? ? ? tm ? ? ? ? ?].
      destruct tm; unfold accounted; cbn; lia.
    + destruct (currentItem s) as [item |] eqn:Hi;
        [| unfold handleRating; by rewrite Hi].
      destruct (currentWord s) as [word |] eqn:Hw;
        [| unfold handleRating; by rewrite Hi, Hw].
      destruct (handleRating_session rating manualAnswer env s item word
                  Hi Hw) as (_ & _ & -> & _).
      destruct (bool_decide _); rewrite ?accounted_finishedAt;
        by apply accounted_ratedStats.
    + unfold sessionTimeout. destruct (bool_decide _); [| done].
      destruct s as [? ? ? ? ? ? ? ? ? st ? ? ? ? ? ?]. cbn in *.
      by apply accounted_finishedAt.
  - destruct (step_parts e c) as [Hs _].
    destruct (sessionPart_fields _ _ (Hs He)) as (_ & _ & -> & _). done.
Qed.

(** X15: in every state that the component reaches from its start, the
    statistics of the session add up: the answers are the correct ones plus
    the lapses, and the due, new and completed counts lie between 0 and the
    answers. *)
Theorem stats_accounted (events : list Event) (d : Db.Store)
    (loadedTopics : list Topic) (loadedWords : list WordEntry) (now : Z) :
  accounted
    (sessionStats
       (app (steps trim events
               (initialComponent d loadedTopics loadedWords now)))).
Proof.
  unfold steps.
  assert (H0 : accounted
                 (sessionStats
                    (app (initialComponent d loadedTopics loadedWords now))))
    by (unfold accounted; cbn; lia).
  revert H0. generalize (initialComponent d loadedTopics loadedWords now).
  induction events as [| e events IH]; intros c Hc; [exact Hc |].
  cbn [foldl]. apply IH. by apply accounted_step.
Qed.

Lemma length_splice_in {T} (n : nat) (x : T) (l : list T) :
  length (splice_in n x l) = S (length l).
Proof.
  unfold splice_in. rewrite length_app. cbn [length].
  rewrite length_take, length_drop. lia.
Qed.

Lemma indexInRange_step (e : Event) (c : Component) :
  indexInRange (app c) -> indexInRange (app (step trim e c)).
Proof.
  intros H. destruct (sessionEvent e) eqn:He.
  - destruct c as [s f]. destruct e; try discriminate He;
      cbn [step on_app app] in *.
    + unfold handleStartSession. destruct (run _ _) eqn:Hrun;
        [by destruct s |].
      destruct s as [? ? ? ? ? ? ? ? ? ? tm ? ? ? ? ?].
      right. destruct tm; cbn; lia.
    + destruct (currentItem s) as [item |] eqn:Hi;
        [| unfold handleRating; by rewrite Hi].
      destruct (currentWord s) as [word |] eqn:Hw;
        [| unfold handleRating; by rewrite Hi, Hw].
      destruct (handleRating_session rating manualAnswer env s item word
                  Hi Hw) as (Hq & Hidx & _).
      cbn zeta in Hq, Hidx. right. rewrite Hq, Hidx.
      unfold currentItem in Hi. apply lookup_lt_Some in Hi.
      assert (Hlen : forall l : list SessionItem,
                (l = sessionQueue s \/
                 exists n x, l = splice_in n x (sessionQueue s)) ->
                (length (sessionQueue s) <= length l)%nat).
      { intros l [-> | (n & x & ->)]; [done |].
        rewrite length_splice_in. lia. }
      case_bool_decide as Hnext.
      * destruct (_ && _); [rewrite length_splice_in |]; lia.
      * assert (Hsome : is_Some (sessionQueue s !! (sessionIndex s + 1)%nat))
          by (by apply not_eq_None_Some).
        apply lookup_lt_is_Some_1 in Hsome.
        destruct (_ && _); [rewrite length_splice_in |]; lia.
    + unfold sessionTimeout. destruct (bool_decide _); [| done].
      destruct s. exact H.
  - destruct (step_parts e c) as [Hs _].
    destruct (sessionPart_fields _ _ (Hs He)) as (Hq & Hi & _).
    unfold indexInRange. by rewrite Hq, Hi.
Qed.

(** X16: in every state that the component reaches from its start, either
    no session was started yet and the queue is empty, or the index points
    at an item of the queue: once a session has started, no rating, timeout
    or other event leaves the component without a current item. *)
Theorem current_item_stays (events : list Event) (d : Db.Store)
    (loadedTopics : list Topic) (loadedWords : list WordEntry) (now : Z) :
  let s := app (steps trim events
                  (initialComponent d loadedTopics loadedWords now)) in
  sessionQueue s = [] \/ is_Some (currentItem s).
Proof.
  cbn zeta.
  assert (H : indexInRange
                (app (steps trim events
                        (initialComponent d loadedTopics loadedWords now)))).
  { unfold steps.
    assert (H0 : indexInRange
                   (app (initialComponent d loadedTopics loadedWords now)))
      by (by left).
    revert H0. generalize (initialComponent d loadedTopics loadedWords now).
    induction events as [| e events IH]; intros c Hc; [exact Hc |].
    cbn [foldl]. apply IH. by apply indexInRange_step. }
  destruct H as [H | H]; [by left | right].
  unfold currentItem. by apply lookup_lt_is_Some_2.
Qed.

Lemma timersOwned_step (e : Event) (c : Component) :
  timersOwned (app c) -> timersOwned (app (step trim e c)).
Proof.
  intros [Hown Hbelow]. destruct (sessionEvent e) eqn:He.
  - destruct c as [s f]. destruct e; try discriminate He;
      cbn [step on_app app] in *.
    + unfold handleStartSession. destruct (run _ _) eqn:Hrun;
        [by destruct s |].
      destruct s as [? pend next ? ? ? ? ? ? ? tm ? ? ? ? ?].
      cbn in Hown, Hbelow. unfold timersOwned.
      destruct tm as [old |]; cbn; split.
      * intros tid [Hin | Hin]%elem_of_union.
        -- apply elem_of_singleton in Hin. by subst.
        -- apply elem_of_difference in Hin as [Hin Hnot].
           specialize (Hown tid Hin). simplify_eq.
           by apply not_elem_of_singleton in Hnot.
      * intros tid [= <-]. lia.
      * intros tid [Hin | Hin]%elem_of_union.
        -- apply elem_of_singleton in Hin. by subst.
        -- by specialize (Hown tid Hin).
      * intros tid [= <-]. lia.
    + destruct (currentItem s) as [item |] eqn:Hi;
        [| unfold handleRating; by rewrite Hi].
      destruct (currentWord s) as [word |] eqn:Hw;
        [| unfold handleRating; by rewrite Hi, Hw].
      destruct (handleRating_session rating manualAnswer env s item word
                  Hi Hw) as (_ & _ & _ & Href & Hpend & Hnext & _).
      cbn zeta in Href, Hpend. unfold timersOwned.
      rewrite Href, Hpend, Hnext.
      destruct (bool_decide _); [| done]. split; [| done].
      intros tid Hin. destruct (sessionTimerRef s) as [old |] eqn:Hold.
      * apply elem_of_difference in Hin as [Hin Hnot].
        specialize (Hown tid Hin). simplify_eq.
        by apply not_elem_of_singleton in Hnot.
      * by specialize (Hown tid Hin).
    + unfold sessionTimeout. case_bool_decide as Hin; [| done].
      destruct s as [? pend next ? ? ? ? ? ? ? tm ? ? ? ? ?].
      cbn in *. unfold timersOwned. cbn. split; [| done].
      intros tid' [Hin' _]%elem_of_difference. by apply Hown.
  - destruct (step_parts e c) as [Hs _].
    destruct (sessionPart_fields _ _ (Hs He)) as (_ & _ & _ & Hr & Hp & Hn).
    unfold timersOwned. by rewrite Hr, Hp, Hn.
Qed.

Lemma timersOwned_reachable (events : list Event) (d : Db.Store)
    (loadedTopics : list Topic) (loadedWords : list WordEntry) (now : Z) :
  timersOwned
    (app (steps trim events
            (initialComponent d loadedTopics loadedWords now))).
Proof.
  unfold steps.
  assert (H0 : timersOwned
                 (app (initialComponent d loadedTopics loadedWords now)))
    by (split; [intros tid Hin; by apply not_elem_of_empty in Hin | done]).
  revert H0. generalize (initialComponent d loadedTopics loadedWords now).
  induction events as [| e events IH]; intros c Hc; [exact Hc |].
  cbn [foldl]. apply IH. by apply timersOwned_step.
Qed.

(** X17: in every state that the component reaches from its start, at most
    one session timeout is pending, and it is the one that
    [sessionTimerRef] holds: a timeout of an earlier session cannot fire. *)
Theorem one_timeout_pending (events : list Event) (d : Db.Store)
    (loadedTopics : list Topic) (loadedWords : list WordEntry) (now : Z) :
  let s := app (steps trim events
                  (initialComponent d loadedTopics loadedWords now)) in
  (forall tid, tid ∈ pendingTimeouts s -> sessionTimerRef s = Some tid) /\
  (forall tid dateNow,
     sessionTimerRef s <> Some tid -> sessionTimeout tid dateNow s = s).
Proof.
  cbn zeta.
  destruct (timersOwned_reachable events d loadedTopics loadedWords now)
    as [Hown _].
  split; [exact Hown |].
  intros tid dateNow Hne. unfold sessionTimeout.
  case_bool_decide as Hin; [| done]. by specialize (Hown tid Hin).
Qed.

(** X18: in a state that the component reaches from its start, a rating of
    the last item of the queue ends the session: [finishedAt] is set to the
    clock reading, the index stays on that item, and no timeout is pending
    any more, so that a timeout that comes later changes nothing. *)
Theorem last_rating_finishes (events : list Event) (d : Db.Store)
    (loadedTopics : list Topic) (loadedWords : list WordEntry) (now : Z)
    (rating : Rating) (manualAnswer : option string) (env : RatingEnv) :
  let s := app (steps trim events
                  (initialComponent d loadedTopics loadedWords now)) in
  let s' := handleRating rating manualAnswer env s in
  is_Some (currentWord s) ->
  sessionQueue s !! (sessionIndex s + 1)%nat = None ->
  finishedAt (sessionStats s') = Some (rating_finishNow env) /\
  sessionIndex s' = sessionIndex s /\
  pendingTimeouts s' = ∅ /\
  forall tid dateNow, sessionTimeout tid dateNow s' = s'.
Proof.
  cbn zeta. intros [word Hw] Hlast.
  destruct (timersOwned_reachable events d loadedTopics loadedWords now)
    as [Hown _].
  set (s := app (steps trim events
                   (initialComponent d loadedTopics loadedWords now))) in *.
  destruct (currentItem s) as [item |] eqn:Hi;
    [| unfold currentWord in Hw; by rewrite Hi in Hw].
  destruct (handleRating_session rating manualAnswer env s item word Hi Hw)
    as (_ & Hidx & Hst & _ & Hpend & _).
  cbn zeta in Hidx, Hst, Hpend.
  rewrite (bool_decide_true _ Hlast) in Hidx, Hst, Hpend.
  assert (Hempty : pendingTimeouts (handleRating rating manualAnswer env s)
                   = ∅).
  { rewrite Hpend. apply set_eq. intros tid. split; [| set_solver].
    intros Hin. destruct (sessionTimerRef s) as [old |] eqn:Hold.
    - apply elem_of_difference in Hin as [Hin Hnot].
      specialize (Hown tid Hin). simplify_eq.
      by apply not_elem_of_singleton in Hnot.
    - by specialize (Hown tid Hin). }
  repeat split; try done.
  - rewrite Hst. by destruct (ratedStats _ _ _ _ _ _).
  - intros tid dateNow. unfold sessionTimeout. rewrite Hempty.
    by rewrite bool_decide_false by set_solver.
Qed.


Lemma buildSession_nil_iff (words : list WordEntry) (config : SessionConfig)
    (now : Z) (src : RandomSource) :
  0 < size config ->
  run (buildSession words config now) src = [] <-> filteredOf words config = [].
Proof.
  intros Hsize.
  assert (Hnil : forall l : list SessionItem, l = [] <-> length l = O)
    by (intros l; split; [by intros -> | apply nil_length_inv]).
  rewrite Hnil, length_buildSession, selectionOf_keys. cbn zeta.
  set (filtered := filteredOf words config).
  split.
  - intros Hlen. destruct filtered as [| w filtered'] eqn:Hf; [done |].
    exfalso. rewrite <- Hf in *.
    set (base := ((fun w => (id w, origin_due)) <$> _) ++ _) in *.
    destruct base as [| b base'] eqn:Hbase.
    + cbn [length] in Hlen.
      destruct (Z.ltb_spec (Z.of_nat 0) (size config)); [| lia].
      rewrite app_nil_l, length_fmap in Hlen.
      rewrite filter_every in Hlen
        by (apply Forall_forall; intros x _; apply not_elem_of_nil).
      rewrite length_slice0 in Hlen by lia.
      rewrite Hf in Hlen. cbn [length] in Hlen. lia.
    + destruct (_ <? _); cbn in Hlen; lia.
  - intros Hf. rewrite Hf. cbn.
    assert (Hs0 : forall e, @slice0 WordEntry [] e = [])
      by (intros e; unfold slice0; destruct (_ <? _); apply take_nil).
    rewrite !Hs0. cbn. by destruct (_ <? _).
Qed.

(** X19: for a positive size, [handleStartSession] refuses when no word
    passes the filters: only the message changes. When a word passes, the
    queue is the one of [buildSession] and is not empty, the index is 0, the
    statistics are at zero with the length of the queue as total and no
    [finishedAt], the attempt counts and the seen marks are cleared, the
    training view is shown, and the topics and words are left as they are. *)
Theorem handleStartSession_outcome (env : StartEnv) (s : AppState) :
  0 < size (sessionConfig s) ->
  let filtered := filteredOf (words s) (sessionConfig s) in
  let queue :=
    run (buildSession (words s) (sessionConfig s) (start_newDate env))
      (start_random env) in
  let s' := handleStartSession env s in
  (filtered = [] -> s' = notify "No words match the current filters." s) /\
  (filtered <> [] ->
   sessionQueue s' = queue /\ queue <> [] /\ sessionIndex s' = O /\
   sessionStats s'
   = {| total := Z.of_nat (length queue); answered := 0; correct := 0;
        dueDone := 0; newIntroduced := 0; movedCompleted := 0;
        stat_lapses := 0; startedAt := start_dateNow env;
        finishedAt := None |} /\
   sessionAttempts s' = ∅ /\ sessionSeen s' = ∅ /\ view s' = view_train /\
   dataPart s' = dataPart s).
Proof.
  intros Hsize. cbn zeta.
  pose proof (buildSession_nil_iff (words s) (sessionConfig s)
                (start_newDate env) (start_random env) Hsize) as Hnil.
  unfold handleStartSession.
  destruct (run _ _) as [| first rest] eqn:Hrun.
  - split; [done |]. intros Hf. exfalso. apply Hf. by apply Hnil.
  - split; [intros Hf; apply Hnil in Hf; discriminate Hf |].
    intros _. destruct s as [? ? ? ? ? ? ? ? ? ? tm ? ? ? ? ?].
    by destruct tm.
Qed.

Lemma find_filtered_out (k : string) (l : list WordEntry) :
  find (fun w => bool_decide (id w = k)) (filter (fun w => id w <> k) l)
  = None.
Proof.
  induction l as [| w l IH]; [done |].
  rewrite filter_cons. destruct (decide (id w <> k)) as [Hne | Heq]; [| done].
  cbn [find]. by rewrite bool_decide_false.
Qed.

(** X20: when the word of the current item is deleted, the item stays in the
    queue without a word, and every rating is refused from then on: the
    component is left as it is. *)
Theorem deleted_word_blocks_session (c : Component) (item : SessionItem) :
  currentItem (app c) = Some item ->
  let c' := handleDeleteWord true (item_id item) c in
  currentItem (app c') = Some item /\
  currentWord (app c') = None /\
  forall rating manualAnswer env,
    step trim (Rate rating manualAnswer env) c' = c'.
Proof.
  intros Hi. cbn zeta. destruct c as [s f]. cbn [app] in Hi.
  unfold handleDeleteWord, on_app. cbn [negb app form].
  set (s' := setWords _ _).
  assert (Hitem : currentItem s' = Some item) by (subst s'; by destruct s).
  assert (Hword : currentWord s' = None).
  { unfold currentWord. rewrite Hitem. subst s'. destruct s. cbn.
    apply find_filtered_out. }
  repeat split; try done.
  intros rating manualAnswer env. cbn [step]. unfold on_app. cbn [app form].
  unfold handleRating. by rewrite Hitem, Hword.
Qed.


(** ** The lists of the component and the database *)

Lemma foldl_insert_snoc {V} (key : V -> string) (m0 : gmap string V) l v :
  foldl (fun m v => <[key v := v]> m) m0 (l ++ [v])
  = <[key v := v]> (foldl (fun m v => <[key v := v]> m) m0 l).
Proof. by rewrite foldl_app. Qed.

Lemma foldl_insert_union {V} (key : V -> string) (m0 : gmap string V) l :
  foldl (fun m v => <[key v := v]> m) m0 l = storeBy key l ∪ m0.
Proof.
  induction l as [| v l IH] using rev_ind.
  - cbn. by rewrite (left_id_L ∅ (∪)).
  - unfold storeBy. rewrite !foldl_insert_snoc. fold (storeBy key l).
    by rewrite IH, insert_union_l.
Qed.

Lemma storeBy_snoc {V} (key : V -> string) l v :
  storeBy key (l ++ [v]) = <[key v := v]> (storeBy key l).
Proof. apply foldl_insert_snoc. Qed.

Lemma storeBy_app {V} (key : V -> string) l k :
  storeBy key (l ++ k) = storeBy key k ∪ storeBy key l.
Proof.
  unfold storeBy at 1. rewrite foldl_app. fold (storeBy key l).
  apply foldl_insert_union.
Qed.

Lemma storeBy_lookup_Some {V} (key : V -> string) l k v :
  storeBy key l !! k = Some v -> v ∈ l /\ key v = k.
Proof.
  induction l as [| x l IH] using rev_ind; [done |].
  rewrite storeBy_snoc.
  destruct (decide (key x = k)) as [<- | Hne].
  - rewrite lookup_insert_eq. intros [= <-]. split; [| done].
    apply elem_of_app. right. apply list_elem_of_here.
  - rewrite lookup_insert_ne by done. intros H.
    destruct (IH H) as [Hin Hk]. split; [| done].
    apply elem_of_app. by left.
Qed.

Lemma storeBy_lookup_None {V} (key : V -> string) l k :
  storeBy key l !! k = None <-> k ∉ key <$> l.
Proof.
  induction l as [| x l IH] using rev_ind.
  - split; [intros _; apply not_elem_of_nil | done].
  - rewrite storeBy_snoc, fmap_app, not_elem_of_app. cbn.
    rewrite not_elem_of_cons.
    destruct (decide (key x = k)) as [<- | Hne].
    + rewrite lookup_insert_eq. split; [done | intros [_ [H _]]; done].
    + rewrite lookup_insert_ne by done. rewrite IH.
      split; [intros H; repeat split; [done | congruence
                                      | apply not_elem_of_nil]
             | by intros [H _]].
Qed.

Lemma storeBy_lookup_NoDup {V} (key : V -> string) l k v :
  NoDup (key <$> l) ->
  storeBy key l !! k = Some v <-> v ∈ l /\ key v = k.
Proof.
  intros Hnd. split; [apply storeBy_lookup_Some |].
  induction l as [| x l IH] using rev_ind.
  - intros [Hin _]. by apply elem_of_nil in Hin.
  - rewrite fmap_app in Hnd. apply NoDup_app in Hnd as (Hl & Hdisj & _).
    rewrite storeBy_snoc. intros [Hin Hk].
    apply elem_of_app in Hin as [Hin | Hin].
    + assert (Hne : key x <> k).
      { intros Heq. apply (Hdisj k).
        - rewrite <- Hk. by apply list_elem_of_fmap_2.
        - rewrite <- Heq. cbn. apply list_elem_of_here. }
      rewrite lookup_insert_ne by done. by apply IH.
    + apply list_elem_of_singleton in Hin. subst x.
      rewrite Hk. apply lookup_insert_eq.
Qed.

(** Replacing by identifier in the list is a put in the store. *)
Lemma storeBy_replace {V} (key : V -> string) (u : V) l :
  key u ∈ key <$> l ->
  storeBy key (map (fun w => if bool_decide (key w = key u) then u else w) l)
  = <[key u := u]> (storeBy key l).
Proof.
  induction l as [| x l IH] using rev_ind.
  - intros H. by apply elem_of_nil in H.
  - rewrite fmap_app, map_app. cbn [map].
    intros Hin. case_bool_decide as Hx; rewrite !storeBy_snoc.
    + rewrite Hx, insert_insert_eq.
      destruct (decide (key u ∈ key <$> l)) as [Hl | Hl].
      * rewrite IH by done. by rewrite insert_insert_eq.
      * f_equal. f_equal. clear -Hl.
        induction l as [| y l IHl]; [done |]. cbn.
        rewrite fmap_cons, not_elem_of_cons in Hl. destruct Hl as [Hy Hl].
        rewrite bool_decide_false by done. by rewrite IHl.
    + apply elem_of_app in Hin as [Hin | Hin].
      * rewrite IH by done. by apply insert_insert_ne.
      * cbn in Hin. apply list_elem_of_singleton in Hin. congruence.
Qed.

Lemma key_replace {V} (key : V -> string) (u : V) l :
  key <$> map (fun w => if bool_decide (key w = key u) then u else w) l
  = key <$> l.
Proof.
  induction l as [| x l IH]; [done |]. cbn. rewrite IH.
  f_equal. by case_bool_decide.
Qed.

(** Filtering an identifier out of the list is a delete in the store. *)
Lemma storeBy_filter_key {V} (key : V -> string) (k : string) l :
  storeBy key (filter (fun v => key v <> k) l) = delete k (storeBy key l).
Proof.
  induction l as [| x l IH] using rev_ind.
  - cbn. by rewrite delete_empty.
  - rewrite filter_app, filter_cons, filter_nil, storeBy_snoc.
    destruct (decide (key x <> k)) as [Hne | Heq].
    + rewrite storeBy_snoc, IH. by rewrite delete_insert_ne.
    + apply dec_stable in Heq. rewrite app_nil_r, IH, <- Heq.
      by rewrite delete_insert_eq.
Qed.

(** Filtering a list of distinct identifiers filters the store. *)
Lemma storeBy_filter {V} (key : V -> string) (P : V -> Prop)
    `{!forall v, Decision (P v)} l :
  NoDup (key <$> l) ->
  storeBy key (filter P l) = filter (fun kv => P kv.2) (storeBy key l).
Proof.
  induction l as [| x l IH] using rev_ind; intros Hnd.
  - cbn. by rewrite map_filter_empty.
  - rewrite fmap_app in Hnd. apply NoDup_app in Hnd as (Hl & Hdisj & _).
    assert (Hfresh : storeBy key l !! key x = None).
    { apply storeBy_lookup_None. intros Hin. apply (Hdisj _ Hin).
      cbn. apply list_elem_of_here. }
    rewrite filter_app, filter_cons, filter_nil, storeBy_snoc.
    destruct (decide (P x)) as [HP | HP].
    + rewrite storeBy_snoc, IH by done.
      by rewrite map_filter_insert_True.
    + rewrite app_nil_r, IH by done.
      rewrite map_filter_insert_False by done.
      by rewrite delete_id.
Qed.


Lemma putAllWords_store (l : list WordEntry) (d : Db.Store) :
  Db.words_store (putAllWords l d)
  = foldl (fun m w => <[id w := w]> m) (Db.words_store d) l /\
  Db.topics_store (putAllWords l d) = Db.topics_store d.
Proof.
  revert d. induction l as [| w l IH]; intros d; [done |].
  unfold putAllWords in *. cbn [foldl]. by destruct (IH (Db.putWord w d)).
Qed.

Lemma putAllTopics_store (l : list Topic) (d : Db.Store) :
  Db.topics_store (putAllTopics l d)
  = foldl (fun m t => <[topicId t := t]> m) (Db.topics_store d) l /\
  Db.words_store (putAllTopics l d) = Db.words_store d.
Proof.
  revert d. induction l as [| t l IH]; intros d; [done |].
  unfold putAllTopics in *. cbn [foldl]. by destruct (IH (Db.putTopic t d)).
Qed.

(** ** The merge of an import *)

Section Merge.

Context {V : Type} (key : V -> string).

Lemma map_set_app_l (k : string) (v : V) (m1 m2 : list (string * V)) :
  k ∈ m1.*1 -> map_set k v (m1 ++ m2) = map_set k v m1 ++ m2.
Proof.
  induction m1 as [| [k' v'] m1 IH]; intros Hin.
  - by apply elem_of_nil in Hin.
  - cbn. destruct (decide (k' = k)); [done |].
    cbn in Hin. apply elem_of_cons in Hin as [-> | Hin]; [done |].
    by rewrite IH.
Qed.

Lemma map_set_app_r (k : string) (v : V) (m1 m2 : list (string * V)) :
  k ∉ m1.*1 -> map_set k v (m1 ++ m2) = m1 ++ map_set k v m2.
Proof.
  induction m1 as [| [k' v'] m1 IH]; intros Hin; [done |].
  cbn in Hin. apply not_elem_of_cons in Hin as [Hne Hin].
  cbn. destruct (decide (k' = k)); [congruence |]. by rewrite IH.
Qed.

Lemma map_set_keys_in (k : string) (v : V) (m : list (string * V)) :
  k ∈ m.*1 -> (map_set k v m).*1 = m.*1.
Proof.
  induction m as [| [k' v'] m IH]; intros Hin.
  - by apply elem_of_nil in Hin.
  - cbn. destruct (decide (k' = k)) as [-> | Hne]; [done |].
    cbn in Hin. apply elem_of_cons in Hin as [-> | Hin]; [done |].
    cbn. by rewrite IH.
Qed.

Lemma map_set_fresh (k : string) (v : V) (m : list (string * V)) :
  k ∉ m.*1 -> map_set k v m = m ++ [(k, v)].
Proof.
  intros Hin. rewrite <- (app_nil_r m) at 1.
  by rewrite map_set_app_r.
Qed.

Lemma map_set_values (k : string) (v : V) (m : list (string * V)) :
  key v = k ->
  Forall (fun kv => key kv.2 = kv.1) m ->
  Forall (fun kv => key kv.2 = kv.1) (map_set k v m).
Proof.
  intros Hk. induction 1 as [| [k' v'] m Hx Hm IH]; cbn.
  - by repeat constructor.
  - destruct (decide (k' = k)); constructor; done.
Qed.

Lemma map_set_keyed (v : V) (m : list (string * V)) :
  keyed key m -> keyed key (map_set (key v) v m).
Proof.
  intros [Hnd Hval]. split; [| by apply map_set_values].
  destruct (decide (key v ∈ m.*1)) as [Hin | Hin].
  - by rewrite map_set_keys_in.
  - rewrite map_set_fresh, fmap_app by done. apply NoDup_app.
    split; [done |]. split; [| apply NoDup_singleton].
    intros k Hk Hk'. cbn in Hk'. apply list_elem_of_singleton in Hk'.
    by subst.
Qed.

Lemma map_set_to_map (k : string) (v : V) (m : list (string * V)) :
  (list_to_map (map_set k v m) : gmap string V)
  = <[k := v]> (list_to_map m).
Proof.
  induction m as [| [k' v'] m IH]; [done |].
  cbn. destruct (decide (k' = k)) as [-> | Hne]; cbn.
  - by rewrite insert_insert_eq.
  - rewrite IH. by apply insert_insert_ne.
Qed.

Lemma setAll_keyed (l : list V) (m : list (string * V)) :
  keyed key m -> keyed key (setAll key l m).
Proof.
  unfold setAll. revert m. induction l as [| v l IH]; intros m Hm; [done |].
  cbn [foldl]. apply IH. by apply map_set_keyed.
Qed.

Lemma setAll_to_map (l : list V) (m : list (string * V)) :
  (list_to_map (setAll key l m) : gmap string V)
  = foldl (fun m v => <[key v := v]> m) (list_to_map m) l.
Proof.
  unfold setAll. revert m. induction l as [| v l IH]; intros m; [done |].
  cbn [foldl]. by rewrite IH, map_set_to_map.
Qed.

Lemma keyed_keys (m : list (string * V)) :
  Forall (fun kv => key kv.2 = kv.1) m -> key <$> m.*2 = m.*1.
Proof.
  induction 1 as [| [k v] m Hx Hm IH]; [done |]. cbn in *. by rewrite IH, Hx.
Qed.

Lemma keyed_store (m : list (string * V)) :
  keyed key m -> storeBy key m.*2 = list_to_map m.
Proof.
  intros [Hnd Hval]. apply map_eq. intros k.
  destruct (list_to_map m !! k) as [v |] eqn:Hm.
  - apply (storeBy_lookup_NoDup key); [by rewrite keyed_keys |].
    apply elem_of_list_to_map in Hm; [| done].
    split; [by apply (list_elem_of_fmap_2' snd _ (k, v)) |].
    rewrite Forall_forall in Hval. by apply (Hval (k, v)).
  - apply storeBy_lookup_None. rewrite keyed_keys by done.
    by apply not_elem_of_list_to_map.
Qed.

(** The merged list holds one record for each identifier, and the record
    of the existing list where both lists have one. *)
Lemma mergeById_store (imported existing : list V) :
  NoDup (key <$> mergeById key imported existing) /\
  storeBy key (mergeById key imported existing)
  = storeBy key existing ∪ storeBy key imported.
Proof.
  unfold mergeById. fold (setAll key (imported ++ existing) []).
  assert (Hk : keyed key (setAll key (imported ++ existing) []))
    by (apply setAll_keyed; split; [apply NoDup_nil_2 | constructor]).
  split.
  - rewrite keyed_keys by apply Hk. apply Hk.
  - rewrite keyed_store, setAll_to_map by done.
    cbn [list_to_map foldr]. fold (storeBy key (imported ++ existing)).
    apply storeBy_app.
Qed.

End Merge.


(** ** The lists and the database stay together *)

Lemma consistent_dataPart s s' :
  dataPart s' = dataPart s -> consistent s -> consistent s'.
Proof.
  unfold dataPart, consistent. intros [= Hdb Ht Hw]. by rewrite Hdb, Ht, Hw.
Qed.

Lemma union_absorb {V} (a b : gmap string V) : (a ∪ b) ∪ a = a ∪ b.
Proof.
  apply map_eq. intros k. rewrite !lookup_union.
  by destruct (a !! k), (b !! k).
Qed.

Lemma NoDup_filter_ids {V} (key : V -> string) (P : V -> Prop)
    `{!forall v, Decision (P v)} (l : list V) :
  NoDup (key <$> l) -> NoDup (key <$> filter P l).
Proof.
  intros Hnd. eapply sublist_NoDup; [exact Hnd |].
  apply fmap_sublist, sublist_filter.
Qed.

Lemma existsb_id (k : string) (l : list WordEntry) :
  existsb (fun w => bool_decide (id w = k)) l = true <-> k ∈ id <$> l.
Proof.
  induction l as [| w l IH]; cbn.
  - split; [done | intros H; by apply elem_of_nil in H].
  - rewrite orb_true_iff, IH, elem_of_cons, bool_decide_eq_true.
    split; intros [H | H]; auto.
Qed.

Lemma consistent_handleRating rating manualAnswer env s :
  consistent s -> consistent (handleRating rating manualAnswer env s).
Proof.
  intros (Hnd & Hw & Ht).
  destruct (currentItem s) as [item |] eqn:Hi;
    [| unfold handleRating; by rewrite Hi].
  destruct (currentWord s) as [word |] eqn:Hword;
    [| unfold handleRating; by rewrite Hi, Hword].
  destruct (handleRating_data rating manualAnswer env s item word Hi Hword)
    as (Htop & Hwords & Hdb & Hid).
  cbn zeta in Htop, Hwords, Hdb, Hid.
  match type of Hid with id ?t = _ => set (stored := t) in * end.
  assert (Hin : id stored ∈ id <$> words s).
  { rewrite Hid. unfold currentWord in Hword. rewrite Hi in Hword.
    apply find_some in Hword as [Hin _].
    apply list_elem_of_fmap_2. by apply list_elem_of_In. }
  unfold consistent. rewrite Htop, Hwords, Hdb. unfold replaceWord, storeOf.
  rewrite key_replace, storeBy_replace by done.
  repeat split; try done. cbn. by rewrite Hw.
Qed.

Lemma consistent_handleImport parsed s :
  consistent s -> distinctImport s (Manage.Import parsed) ->
  consistent (handleImport parsed s).
Proof.
  intros (Hnd & Hw & Ht) Hdist. unfold handleImport.
  destruct parsed as [p |]; [| by destruct s].
  cbn in Hdist.
  destruct (parsed_topics p) as [ptopics |];
    destruct (parsed_words p) as [pwords |]; try by destruct s.
  destruct (negb _); [by destruct s |].
  destruct (importMode s) eqn:Hmode.
  - (* merge *)
    destruct (mergeById_store id pwords (words s)) as [Hmnd Hmst].
    destruct (mergeById_store topicId ptopics (topics s)) as [_ Htst].
    destruct s as [d ? ? ts ws ? ? ? ? ? ? ? ? ? ? ?]. cbn in *.
    unfold consistent. cbn.
    destruct (putAllWords_store (mergeById id pwords ws)
                (putAllTopics (mergeById topicId ptopics ts) d))
      as [-> ->].
    destruct (putAllTopics_store (mergeById topicId ptopics ts) d)
      as [-> ->].
    rewrite !foldl_insert_union. unfold storeOf, topicStoreOf.
    rewrite Hmst, Htst, Hw, Ht. unfold storeOf, topicStoreOf.
    by rewrite !union_absorb, !(right_id_L ∅ (∪)).
  - (* replace *)
    specialize (Hdist eq_refl).
    destruct s as [d ? ? ts ws ? ? ? ? ? ? ? ? ? ? ?]. cbn in *.
    unfold consistent. cbn.
    destruct (putAllWords_store pwords
                (putAllTopics ptopics (Db.clearAll d))) as [-> ->].
    destruct (putAllTopics_store ptopics (Db.clearAll d)) as [-> ->].
    done.
Qed.

Lemma consistent_step (e : Event) (c : Component) :
  consistent (app c) -> distinctImport (app c) e ->
  consistent (app (step trim e c)).
Proof.
  intros Hc Hdist. destruct (dataEvent e) eqn:He.
  2:{ destruct (step_parts e c) as [_ Hd].
      by apply (consistent_dataPart _ _ (Hd He)). }
  destruct c as [s f]. destruct e; try discriminate He;
    cbn [step on_app app form] in *.
  - by apply consistent_handleRating.
  - by apply consistent_handleImport.
  - (* AddTopic *)
    unfold handleAddTopic. cbn [form app].
    destruct (bool_decide _); [done |].
    destruct Hc as (Hnd & Hw & Ht).
    assert (Hgoal : forall f',
              consistent
                (app (on_form f'
                        (on_app (fun s0 => setTopics
                                   (topics s0
                                    ++ [createTopic trim (topic_uid env)
                                          (topic_nowIso env) (topicName f)])
                                   s0)
                           (on_app (fun s0 => set_db
                                      (Db.putTopic
                                         (createTopic trim (topic_uid env)
                                            (topic_nowIso env) (topicName f))
                                         (db s0)) s0)
                              {| app := s; form := f |}))))).
    { intros f'. destruct s as [d ? ? ts ws ? ? ? ? ? ? ? ? ? ? ?].
      unfold consistent. cbn -[storeOf topicStoreOf storeBy] in *.
      repeat split; try done.
      unfold topicStoreOf in *. rewrite storeBy_snoc. by rewrite Ht. }
    destruct (wordDraft f).
    + apply (Hgoal (setTopicName "")).
    + unfold on_form at 1. cbn [app]. apply (Hgoal (setTopicName "")).
  - (* DeleteTopic *)
    unfold handleDeleteTopic. cbn [form app].
    destruct confirm; [| done]. cbn [negb].
    destruct Hc as (Hnd & Hw & Ht).
    assert (Hgoal :
      consistent
        (setWords (filter (fun w => word_topicId w <> tid) (words s))
           (setTopics (filter (fun t => topicId t <> tid) (topics s))
              (set_db (Db.deleteTopic tid (db s)) s)))).
    { destruct s as [d ? ? ts ws ? ? ? ? ? ? ? ? ? ? ?].
      unfold consistent. cbn -[storeOf topicStoreOf storeBy] in *.
      repeat split.
      - by apply NoDup_filter_ids.
      - unfold storeOf in *. rewrite (storeBy_filter id) by done.
        by rewrite Hw.
      - unfold topicStoreOf in *. rewrite storeBy_filter_key.
        by rewrite Ht. }
    destruct (bool_decide _); unfold on_form, on_app; cbn [app form];
      by destruct s.
  - (* SaveWord *)
    unfold handleSaveWord. cbn [form app].
    destruct (wordDraft f) as [d |]; [| done].
    destruct (bool_decide _); [done |].
    destruct (_ || _); [unfold on_app; cbn [app]; by destruct s |].
    destruct Hc as (Hnd & Hw & Ht).
    unfold on_form, on_app. cbn [app form].
    set (draft := set_updatedAt (save_nowIso env) d).
    destruct s as [dbs ? ? ts ws ? ? ? ? ? ? ? ? ? ? ?].
    unfold consistent. cbn -[storeOf topicStoreOf storeBy] in *.
    unfold storeOf in *.
    destruct (existsb _ ws) eqn:Hex.
    + apply existsb_id in Hex.
      rewrite key_replace.
      rewrite storeBy_replace by done. by rewrite Hw.
    + assert (Hnot : id draft ∉ id <$> ws).
      { intros Hin. apply existsb_id in Hin. congruence. }
      rewrite fmap_app. rewrite storeBy_snoc, Hw.
      repeat split; try done.
      apply NoDup_app. split; [done |]. split; [| apply NoDup_singleton].
      intros k Hk Hk'. cbn in Hk'. apply list_elem_of_singleton in Hk'.
      by subst.
  - (* DeleteWord *)
    unfold handleDeleteWord. destruct confirm; [| done]. cbn [negb].
    destruct Hc as (Hnd & Hw & Ht).
    unfold on_app. cbn [app form].
    destruct s as [dbs ? ? ts ws ? ? ? ? ? ? ? ? ? ? ?].
    unfold consistent. cbn -[storeOf topicStoreOf storeBy] in *.
    repeat split; try done.
    + by apply NoDup_filter_ids.
    + unfold storeOf in *. rewrite storeBy_filter_key. by rewrite Hw.
Qed.

Lemma consistent_steps (events : list Event) (c : Component) :
  consistent (app c) -> distinctImports trim events c ->
  consistent (app (steps trim events c)).
Proof.
  unfold steps. revert c.
  induction events as [| e events IH]; intros c Hc Hd; [exact Hc |].
  cbn [foldl]. destruct Hd as [He Hrest].
  apply IH; [by apply consistent_step | exact Hrest].
Qed.

(** X21: when the list of words and the database agree and the identifiers
    of the list are distinct, they still do after any sequence of events in
    which every snapshot imported with the replace policy has distinct word
    identifiers: the database holds a word under an identifier exactly when
    the list holds that word, and every stored topic is in the list of
    topics. *)
Theorem lists_match_database (events : list Event) (c : Component) :
  consistent (app c) -> distinctImports trim events c ->
  let s := app (steps trim events c) in
  NoDup (id <$> words s) /\
  (forall k w,
     Db.words_store (db s) !! k = Some w <-> w ∈ words s /\ id w = k) /\
  (forall k t,
     Db.topics_store (db s) !! k = Some t -> t ∈ topics s /\ topicId t = k) /\
  (forall k,
     Db.topics_store (db s) !! k = None <-> k ∉ topicId <$> topics s).
Proof.
  intros Hc Hd. cbn zeta.
  destruct (consistent_steps events c Hc Hd) as (Hnd & Hw & Ht).
  split; [exact Hnd |]. rewrite Hw, Ht. split; [| split].
  - intros k w. by apply storeBy_lookup_NoDup.
  - intros k t. apply storeBy_lookup_Some.
  - intros k. apply storeBy_lookup_None.
Qed.

End ComponentEvents.

Section ComponentWitnesses.

Import Srs Utils App Manage Inv.

Lemma events_keep_their_part_witness :
  sessionPart (app (step (fun x => x) (DeleteWord true "w1")
                      {| app := Examples.started_session;
                         form := initialForm |}))
  = sessionPart Examples.started_session.
Proof.
  by apply (proj1 (events_keep_their_part (fun x => x)
                     (DeleteWord true "w1")
                     {| app := Examples.started_session;
                        form := initialForm |})).
Defined.

Lemma last_rating_finishes_witness :
  finishedAt (sessionStats
                (handleRating good None (Examples.rating_env 2000)
                   Examples.started_session))
  = Some 2000.
Proof.
  apply (last_rating_finishes (fun x => x)
           [StartSession Examples.start_env]
           (Db.putWord (Examples.fresh "w1")
              (Db.putTopic Examples.topic1 Db.empty))
           [Examples.topic1] [Examples.fresh "w1"] 0
           good None (Examples.rating_env 2000));
    [by eexists | by vm_compute].
Defined.


Lemma handleStartSession_outcome_witness :
  sessionIndex (handleStartSession Examples.start_env Examples.one_word_app)
  = O.
Proof.
  destruct (handleStartSession_outcome Examples.start_env
              Examples.one_word_app ltac:(reflexivity)) as [_ H].
  destruct H as (_ & _ & H & _); [by vm_compute | exact H].
Defined.

Lemma deleted_word_blocks_session_witness :
  let c := {| app := Examples.started_session; form := initialForm |} in
  currentWord (app (handleDeleteWord true "w1" c)) = None.
Proof.
  intros c.
  destruct (deleted_word_blocks_session (fun x => x) c
              {| item_id := "w1"; item_mode := flashcards;
                 origin := origin_new |} ltac:(reflexivity))
    as (_ & H & _).
  exact H.
Defined.


Lemma one_timeout_pending_witness :
  sessionTimeout 1%positive 601000 Examples.exhausted_session
  = Examples.exhausted_session.
Proof.
  apply (proj2 (one_timeout_pending (fun x => x)
                  [StartSession Examples.start_env;
                   Rate good None (Examples.rating_env 2000)]
                  (Db.putWord (Examples.fresh "w1")
                     (Db.putTopic Examples.topic1 Db.empty))
                  [Examples.topic1] [Examples.fresh "w1"] 0)
           1%positive 601000).
  by vm_compute.
Defined.

Lemma lists_match_database_witness :
  let c := {| app := Examples.one_word_app; form := initialForm |} in
  let events :=
    [ ChangeImportMode import_replace;
      Import (Some {| parsed_schemaVersion := 1;
                      parsed_topics := Some [Examples.topic1];
                      parsed_words :=
                        Some [Examples.fresh "w2"; Examples.fresh "w3"] |});
      DeleteWord true "w2" ] in
  NoDup (id <$> words (app (steps (fun x => x) events c))).
Proof.
  intros c events.
  apply (lists_match_database (fun x => x) events c).
  - split; [| split].
    + cbn. apply NoDup_singleton.
    + reflexivity.
    + reflexivity.
  - cbn. repeat split; try done.
    intros _. apply NoDup_cons. split; [| apply NoDup_singleton].
    intros Hin. apply list_elem_of_singleton in Hin. discriminate Hin.
Defined.

End ComponentWitnesses.

(** * More on the import and the export *)

Section ImportExport.

Import Srs Utils App Manage Inv.

Lemma handleImport_merge_fields (s : AppState) (p : Parsed)
    (ptopics : list Topic) (pwords : list WordEntry) :
  importMode s = import_merge ->
  parsed_schemaVersion p = SCHEMA_VERSION ->
  parsed_topics p = Some ptopics -> parsed_words p = Some pwords ->
  let s' := handleImport (Some p) s in
  topics s' = mergeById topicId ptopics (topics s) /\
  words s' = mergeById id pwords (words s) /\
  db s' = putAllWords (mergeById id pwords (words s))
            (putAllTopics (mergeById topicId ptopics (topics s)) (db s)).
Proof.
  intros Hmode Hv Ht Hw. cbn zeta. unfold handleImport.
  rewrite Ht, Hw, Hv. cbn [SCHEMA_VERSION Z.eqb Pos.eqb negb].
  rewrite Hmode. by destruct s.
Qed.

(** X22: with the merge policy and a list of words of distinct identifiers,
    a valid import keeps every word of the list as it is, takes an imported
    word only under an identifier that the list does not hold, leaves no
    identifier of the file out, and gives a list of distinct identifiers
    again. *)
Theorem merge_import_keeps_existing (s : AppState) (p : Parsed)
    (ptopics : list Topic) (pwords : list WordEntry) :
  importMode s = import_merge ->
  parsed_schemaVersion p = SCHEMA_VERSION ->
  parsed_topics p = Some ptopics -> parsed_words p = Some pwords ->
  NoDup (id <$> words s) ->
  let s' := handleImport (Some p) s in
  NoDup (id <$> words s') /\
  (forall w, w ∈ words s -> w ∈ words s') /\
  (forall w, w ∈ words s' ->
     w ∈ words s \/ (w ∈ pwords /\ id w ∉ id <$> words s)) /\
  (forall w, w ∈ pwords -> id w ∈ id <$> words s').
Proof.
  intros Hmode Hv Ht Hw Hnd. cbn zeta.
  destruct (handleImport_merge_fields s p ptopics pwords Hmode Hv Ht Hw)
    as (_ & -> & _).
  destruct (mergeById_store id pwords (words s)) as [Hnd' Hst].
  assert (Hlook : forall k w,
            (w ∈ mergeById id pwords (words s) /\ id w = k)
            <-> (storeBy id (words s) ∪ storeBy id pwords) !! k = Some w).
  { intros k w. rewrite <- Hst. symmetry. by apply storeBy_lookup_NoDup. }
  split; [exact Hnd' |]. split; [| split].
  - intros w Hin. apply (Hlook (id w) w). apply lookup_union_Some_raw. left.
    by apply storeBy_lookup_NoDup.
  - intros w Hin.
    assert (H := proj1 (Hlook (id w) w) (conj Hin eq_refl)).
    apply lookup_union_Some_raw in H as [H | [Hnone H]].
    + left. by apply storeBy_lookup_Some in H as [H _].
    + right. split; [by apply storeBy_lookup_Some in H as [H _] |].
      by apply storeBy_lookup_None.
  - intros w Hin.
    destruct ((storeBy id (words s) ∪ storeBy id pwords) !! id w)
      as [w' |] eqn:Hl.
    + apply Hlook in Hl as [Hin' Hk]. rewrite <- Hk.
      by apply list_elem_of_fmap_2.
    + apply lookup_union_None in Hl as [_ Hl].
      apply storeBy_lookup_None in Hl. exfalso. apply Hl.
      by apply list_elem_of_fmap_2.
Qed.

Lemma merge_import_keeps_existing_witness :
  Examples.fresh "w1"
  ∈ words (handleImport (Some Examples.snapshot1) Examples.one_word_app).
Proof.
  destruct (merge_import_keeps_existing Examples.one_word_app
              Examples.snapshot1 [Examples.topic1]
              [Examples.fresh "w1"; Examples.third_review_word]
              eq_refl eq_refl eq_refl eq_refl) as (_ & H & _).
  - cbn. apply NoDup_singleton.
  - apply H. cbn. apply list_elem_of_here.
Defined.

(** X23: an import of a file that is not an object with the two arrays, or
    whose schema version is not 1, stores nothing and changes no list: the
    database, the topics and the words are those of before, and the message
    names the reason, the missing arrays first. *)
Theorem invalid_import_changes_nothing (parsed : option Parsed)
    (s : AppState) :
  let invalid :=
    match parsed with
    | Some p =>
        bool_decide (parsed_topics p = None)
        || bool_decide (parsed_words p = None)
    | None => true
    end in
  let mismatch :=
    match parsed with
    | Some p => negb (parsed_schemaVersion p =? SCHEMA_VERSION)
    | None => false
    end in
  invalid || mismatch = true ->
  let s' := handleImport parsed s in
  dataPart s' = dataPart s /\ sessionPart s' = sessionPart s /\
  message s' = (if invalid then "Invalid schema."
                else "Schema version mismatch. Only v1 supported.").
Proof.
  cbn zeta. intros H. unfold handleImport.
  destruct parsed as [p |]; [| by destruct s].
  destruct (parsed_topics p) as [pt |], (parsed_words p) as [pw |];
    cbn in *; try by destruct s.
  rewrite H. by destruct s.
Qed.

Lemma invalid_import_changes_nothing_witness :
  words (handleImport
           (Some {| parsed_schemaVersion := 2;
                    parsed_topics := Some [];
                    parsed_words := Some [] |})
           Examples.one_word_app)
  = [Examples.fresh "w1"].
Proof.
  destruct (invalid_import_changes_nothing
              (Some {| parsed_schemaVersion := 2;
                       parsed_topics := Some [];
                       parsed_words := Some [] |})
              Examples.one_word_app eq_refl) as (H & _).
  exact (f_equal snd H).
Defined.

Section SelfMerge.

Context {V : Type} (key : V -> string).

Lemma map_set_same (k : string) (v : V) (m : list (string * V)) :
  NoDup m.*1 -> (k, v) ∈ m -> map_set k v m = m.
Proof.
  induction m as [| [k' v'] m IH]; intros Hnd Hin.
  - by apply elem_of_nil in Hin.
  - cbn in *. apply NoDup_cons in Hnd as [Hk' Hnd].
    apply elem_of_cons in Hin as [Heq | Hin].
    + injection Heq as -> ->. by rewrite decide_True.
    + destruct (decide (k' = k)) as [-> | Hne].
      * exfalso. apply Hk'. by apply (list_elem_of_fmap_2' fst _ (k, v)).
      * by rewrite IH.
Qed.

Lemma setAll_same (l : list V) (m : list (string * V)) :
  NoDup m.*1 -> (forall v, v ∈ l -> (key v, v) ∈ m) -> setAll key l m = m.
Proof.
  intros Hnd. unfold setAll. induction l as [| v l IH]; intros Hin; [done |].
  cbn [foldl]. rewrite map_set_same; [| done | apply Hin, list_elem_of_here].
  apply IH. intros v' Hv'. apply Hin. by apply list_elem_of_further.
Qed.

Lemma setAll_fresh (l : list V) (m : list (string * V)) :
  NoDup (key <$> l) -> (forall v, v ∈ l -> key v ∉ m.*1) ->
  setAll key l m = m ++ ((fun v => (key v, v)) <$> l).
Proof.
  unfold setAll. revert m.
  induction l as [| v l IH]; intros m Hnd Hfresh.
  - by rewrite app_nil_r.
  - cbn [foldl]. cbn in Hnd. apply NoDup_cons in Hnd as [Hv Hnd].
    rewrite (map_set_fresh (V:=V)) by apply Hfresh, list_elem_of_here.
    rewrite IH; [by rewrite <- app_assoc | done |].
    intros v' Hv'. rewrite fmap_app, not_elem_of_app. split.
    + apply Hfresh. by apply list_elem_of_further.
    + cbn. intros Hin. apply list_elem_of_singleton in Hin.
      apply Hv. rewrite <- Hin. by apply list_elem_of_fmap_2.
Qed.

(** A list of distinct keys merged with itself is the list. *)
Lemma mergeById_self (l : list V) :
  NoDup (key <$> l) -> mergeById key l l = l.
Proof.
  intros Hnd. unfold mergeById. rewrite foldl_app.
  fold (setAll key l []). fold (setAll key l (setAll key l [])).
  rewrite (setAll_fresh l []) by (done || (intros; apply not_elem_of_nil)).
  rewrite app_nil_l.
  assert (Hfst : ((fun v => (key v, v)) <$> l).*1 = key <$> l)
    by (rewrite <- list_fmap_compose; done).
  rewrite setAll_same.
  - rewrite <- list_fmap_compose. apply list_fmap_id.
  - by rewrite Hfst.
  - intros v Hv. by apply (list_elem_of_fmap_2 (fun v => (key v, v))).
Qed.

End SelfMerge.

Lemma store_eta (d : Db.Store) (t : gmap string Topic)
    (w : gmap string WordEntry) :
  Db.topics_store d = t -> Db.words_store d = w ->
  d = {| Db.topics_store := t; Db.words_store := w |}.
Proof. destruct d. cbn. by intros -> ->. Qed.

(** X24: when the lists and the database agree and the identifiers of the
    topics and of the words are distinct, importing the file that
    [handleExport] writes changes neither the database nor the lists, under
    either policy. *)
Theorem export_import_round_trip (s : AppState) :
  consistent s -> NoDup (topicId <$> topics s) ->
  dataPart (handleImport (parseExport (exportData s)) s) = dataPart s.
Proof.
  intros (Hnd & Hw & Ht) Hndt. unfold dataPart.
  destruct (importMode s) eqn:Hmode.
  - destruct (handleImport_merge_fields s
                {| parsed_schemaVersion := SCHEMA_VERSION;
                   parsed_topics := Some (topics s);
                   parsed_words := Some (words s) |}
                (topics s) (words s) Hmode eq_refl eq_refl eq_refl)
      as (Ht' & Hw' & Hdb').
    unfold parseExport, exportData. cbn [schemaVersion data_topics data_words].
    rewrite Ht', Hw', Hdb'.
    rewrite !mergeById_self by done.
    f_equal. f_equal.
    destruct (putAllWords_store (words s) (putAllTopics (topics s) (db s)))
      as [Hpw Hpt].
    destruct (putAllTopics_store (topics s) (db s)) as [Hqt Hqw].
    transitivity {| Db.topics_store := topicStoreOf (topics s);
                    Db.words_store := storeOf (words s) |};
      [| symmetry; by apply store_eta].
    apply store_eta.
    + rewrite Hpt, Hqt, foldl_insert_union, Ht.
      apply (idemp_L (∪)).
    + rewrite Hpw, Hqw, foldl_insert_union, Hw.
      apply (idemp_L (∪)).
  - unfold handleImport, parseExport, exportData.
    cbn [parsed_topics parsed_words parsed_schemaVersion schemaVersion
         data_topics data_words SCHEMA_VERSION Z.eqb Pos.eqb negb].
    rewrite Hmode.
    destruct (putAllWords_store (words s)
                (putAllTopics (topics s) (Db.clearAll (db s))))
      as [Hpw Hpt].
    destruct (putAllTopics_store (topics s) (Db.clearAll (db s)))
      as [Hqt Hqw].
    destruct s as [d ? ? ts ws ? ? ? ? ? ? ? ? ? ? ?].
    cbn -[storeOf topicStoreOf storeBy putAllWords putAllTopics] in *.
    f_equal. f_equal.
    transitivity {| Db.topics_store := topicStoreOf ts;
                    Db.words_store := storeOf ws |};
      [| symmetry; by apply store_eta].
    apply store_eta.
    + by rewrite Hpt, Hqt.
    + by rewrite Hpw, Hqw.
Qed.

Lemma export_import_round_trip_witness :
  dataPart (handleImport (parseExport (exportData Examples.one_word_app))
              Examples.one_word_app)
  = dataPart Examples.one_word_app.
Proof.
  apply (export_import_round_trip Examples.one_word_app).
  - split; [| split].
    + cbn. apply NoDup_singleton.
    + reflexivity.
    + reflexivity.
  - cbn. apply NoDup_singleton.
Defined.

End ImportExport.

(** * Managing topics, words and tags *)

Section Managing.

Import Srs Utils App Manage Inv.

Variable trim : string -> string.

(** X25: [addUnique] leaves the list as it is or appends the trimmed value:
    a list without repetition and without the empty string stays so, the
    tags that were there keep their places, and a value that is not blank
    after trimming is in the result. *)
Theorem addUnique_keeps_tags_distinct (items : list string)
    (value : string) :
  NoDup items -> "" ∉ items ->
  let r := addUnique trim items value in
  NoDup r /\ ("" ∉ r) /\ (items `prefix_of` r) /\
  (trim value <> "" -> trim value ∈ r) /\
  (forall t, t ∈ r -> t ∈ items \/ t = trim value).
Proof.
  intros Hnd He. cbn zeta. unfold addUnique.
  case_bool_decide as Hclean.
  { split; [done |]. split; [done |]. split; [done |].
    split; [done | by left]. }
  case_bool_decide as Hin.
  { split; [done |]. split; [done |]. split; [done |].
    split; [done | by left]. }
  split; [| split; [| split; [| split]]].
  - apply NoDup_app. split; [done |]. split; [| apply NoDup_singleton].
    intros x Hx Hx'. apply list_elem_of_singleton in Hx'. by subst.
  - rewrite not_elem_of_app. split; [done |].
    intros H. apply list_elem_of_singleton in H. by apply Hclean.
  - by eexists.
  - intros _. apply elem_of_app. right. apply list_elem_of_here.
  - intros t Ht. apply elem_of_app in Ht as [Ht | Ht]; [by left |].
    right. by apply list_elem_of_singleton in Ht.
Qed.

Lemma filter_snoc_out (tag : string) (l : list string) :
  tag ∉ l -> filter (fun t => t <> tag) (l ++ [tag]) = l.
Proof.
  intros Hin. rewrite filter_app.
  rewrite (filter_cons_False _ tag) by (intros H; by apply H).
  rewrite filter_nil, app_nil_r.
  induction l as [| x l IH]; [done |].
  apply not_elem_of_cons in Hin as [Hne Hin].
  rewrite filter_cons_True by done. by rewrite IH.
Qed.

(** X26: [handleRemoveTag] leaves no occurrence of the tag in the draft,
    and it undoes [handleAddTag] of a tag that is trimmed, not empty and
    not among the tags of the draft: the component is as before. *)
Theorem tag_added_then_removed (tag : string) (c : Component)
    (draft : WordEntry) :
  wordDraft (form c) = Some draft ->
  (exists w', wordDraft (form (handleRemoveTag tag c)) = Some w'
              /\ (tag ∉ tags w')
              /\ forall t, t <> tag -> (t ∈ tags w' <-> t ∈ tags draft)) /\
  (trim tag = tag -> tag <> "" -> tag ∉ tags draft ->
   handleRemoveTag tag (handleAddTag trim tag c) = c).
Proof.
  intros Hd. split.
  - unfold handleRemoveTag. rewrite Hd.
    destruct c as [s f], f. cbn in *. eexists. split; [done |].
    destruct draft. cbn. split.
    + intros Hin. by apply list_elem_of_filter in Hin as [Hne _].
    + intros t Hne. rewrite list_elem_of_filter.
      split; [by intros [_ Ht] | by intros Ht].
  - intros Htrim Hne Hin.
    unfold handleAddTag. rewrite Hd.
    unfold handleRemoveTag, addUnique. rewrite Htrim.
    rewrite bool_decide_false by done.
    rewrite bool_decide_false by done.
    destruct c as [s f], f. cbn in *. subst.
    destruct draft. cbn in *. by rewrite filter_snoc_out.
Qed.

End Managing.

Section DeletingTopics.

Import Srs Utils App Manage Inv.

Lemma filteredOf_other_topic (tid : string) (l : list WordEntry)
    (config : SessionConfig) :
  cfg_topicId config = topic_is tid ->
  filteredOf (filter (fun w => word_topicId w <> tid) l) config = [].
Proof.
  intros Hcfg. unfold filteredOf.
  induction l as [| w l IH]; [done |].
  destruct (decide (word_topicId w <> tid)) as [Hne | Heq].
  - rewrite (filter_cons_True (fun w => word_topicId w <> tid)) by done.
    rewrite filter_cons_False; [exact IH |].
    unfold matchesFilters. rewrite Hcfg.
    by rewrite bool_decide_true.
  - by rewrite (filter_cons_False (fun w => word_topicId w <> tid)).
Qed.

Lemma buildSession_of_none (l : list WordEntry) (config : SessionConfig)
    (now : Z) (src : RandomSource) :
  filteredOf l config = [] -> run (buildSession l config now) src = [].
Proof.
  intros Hf. unfold run, buildSession, selectionOf. rewrite Hf. cbn.
  assert (Hs0 : forall e, @slice0 WordEntry [] e = [])
    by (intros e; unfold slice0; destruct (_ <? _); apply take_nil).
  rewrite !Hs0. unfold mbind, mret, Rand_bind, Rand_ret. cbn.
  rewrite Hs0. by destruct (_ <? _).
Qed.

(** X27: a confirmed [handleDeleteTopic] removes the topic and the words of
    the topic, and only them, from the lists and from the database; the
    configuration of the session is left as it is, so that with the deleted
    topic as its filter [handleStartSession] finds no word. *)
Theorem handleDeleteTopic_cascade (tid : string) (c : Component)
    (env : StartEnv) :
  let s := app c in
  let s' := app (handleDeleteTopic true tid c) in
  (forall t, t ∈ topics s' <-> t ∈ topics s /\ topicId t <> tid) /\
  (forall w, w ∈ words s' <-> w ∈ words s /\ word_topicId w <> tid) /\
  (forall k, Db.topics_store (db s') !! k
             = if decide (k = tid) then None
               else Db.topics_store (db s) !! k) /\
  (forall k w, Db.words_store (db s') !! k = Some w
               <-> Db.words_store (db s) !! k = Some w
                   /\ word_topicId w <> tid) /\
  sessionPart s' = sessionPart s /\
  sessionConfig s' = sessionConfig s /\
  (cfg_topicId (sessionConfig s) = topic_is tid ->
   handleStartSession env s'
   = notify "No words match the current filters." s').
Proof.
  cbn zeta. unfold handleDeleteTopic. cbn [negb].
  set (c' := on_app _ (on_app _ (on_app _ c))).
  assert (Happ : forall f', app (on_form f' c') = app c') by done.
  assert (Hgoal : app (if bool_decide (selectedTopicId (form c) = topic_is tid)
                       then on_form (setSelectedTopicId all_topics) c'
                       else c') = app c')
    by (by destruct (bool_decide _)).
  rewrite Hgoal. clear Hgoal Happ. subst c'.
  destruct c as [s f]. cbn [app on_app form].
  destruct s as [d ? ? ts ws ? cfg ? ? ? ? ? ? ? ? ?].
  cbn -[filter].
  split; [intros t; rewrite list_elem_of_filter; tauto |].
  split; [intros w; rewrite list_elem_of_filter; tauto |].
  split.
  { intros k. destruct (decide (k = tid)) as [-> | Hne].
    - apply lookup_delete_eq.
    - by apply lookup_delete_ne. }
  split; [intros k w; by rewrite map_lookup_filter_Some |].
  split; [done |]. split; [done |].
  intros Hcfg. unfold handleStartSession. cbn -[filter].
  rewrite buildSession_of_none; [done |].
  by apply filteredOf_other_topic.
Qed.

End DeletingTopics.

Section ManagingWitnesses.

Import Srs Utils App Manage Inv.

Lemma addUnique_keeps_tags_distinct_witness :
  NoDup (addUnique (fun x => x) ["verb"] "noun").
Proof.
  apply (addUnique_keeps_tags_distinct (fun x => x) ["verb"] "noun").
  - apply NoDup_singleton.
  - intros H. apply list_elem_of_singleton in H. discriminate H.
Defined.

Lemma tag_added_then_removed_witness :
  let c := {| app := Examples.one_word_app;
              form := setWordDraft (Some (Examples.fresh "w2"))
                        initialForm |} in
  handleRemoveTag "verb" (handleAddTag (fun x => x) "verb" c) = c.
Proof.
  intros c.
  apply (tag_added_then_removed (fun x => x) "verb" c (Examples.fresh "w2")
           eq_refl).
  - reflexivity.
  - discriminate.
  - apply not_elem_of_nil.
Defined.

End ManagingWitnesses.

(** * The statistics of the whole list *)

Section Statistics.

Import Srs App Stats.

Lemma buildOverallStats_fields (env : StatsEnv) (words : list WordEntry) :
  let acc :=
    foldl (countWord env)
      ({| count_new := 0; count_in_progress := 0; count_completed := 0 |},
       0, 0) words in
  byStatus (buildOverallStats env words) = acc.1.1 /\
  dueToday (buildOverallStats env words) = acc.1.2 /\
  dueWeek (buildOverallStats env words) = acc.2 /\
  hardest (buildOverallStats env words)
  = slice0
      (Array_sort
         (fun a b => (lapses b + wrongCount b) - (lapses a + wrongCount a))
         words) 8.
Proof.
  cbn zeta. unfold buildOverallStats.
  by destruct (foldl _ _ _) as [[c t] k].
Qed.

Lemma countWord_fold (env : StatsEnv) (words : list WordEntry)
    (c : StatusCounts) (t k : Z) :
  let acc := foldl (countWord env) (c, t, k) words in
  count_new acc.1.1
  = count_new c
    + Z.of_nat (length (filter (fun w => status w = status_new) words)) /\
  count_in_progress acc.1.1
  = count_in_progress c
    + Z.of_nat (length (filter (fun w => status w = in_progress) words)) /\
  count_completed acc.1.1
  = count_completed c
    + Z.of_nat (length (filter (fun w => status w = completed) words)) /\
  acc.1.2
  = t + Z.of_nat
          (length (filter (fun w => dueAt w <> None
                                    /\ isDue w (endOfToday env) = true)
                     words)) /\
  acc.2
  = k + Z.of_nat
          (length (filter (fun w => dueAt w <> None
                                    /\ isDue w (endOfWeek env) = true)
                     words)).
Proof.
  revert c t k. induction words as [| w ws IH]; intros c t k; cbn zeta.
  - cbn. repeat split; lia.
  - cbn [foldl].
    destruct (countWord env (c, t, k) w) as [[c1 t1] k1] eqn:E.
    destruct (IH c1 t1 k1) as (I1 & I2 & I3 & I4 & I5).
    rewrite I1, I2, I3, I4, I5. clear I1 I2 I3 I4 I5 IH.
    rewrite !filter_cons. unfold countWord, isDue in *.
    destruct (dueAt w) as [due |]; injection E as <- <- <-.
    + destruct (Z.leb_spec due (endOfToday env)),
               (Z.leb_spec due (endOfWeek env));
        destruct (status w); repeat case_decide;
        cbn [bump count_new count_in_progress count_completed length];
        try lia; exfalso; intuition congruence.
    + destruct (status w); repeat case_decide;
        cbn [bump count_new count_in_progress count_completed length];
        try lia; exfalso; intuition congruence.
Qed.

Lemma length_filter_le {A} (P : A -> Prop) `{forall x, Decision (P x)}
    (l : list A) :
  (length (filter P l) <= length l)%nat.
Proof.
  induction l as [| x l IH]; [done |].
  rewrite filter_cons. destruct (decide (P x)); cbn; lia.
Qed.

Lemma length_filter_impl {A} (P Q : A -> Prop) `{forall x, Decision (P x)}
    `{forall x, Decision (Q x)} (l : list A) :
  (forall x, P x -> Q x) ->
  (length (filter P l) <= length (filter Q l))%nat.
Proof.
  intros Himpl. induction l as [| x l IH]; [done |].
  rewrite !filter_cons.
  destruct (decide (P x)) as [HP | HP], (decide (Q x)) as [HQ | HQ];
    cbn; try lia.
  exfalso. by apply HQ, Himpl.
Qed.

Lemma status_partition (words : list WordEntry) :
  (length (filter (fun w => status w = status_new) words)
   + length (filter (fun w => status w = in_progress) words)
   + length (filter (fun w => status w = completed) words)
   = length words)%nat.
Proof.
  induction words as [| w ws IH]; [done |].
  rewrite !filter_cons.
  destruct (status w); repeat case_decide; try done; cbn; lia.
Qed.

(** X28: [buildOverallStats] counts each word under its status, so the
    three counters add up to the number of words; [dueToday] and [dueWeek]
    count the words that have a [dueAt] and are due at the end of today and
    of the week, so a word without [dueAt] is in neither although [isDue]
    holds of it, and [dueToday] is at most [dueWeek] when the end of today
    is not after the end of the week; [hardest] holds 8 words, or all of
    them when there are fewer, and no word left out has more lapses and
    wrong answers than a word taken. *)
Theorem buildOverallStats_counts (env : StatsEnv) (words : list WordEntry) :
  let r := buildOverallStats env words in
  let score w := lapses w + wrongCount w in
  count_new (byStatus r) + count_in_progress (byStatus r)
  + count_completed (byStatus r) = Z.of_nat (length words) /\
  count_completed (byStatus r)
  = Z.of_nat (length (filter (fun w => status w = completed) words)) /\
  dueToday r
  = Z.of_nat (length (filter (fun w => dueAt w <> None
                                       /\ isDue w (endOfToday env) = true)
                        words)) /\
  dueWeek r
  = Z.of_nat (length (filter (fun w => dueAt w <> None
                                       /\ isDue w (endOfWeek env) = true)
                        words)) /\
  dueWeek r
  <= Z.of_nat (length (filter (fun w => dueAt w <> None) words)) /\
  (endOfToday env <= endOfWeek env -> dueToday r <= dueWeek r) /\
  length (hardest r) = (8 `min` length words)%nat /\
  exists rest,
    hardest r ++ rest ≡ₚ words /\
    forall a b, a ∈ hardest r -> b ∈ rest -> score b <= score a.
Proof.
  cbn zeta.
  destruct (buildOverallStats_fields env words) as (-> & -> & -> & ->).
  destruct (countWord_fold env words
              {| count_new := 0; count_in_progress := 0;
                 count_completed := 0 |} 0 0)
    as (-> & -> & -> & -> & ->).
  cbn [count_new count_in_progress count_completed].
  pose proof (status_partition words) as Hpart.
  split; [lia |]. split; [lia |]. split; [lia |]. split; [lia |].
  split.
  { apply inj_le.
    apply length_filter_impl. by intros w [Hw _]. }
  split.
  { intros Hle. apply Zplus_le_compat_l, inj_le.
    apply length_filter_impl. intros w [Hd Hdue]. split; [done |].
    unfold isDue in *. destruct (dueAt w) as [due |]; [| done].
    apply Z.leb_le in Hdue. apply Z.leb_le. lia. }
  destruct (sorted_slice_split
              (fun a b => (lapses b + wrongCount b)
                          - (lapses a + wrongCount a))
              (fun w => - (lapses w + wrongCount w)) words 8)
    as (chosen & rest & -> & Hperm & Hlen & Hord);
    [intros a b; lia | lia |].
  split; [exact Hlen |].
  exists rest. split; [exact Hperm |].
  intros a b Ha Hb. specialize (Hord a b Ha Hb). cbn in Hord. lia.
Qed.

End Statistics.

(** * Skipping a card and picking at random *)

Section SkipAndPick.

Import Srs Utils App Inv.

Lemma ratedWord_skip (word : WordEntry) (isNewIntro : bool) (now : Z) :
  ratedWord word again (Some "skip") isNewIntro now
  = set_skipCount (skipCount word + 1)
      (ratedWord word again None isNewIntro now).
Proof.
  unfold ratedWord. cbn zeta.
  rewrite (bool_decide_true (again = again)) by done.
  rewrite (bool_decide_true (Some "skip" = Some "skip")) by done.
  rewrite (bool_decide_false (None = Some "skip")) by done.
  cbn [andb].
  destruct (applyRating word again now), (bool_decide _), isNewIntro; done.
Qed.

Lemma ratedWord_again_fields (word : WordEntry) (m : option string)
    (isNewIntro : bool) (now : Z) :
  let u := ratedWord word again m isNewIntro now in
  wrongCount u = wrongCount word + 1 /\ rightCount u = rightCount word /\
  lapses u = lapses word + 1 /\ reps u = 0 /\ status u = in_progress /\
  (m = None -> skipCount u = skipCount word).
Proof.
  cbn zeta. unfold ratedWord. cbn zeta.
  rewrite (bool_decide_true (again = again)) by done. cbn [andb].
  rewrite applyRating_unfold. cbn zeta.
  destruct word as [? ? ? ? ? ? ? ? st ? ? ? ? ? ? ? ? ? ? ?].
  unfold resolveStatus. cbn.
  destruct st, isNewIntro; cbn; repeat case_bool_decide;
    repeat split; try done; by intros ->.
Qed.

(** X30: [handleSkip] is the rating "again" that also counts in
    [skipCount]: the word it stores, in the list and in the database, is the
    word that a plain "again" stores with [skipCount] one higher, so a skip
    counts as a wrong answer and as a lapse, resets the repetitions and
    leaves the word in progress; the queue, the index, the statistics and
    the attempt counts are those of the plain "again". *)
Theorem handleSkip_counts (env : RatingEnv) (s : AppState)
    (item : SessionItem) (word : WordEntry) :
  currentItem s = Some item -> currentWord s = Some word ->
  let s' := handleSkip env s in
  let plain := handleRating again None env s in
  exists stored rated : WordEntry,
    find (fun w => bool_decide (id w = id word)) (words s') = Some stored /\
    Db.words_store (db s') !! id word = Some stored /\
    find (fun w => bool_decide (id w = id word)) (words plain) = Some rated /\
    stored = set_skipCount (skipCount word + 1) rated /\
    skipCount rated = skipCount word /\
    wrongCount rated = wrongCount word + 1 /\
    rightCount rated = rightCount word /\
    lapses rated = lapses word + 1 /\
    reps rated = 0 /\ status rated = in_progress /\
    sessionPart s' = sessionPart plain.
Proof.
  intros Hi Hw. cbn zeta. unfold handleSkip.
  destruct (handleRating_data again (Some "skip") env s item word Hi Hw)
    as (_ & Hws & Hdb & Hid).
  destruct (handleRating_data again None env s item word Hi Hw)
    as (_ & Hws0 & _ & Hid0).
  destruct (handleRating_session again (Some "skip") env s item word Hi Hw)
    as (Hq & Hix & Hst & Htm & Hpt & Hnx & Hat & Hsn).
  destruct (handleRating_session again None env s item word Hi Hw)
    as (Hq0 & Hix0 & Hst0 & Htm0 & Hpt0 & Hnx0 & Hat0 & Hsn0).
  cbn zeta in *.
  rewrite (bool_decide_true (again = again)) in * by done.
  cbn [andb] in *.
  set (isNewIntro := bool_decide (status word = status_new) && _) in *.
  set (attempts := nextAttempts (sessionAttempts s) (id word)) in *.
  rewrite ratedWord_skip in *.
  set (u := ratedWord word again None isNewIntro (rating_newDate env)) in *.
  destruct (ratedWord_again_fields word None isNewIntro (rating_newDate env))
    as (Hwrong & Hright & Hlapses & Hreps & Hstatus & Hskip).
  fold u in Hwrong, Hright, Hlapses, Hreps, Hstatus, Hskip.
  specialize (Hskip eq_refl).
  assert (Hfound : find (fun w => bool_decide (id w = id word)) (words s)
                   = Some word).
  { unfold currentWord in Hw. rewrite Hi in Hw.
    rewrite <- (currentWord_id s item word Hi) in Hw; [exact Hw |].
    unfold currentWord. by rewrite Hi. }
  match type of Hid with id ?t = _ => set (st := t) in * end.
  match type of Hid0 with id ?t = _ => set (st0 := t) in * end.
  exists st, st0.
  split; [rewrite Hws; by apply (find_replaceWord _ _ word) |].
  split; [rewrite Hdb, <- Hid; apply lookup_insert_eq |].
  split; [rewrite Hws0; by apply (find_replaceWord _ _ word) |].
  assert (Hstats :
            ratedStats again item word
              (set_skipCount (skipCount word + 1) u) isNewIntro
              (sessionStats s)
            = ratedStats again item word u isNewIntro (sessionStats s)).
  { unfold ratedStats. by destruct u. }
  subst st st0. destruct (atLeast3 attempts).
  - split; [by destruct u |].
    repeat (split; [by destruct u |]).
    unfold sessionPart.
    rewrite Hq, Hix, Hst, Htm, Hpt, Hnx, Hat, Hsn, Hstats.
    by rewrite Hq0, Hix0, Hst0, Htm0, Hpt0, Hnx0, Hat0, Hsn0.
  - split; [done |].
    repeat (split; [done |]).
    unfold sessionPart.
    rewrite Hq, Hix, Hst, Htm, Hpt, Hnx, Hat, Hsn, Hstats.
    by rewrite Hq0, Hix0, Hst0, Htm0, Hpt0, Hnx0, Hat0, Hsn0.
Qed.

Lemma handleSkip_counts_witness :
  sessionPart (handleSkip (Examples.rating_env 2000) Examples.started_session)
  = sessionPart (handleRating again None (Examples.rating_env 2000)
                   Examples.started_session).
Proof.
  destruct (handleSkip_counts (Examples.rating_env 2000)
              Examples.started_session
              {| item_id := "w1"; item_mode := flashcards;
                 origin := origin_new |}
              (Examples.fresh "w1") eq_refl eq_refl)
    as (stored & rated & H).
  apply H.
Defined.

(** X29: [pickRandom] takes one random number; on a list that is not empty
    it returns an element of the list, whatever the number, and on the empty
    list it returns [undefined]. *)
Theorem pickRandom_in_items {T} (undefined : T) (items : list T)
    (src : RandomSource) (k : nat) :
  (pickRandom undefined items src k).2 = S k /\
  (items = [] -> (pickRandom undefined items src k).1 = undefined) /\
  (items <> [] -> (pickRandom undefined items src k).1 ∈ items).
Proof.
  unfold pickRandom, mbind, mret, Rand_bind, Rand_ret, Math_random.
  cbn [fst snd]. split; [done |]. split.
  - intros ->. cbn. by destruct (Z.to_nat _).
  - intros Hne. apply list_elem_of_In, nth_In.
    by apply pickRandom_index.
Qed.

Lemma pickRandom_in_items_witness :
  (pickRandom flashcards MODES Examples.varied_draws 2%nat).1 ∈ MODES.
Proof.
  by apply (pickRandom_in_items flashcards MODES Examples.varied_draws
              2%nat).
Defined.

End SkipAndPick.

Section CascadeAndStatsWitnesses.

Import Srs Utils App Manage Inv Stats.

Lemma handleDeleteTopic_cascade_witness :
  let c := {| app := setSessionConfig
                       {| size := 20; mode := mixed;
                          cfg_topicId := topic_is "t1"; cfg_tags := [] |}
                       Examples.one_word_app;
              form := initialForm |} in
  let s' := app (handleDeleteTopic true "t1" c) in
  handleStartSession Examples.start_env s'
  = notify "No words match the current filters." s'.
Proof.
  intros c s'.
  by apply (handleDeleteTopic_cascade "t1" c Examples.start_env).
Defined.

Lemma buildOverallStats_counts_witness :
  let env := {| endOfToday := 3; endOfWeek := 5002 |} in
  dueToday (buildOverallStats env Examples.pool36)
  <= dueWeek (buildOverallStats env Examples.pool36).
Proof.
  intros env.
  apply (buildOverallStats_counts env Examples.pool36). cbn. lia.
Defined.

End CascadeAndStatsWitnesses.
